(** * Verification of the wekactl scale lambda (internal/aws/lambdas/scale)

    A shallow embedding of [scale.go] and of the protocol types it
    fills in, together with theorems about the deactivation planner,
    the host classifier, the removal-priority comparator and the
    lifecycle executor. *)

From Stdlib Require Import ZArith Lia Bool List Permutation Sorted.
From stdpp Require Import base option list strings gmap fin_maps.

Local Open Scope Z_scope.

(** ** Go's [int] on the lambda's 64-bit targets

    Signed arithmetic wraps around silently; [wrap] is the two's
    complement reduction into [[min_int, max_int]]. *)

Module GoInt.

Definition int_bits : Z := 64.
Definition max_int : Z := 2 ^ (int_bits - 1) - 1.
Definition min_int : Z := - 2 ^ (int_bits - 1).

Definition in_range (x : Z) : Prop := min_int <= x <= max_int.

Definition wrap (x : Z) : Z :=
  (x + 2 ^ (int_bits - 1)) mod 2 ^ int_bits - 2 ^ (int_bits - 1).

Definition add (a b : Z) : Z := wrap (a + b).
Definition sub (a b : Z) : Z := wrap (a - b).
(** [n++] *)
Definition incr (n : Z) : Z := add n 1.

End GoInt.

(** Modelled from the spec: [wekactl/internal/lib/math] is not part of the
    sources at hand; the planner formula of the spec writes its [Max] and
    [Min] as the maximum and the minimum of two integers. *)
Module math.
Definition Max (a b : Z) : Z := Z.max a b.
Definition Min (a b : Z) : Z := Z.min a b.
End math.

(** ** Deactivation planner *)

(** [calculateDeactivateTarget], scale.go lines 358-362. *)
Definition calculateDeactivateTarget
    (nHealthy nUnhealthy nDeactivating desired : Z) : Z :=
  let ret :=
    math.Max
      (GoInt.sub (GoInt.add (GoInt.add nHealthy nUnhealthy) nDeactivating) desired)
      (math.Min (GoInt.sub 2 nDeactivating) nUnhealthy) in
  let ret := math.Max nDeactivating ret in
  ret.

(** ** Time

    A [time.Time] is an instant, counted in nanoseconds from Go's zero
    time; a [time.Duration] is a signed 64-bit count of nanoseconds, and
    [Time.Sub] saturates at its bounds. *)
Module time.

Definition Time : Type := Z.
Definition Duration : Type := Z.

Definition Nanosecond : Duration := 1.
Definition Second : Duration := 1000000000 * Nanosecond.
Definition Minute : Duration := 60 * Second.
Definition Hour : Duration := 60 * Minute.

Definition maxDuration : Duration := GoInt.max_int.
Definition minDuration : Duration := GoInt.min_int.

Definition Sub (t u : Time) : Duration :=
  if maxDuration <? t - u then maxDuration
  else if t - u <? minDuration then minDuration
  else t - u.

(** [time.Since(t)] is [time.Now().Sub(t)]; the reading of the clock is
    an input [now] of the tick. *)
Definition Since (now t : Time) : Duration := Sub now t.

Definition Before (t u : Time) : bool := t <? u.

Definition zero : Time := 0.

End time.

(** Modelled from the spec: [wekactl/internal/lib/strings] is not part of
    the sources at hand; [AnyOf s options...] holds when [s] is one of the
    listed options. *)
Module strings.
Definition AnyOf (s : string) (options : list string) : bool :=
  existsb (String.eqb s) options.
End strings.

(** ** The management plane's data *)
Module weka.

(** Modelled from the spec: the package [wekactl/internal/lib/weka] is not
    part of the sources at hand.  Ids are cluster-internal numbers
    ([HostId.Int], [NodeId], [DriveId]); the id of the owning host of an
    orphan drive is the sentinel -1. *)
Definition HostId : Type := Z.
Definition DriveId : Type := Z.
Definition NodeId : Type := Z.
Definition UUID : Type := string.

(** Modelled from the spec: [weka.Host], with the fields that scale.go
    reads: the lifecycle state, the operational status, the private IP,
    the cloud instance id ([Aws.InstanceId]), the time the host was added
    and the time of its last state change. *)
Module Host.
Record t : Type := mk {
  State : string;
  Status : string;
  HostIp : string;
  Aws_InstanceId : string;
  AddedTime : time.Time;
  StateChangedTime : time.Time
}.
Definition zero : t := mk "" "" "" "" time.zero time.zero.
End Host.

(** Modelled from the spec: [weka.Drive]: the owning host, the health
    status, the should-be-active target flag and the UUID. *)
Module Drive.
Record t : Type := mk {
  HostId : weka.HostId;
  Status : string;
  ShouldBeActive : bool;
  Uuid : UUID
}.
End Drive.

(** Modelled from the spec: [weka.Node]: the owning host, the status, and
    the last-fencing timestamp, a pointer that scale.go dereferences once
    it has seen the status DOWN. *)
Module Node.
Record t : Type := mk {
  HostId : weka.HostId;
  Status : string;
  LastFencingTime : option time.Time
}.
End Node.

(** Modelled from the spec: [weka.StatusResponse], with the two fields
    of the gate check. *)
Module StatusResponse.
Record t : Type := mk {
  IoStatus : string;
  Upgrade : string
}.
End StatusResponse.

(** The three listings are Go maps keyed by id. *)
Abbreviation HostListResponse := (gmap HostId Host.t).
Abbreviation DriveListResponse := (gmap DriveId Drive.t).
Abbreviation NodeListResponse := (gmap NodeId Node.t).

(** Modelled from the spec: the method names of [weka] ([weka.JrpcStatus]
    and the like), each with the parameters scale.go passes. *)
Inductive rpc : Type :=
  | JrpcStatus
  | JrpcHostList
  | JrpcDrivesList
  | JrpcNodeList
  | JrpcDeactivateDrives (drive_uuids : list UUID)
  | JrpcDeactivateHosts (host_ids : list HostId) (skip_resource_validation : bool)
  | JrpcRemoveHost (host_id : Z) (no_wait : bool)
  | JrpcRemoveDrive (drive_uuids : list UUID).

End weka.

(** ** protocol.go *)
Module protocol.

Record HgInstance : Type := mkHgInstance {
  Id : string;
  PrivateIp : string
}.

Record HostGroupInfoResponse : Type := mkHostGroupInfoResponse {
  Username : string;
  Password : string;
  DesiredCapacity : Z;
  Instances : list HgInstance;
  BackendIps : list string;
  Role : string
}.

Record ScaleResponseHost : Type := mkScaleResponseHost {
  InstanceId : string;
  State : string;
  AddedTime : time.Time;
  HostId : weka.HostId
}.

Record ScaleResponse : Type := mkScaleResponse {
  Hosts : list ScaleResponseHost;
  ToTerminate : list HgInstance;
  TransientErrors : list string
}.

Definition zero : ScaleResponse := mkScaleResponse [] [] [].

(** [fmt.Sprintf("%s:%s", caller, err.Error())] *)
Definition AddTransientError (r : ScaleResponse) (err caller : string) : ScaleResponse :=
  mkScaleResponse (Hosts r) (ToTerminate r)
    (TransientErrors r ++ [caller +:+ ":" +:+ err]).

(** [ScaleResponse.AddTransientErrors]: the loop over [errs]. *)
Definition AddTransientErrors (r : ScaleResponse) (errs : list string) (caller : string)
    : ScaleResponse :=
  foldl (fun r err =>
           mkScaleResponse (Hosts r) (ToTerminate r)
             (TransientErrors r ++ [caller +:+ ":" +:+ err]))
        r errs.

Record TerminatedInstance : Type := mkTerminatedInstance {
  TerminatedInstance_InstanceId : string;
  Creation : time.Time
}.

Record TerminatedInstancesResponse : Type := mkTerminatedInstancesResponse {
  TerminatedInstances : list TerminatedInstance;
  TerminatedTransientErrors : list string
}.

(** [TerminatedInstancesResponse.AddTransientErrors]: no caller here. *)
Definition Terminated_AddTransientErrors (r : TerminatedInstancesResponse)
    (errs : list string) : TerminatedInstancesResponse :=
  foldl (fun r err =>
           mkTerminatedInstancesResponse (TerminatedInstances r)
             (TerminatedTransientErrors r ++ [err]))
        r errs.

(** [TerminatedInstancesResponse.AddTransientError] *)
Definition Terminated_AddTransientError (r : TerminatedInstancesResponse)
    (err caller : string) : TerminatedInstancesResponse :=
  mkTerminatedInstancesResponse (TerminatedInstances r)
    (TerminatedTransientErrors r ++ [caller +:+ ":" +:+ err]).

End protocol.

(** ** What the Go runtime leaves open

    A [range] statement over a map visits the entries in an order the
    runtime chooses; [sort.Slice] is not stable; the capacity of a slice
    grown by [append] is the allocator's choice.  The three choices are
    inputs of the model: [map_range] rearranges the entries of the map
    that is walked, [sort_Slice] sorts, [append_cap] gives the capacity of
    a slice that [append] has grown to a length. *)
Record GoRuntime : Type := mkGoRuntime {
  map_range : ∀ A : Type, list A → list A;
  sort_Slice : ∀ A : Type, (A → A → bool) → list A → list A;
  append_cap : nat → nat
}.

(** [for k, v := range m] *)
Definition range `{Countable K} {V : Type} (rt : GoRuntime) (m : gmap K V) : list (K * V) :=
  map_range rt (K * V) (map_to_list m).

(** A panic ends the tick without a result. *)
Inductive outcome (A : Type) : Type :=
  | Done (a : A)
  | Panic (reason : string).
Arguments Done {A} a.
Arguments Panic {A} reason.

#[global] Instance outcome_ret : MRet outcome := fun A a => Done a.
#[global] Instance outcome_bind : MBind outcome := fun A B k o =>
  match o with
  | Done a => k a
  | Panic r => Panic r
  end.

Fixpoint foldl_outcome {A B : Type} (f : B → A → outcome B) (b : B) (l : list A) : outcome B :=
  match l with
  | [] => Done b
  | a :: l' => b' ← f b a; foldl_outcome f b' l'
  end.

(** [s[:high]] on a slice: the bound is the capacity, and the elements
    between the length and the capacity hold the zero value. *)
Definition slice_to {A : Type} (rt : GoRuntime) (zero : A) (s : list A) (high : Z) : outcome (list A) :=
  if high <? 0 then Panic "slice bounds out of range"
  else if high <=? Z.of_nat (length s) then Done (firstn (Z.to_nat high) s)
  else if high <=? Z.of_nat (append_cap rt (length s))
       then Done (s ++ repeat zero (Z.to_nat high - length s)%nat)
  else Panic "slice bounds out of range".

(** ** scale.go: host records *)

Inductive hostState : Type :=
  | DEACTIVATING
  | UNHEALTHY
  | HEALTHY.

(** The constants are [iota] values: the order defines the priority of
    removal. *)
Definition hostState_int (h : hostState) : Z :=
  match h with
  | DEACTIVATING => 0
  | UNHEALTHY => 1
  | HEALTHY => 2
  end.

Definition unhealthyDeactivateTimeout : time.Duration := 120 * time.Minute.
Definition backendCleanupDelay : time.Duration := 5 * time.Minute.
Definition downKickOutTimeout : time.Duration := 3 * time.Hour.

Abbreviation driveMap := (gmap weka.DriveId weka.Drive.t).
Abbreviation nodeMap := (gmap weka.NodeId weka.Node.t).

Module hostInfo.
Record t : Type := mk {
  Host : weka.Host.t;
  id : weka.HostId;
  drives : driveMap;
  nodes : nodeMap;
  scaleState : hostState
}.
Definition zero : t := mk weka.Host.zero 0 ∅ ∅ DEACTIVATING.
Definition State (h : t) : string := weka.Host.State (Host h).
Definition Status (h : t) : string := weka.Host.Status (Host h).
Definition HostIp (h : t) : string := weka.Host.HostIp (Host h).
Definition AddedTime (h : t) : time.Time := weka.Host.AddedTime (Host h).
Definition StateChangedTime (h : t) : time.Time := weka.Host.StateChangedTime (Host h).
Definition InstanceId (h : t) : string := weka.Host.Aws_InstanceId (Host h).
Definition with_drives (h : t) (d : driveMap) : t :=
  mk (Host h) (id h) d (nodes h) (scaleState h).
Definition with_nodes (h : t) (n : nodeMap) : t :=
  mk (Host h) (id h) (drives h) n (scaleState h).
Definition with_scaleState (h : t) (s : hostState) : t :=
  mk (Host h) (id h) (drives h) (nodes h) s.
End hostInfo.

Definition belongsToHg (host : hostInfo.t) (instances : list protocol.HgInstance) : bool :=
  existsb (fun instance => String.eqb (hostInfo.InstanceId host) (protocol.Id instance)) instances.

Definition belongsToHgIpBased (host : hostInfo.t) (instances : list protocol.HgInstance) : bool :=
  existsb (fun instance => String.eqb (hostInfo.HostIp host) (protocol.PrivateIp instance)) instances.

Definition numNotHealthyDrives (rt : GoRuntime) (host : hostInfo.t) : Z :=
  foldl (fun notActive kv =>
           if strings.AnyOf (weka.Drive.Status kv.2) ["INACTIVE"]
           then GoInt.incr notActive else notActive)
        0 (range rt (hostInfo.drives host)).

Fixpoint allDisksBeingRemoved_loop (ret : bool) (l : list (weka.DriveId * weka.Drive.t)) : bool :=
  match l with
  | [] => ret
  | kv :: l' =>
      if weka.Drive.ShouldBeActive kv.2 then false
      else allDisksBeingRemoved_loop true l'
  end.

Definition allDisksBeingRemoved (rt : GoRuntime) (host : hostInfo.t) : bool :=
  allDisksBeingRemoved_loop false (range rt (hostInfo.drives host)).

Definition anyDiskBeingRemoved (rt : GoRuntime) (host : hostInfo.t) : bool :=
  existsb (fun kv => negb (weka.Drive.ShouldBeActive kv.2)) (range rt (hostInfo.drives host)).

Definition allDrivesInactive (rt : GoRuntime) (host : hostInfo.t) : bool :=
  forallb (fun kv => String.eqb (weka.Drive.Status kv.2) "INACTIVE")
          (range rt (hostInfo.drives host)).

(** [isAllowedToScale], lines 364-373; [None] is the [nil] error. *)
Definition isAllowedToScale (status : weka.StatusResponse.t) : option string :=
  if negb (String.eqb (weka.StatusResponse.IoStatus status) "STARTED")
  then Some ("io status:" +:+ weka.StatusResponse.IoStatus status +:+ ", aborting scale")
  else if negb (String.eqb (weka.StatusResponse.Upgrade status) "")
  then Some "upgrade is running, aborting scale"
  else None.

(** [getNumToDeactivate], lines 325-356: the counting loop, then the
    target. *)
Definition countStates (hostInfo : list hostInfo.t) (acc : Z * Z * Z) : Z * Z * Z :=
  foldl (fun '(nHealthy, nUnhealthy, nDeactivating) host =>
           match hostInfo.scaleState host with
           | HEALTHY => (GoInt.incr nHealthy, nUnhealthy, nDeactivating)
           | UNHEALTHY => (nHealthy, GoInt.incr nUnhealthy, nDeactivating)
           | DEACTIVATING => (nHealthy, nUnhealthy, GoInt.incr nDeactivating)
           end)
        acc hostInfo.

Definition getNumToDeactivate (hostInfo : list hostInfo.t) (desired : Z) : Z :=
  let '(nHealthy, nUnhealthy, nDeactivating) := countStates hostInfo (0, 0, 0) in
  let toDeactivate := calculateDeactivateTarget nHealthy nUnhealthy nDeactivating desired in
  toDeactivate.

Definition selectInstanceByIp (ip : string) (instances : list protocol.HgInstance)
    : option protocol.HgInstance :=
  find (fun i => String.eqb (protocol.PrivateIp i) ip) instances.

(** ** The environment of a tick *)

(** Modelled from the spec: [wekactl/internal/lib/jrpc] and
    [wekactl/internal/connectors] are not part of the sources at hand.
    [Pool.Call] executes a named call against the management plane and
    returns an error once every endpoint is exhausted or the response
    does not decode; [Pool.Drop] removes an endpoint for the remainder of
    the tick.  The pool and the plane behind it are the environment: each
    query has its reply, and the reply to a mutating call may depend on
    everything the tick did before it ([event] records it).  The order
    in which the pool tries its endpoints, shuffled at the start of the
    tick, is the environment's business. *)
Inductive event : Type :=
  | EvCall (method : weka.rpc) (err : option string)
  | EvDrop (ip : string).

Inductive reply (A : Type) : Type :=
  | Ack (a : A)
  | Fail (err : string).
Arguments Ack {A} a.
Arguments Fail {A} err.

Record ManagementPlane : Type := mkManagementPlane {
  status_reply : reply weka.StatusResponse.t;
  host_list_reply : reply weka.HostListResponse;
  drives_list_reply : reply weka.DriveListResponse;
  node_list_reply : reply weka.NodeListResponse;
  mutate_reply : list event → weka.rpc → option string
}.

Definition is_mutating (method : weka.rpc) : bool :=
  match method with
  | weka.JrpcDeactivateDrives _ | weka.JrpcDeactivateHosts _ _
  | weka.JrpcRemoveHost _ _ | weka.JrpcRemoveDrive _ => true
  | _ => false
  end.

(** The state the lifecycle phase threads: the calls issued so far and
    the response under construction. *)
Record tick : Type := mkTick {
  trace : list event;
  response : protocol.ScaleResponse
}.

(** Modelled from the spec: [Pool.Call] for a mutating call (the result
    pointer is [nil]): the plane's reply is the error or [nil]. *)
Definition Pool_Call (mp : ManagementPlane) (method : weka.rpc) (t : tick) : tick * option string :=
  let err := mutate_reply mp (trace t) method in
  (mkTick (trace t ++ [EvCall method err]) (response t), err).

(** Modelled from the spec: [Pool.Drop]. *)
Definition Pool_Drop (ip : string) (t : tick) : tick :=
  mkTick (trace t ++ [EvDrop ip]) (response t).

(** [response.AddTransientError(err, caller)] *)
Definition AddTransientError (err caller : string) (t : tick) : tick :=
  mkTick (trace t) (protocol.AddTransientError (response t) err caller).

(** What [Handler] hands back: its two named results, or a panic. *)
Inductive result : Type :=
  | Returned (response : protocol.ScaleResponse) (err : option string)
  | Panicked (reason : string).

(** The three lists the loop over the snapshot's hosts fills in. *)
Record hostLists : Type := mkHostLists {
  hostsList : list hostInfo.t;
  inactiveHosts : list hostInfo.t;
  downHosts : list hostInfo.t
}.

Section Scale.

(** Modelled from the spec: [NodeId.IsManagement] belongs to the missing
    package [weka]; a node id is a composite id that encodes whether the
    node has the management role.  The decoding is a parameter. *)
Variable IsManagement : weka.NodeId → bool.

Variable rt : GoRuntime.

(** The reading of the clock that [time.Since] compares against; one
    reading serves the whole tick, the clock does not advance between
    two calls of [time.Since]. *)
Variable now : time.Time.

Fixpoint managementTimedOut_loop (timeout : time.Duration)
    (l : list (weka.NodeId * weka.Node.t)) : outcome bool :=
  match l with
  | [] => Done false
  | kv :: l' =>
      if negb (IsManagement kv.1) then managementTimedOut_loop timeout l'
      else if String.eqb (weka.Node.Status kv.2) "DOWN" then
        match weka.Node.LastFencingTime kv.2 with
        | None => Panic "invalid memory address or nil pointer dereference"
        | Some t =>
            if timeout <? time.Since now t then Done true
            else managementTimedOut_loop timeout l'
        end
      else managementTimedOut_loop timeout l'
  end.

Definition managementTimedOut (host : hostInfo.t) (timeout : time.Duration) : outcome bool :=
  managementTimedOut_loop timeout (range rt (hostInfo.nodes host)).

(** [deriveHostState], lines 375-392. *)
Definition deriveHostState (host : hostInfo.t) : outcome hostState :=
  if allDisksBeingRemoved rt host then Done DEACTIVATING
  else if strings.AnyOf (hostInfo.State host) ["DEACTIVATING"; "REMOVING"; "INACTIVE"]
  then Done DEACTIVATING
  else
    down ← (if String.eqb (hostInfo.Status host) "DOWN"
            then managementTimedOut host unhealthyDeactivateTimeout
            else Done false) : outcome bool;
    if down : bool then Done UNHEALTHY
    else if (0 <? numNotHealthyDrives rt host) || anyDiskBeingRemoved rt host
    then Done UNHEALTHY
    else Done HEALTHY.

(** [calculateHostsState], lines 394-399: every element gets its state
    written in place. *)
Fixpoint calculateHostsState (hosts : list hostInfo.t) : outcome (list hostInfo.t) :=
  match hosts with
  | [] => Done []
  | host :: hosts' =>
      s ← deriveHostState host;
      rest ← calculateHostsState hosts';
      Done (hostInfo.with_scaleState host s :: rest)
  end.

(** The [less] function handed to [sort.Slice], lines 249-268. *)
Definition hostLess (a b : hostInfo.t) : bool :=
  if hostState_int (hostInfo.scaleState a) <? hostState_int (hostInfo.scaleState b) then true
  else if hostState_int (hostInfo.scaleState a) >? hostState_int (hostInfo.scaleState b) then false
  else if numNotHealthyDrives rt a >? numNotHealthyDrives rt b then true
  else if numNotHealthyDrives rt a <? numNotHealthyDrives rt b then false
  else time.Before (hostInfo.AddedTime a) (hostInfo.AddedTime b).

(** *** Snapshot assembly, lines 185-204 *)

Definition addHost (hosts : gmap weka.HostId hostInfo.t) (kv : weka.HostId * weka.Host.t)
    : gmap weka.HostId hostInfo.t :=
  <[kv.1 := hostInfo.mk kv.2 kv.1 ∅ ∅ DEACTIVATING]> hosts.

Definition attachDrive (hosts : gmap weka.HostId hostInfo.t) (kv : weka.DriveId * weka.Drive.t)
    : gmap weka.HostId hostInfo.t :=
  match hosts !! weka.Drive.HostId kv.2 with
  | Some host =>
      <[weka.Drive.HostId kv.2 :=
          hostInfo.with_drives host (<[kv.1 := kv.2]> (hostInfo.drives host))]> hosts
  | None => hosts
  end.

Definition attachNode (hosts : gmap weka.HostId hostInfo.t) (kv : weka.NodeId * weka.Node.t)
    : gmap weka.HostId hostInfo.t :=
  match hosts !! weka.Node.HostId kv.2 with
  | Some host =>
      <[weka.Node.HostId kv.2 :=
          hostInfo.with_nodes host (<[kv.1 := kv.2]> (hostInfo.nodes host))]> hosts
  | None => hosts
  end.

Definition buildHosts (hostsApiList : weka.HostListResponse)
    (driveApiList : weka.DriveListResponse) (nodeApiList : weka.NodeListResponse)
    : gmap weka.HostId hostInfo.t :=
  let hosts := foldl addHost ∅ (range rt hostsApiList) in
  let hosts := foldl attachDrive hosts (range rt driveApiList) in
  let hosts := foldl attachNode hosts (range rt nodeApiList) in
  hosts.

Section Tick.

Variable info : protocol.HostGroupInfoResponse.
Variable mp : ManagementPlane.

(** *** Membership, lines 210-245: the body of the loop over [hosts] *)
Definition assignHost (acc : hostLists) (host : hostInfo.t) : outcome hostLists :=
  let acc :=
    if String.eqb (hostInfo.State host) "INACTIVE" then
      if belongsToHgIpBased host (protocol.Instances info)
      then mkHostLists (hostsList acc) (inactiveHosts acc ++ [host]) (downHosts acc)
      else if String.eqb (protocol.Role info) "backend"
              && (backendCleanupDelay <? time.Since now (hostInfo.StateChangedTime host))
      then mkHostLists (hostsList acc) (inactiveHosts acc ++ [host]) (downHosts acc)
      else acc
    else
      if belongsToHg host (protocol.Instances info)
      then mkHostLists (hostsList acc ++ [host]) (inactiveHosts acc) (downHosts acc)
      else if String.eqb (hostInfo.Status host) "DOWN" then
        if belongsToHgIpBased host (protocol.Instances info)
        then mkHostLists (hostsList acc ++ [host]) (inactiveHosts acc) (downHosts acc)
        else acc
      else acc in
  if String.eqb (hostInfo.Status host) "DOWN" then
    if String.eqb (protocol.Role info) "backend" then
      if negb (String.eqb (hostInfo.State host) "INACTIVE") then
        timedOut ← managementTimedOut host downKickOutTimeout;
        if timedOut : bool
        then Done (mkHostLists (hostsList acc) (inactiveHosts acc) (downHosts acc ++ [host]))
        else Done acc
      else Done acc
    else Done acc
  else Done acc.

Definition assignHosts (hosts : gmap weka.HostId hostInfo.t) : outcome hostLists :=
  foldl_outcome assignHost (mkHostLists [] [] []) (range rt hosts).*2.

(** *** Lifecycle executor *)

(** [removeDrive], lines 442-450. *)
Definition removeDrive (drive : weka.Drive.t) (t : tick) : tick :=
  let '(t, err) := Pool_Call mp (weka.JrpcRemoveDrive [weka.Drive.Uuid drive]) t in
  match err with
  | Some err => AddTransientError err "removeDrive" t
  | None => t
  end.

(** [removeInactive], lines 410-432: the body of its loop. *)
Definition removeInactiveHost (t : tick) (host : hostInfo.t) : tick :=
  let t := Pool_Drop (hostInfo.HostIp host) t in
  let '(t, err) := Pool_Call mp (weka.JrpcRemoveHost (hostInfo.id host) true) t in
  match err with
  | Some err => AddTransientError err "removeInactive" t
  | None =>
      let t :=
        match selectInstanceByIp (hostInfo.HostIp host) (protocol.Instances info) with
        | Some instance =>
            mkTick (trace t)
              (protocol.mkScaleResponse (protocol.Hosts (response t))
                 (protocol.ToTerminate (response t) ++ [instance])
                 (protocol.TransientErrors (response t)))
        | None => t
        end in
      foldl (fun t kv => removeDrive kv.2 t) t (range rt (hostInfo.drives host))
  end.

Definition removeInactive (hosts : list hostInfo.t) (t : tick) : tick :=
  foldl removeInactiveHost t hosts.

(** [removeOldDrives], lines 434-440. *)
Definition removeOldDrives (drives : weka.DriveListResponse) (t : tick) : tick :=
  foldl (fun t kv =>
           if (weka.Drive.HostId kv.2 =? -1) && String.eqb (weka.Drive.Status kv.2) "INACTIVE"
           then removeDrive kv.2 t else t)
        t (range rt drives).

(** The closure [deactivateHost] of [Handler], lines 274-300: the body
    of its loop over the drives, then the closure. *)
Definition deactivateDrive (t : tick) (kv : weka.DriveId * weka.Drive.t) : tick :=
  if weka.Drive.ShouldBeActive kv.2 then
    let '(t, err) := Pool_Call mp (weka.JrpcDeactivateDrives [weka.Drive.Uuid kv.2]) t in
    match err with
    | Some err => AddTransientError err "deactivateDrive" t
    | None => t
    end
  else t.

Definition deactivateHost (t : tick) (host : hostInfo.t) : tick :=
  let t := foldl deactivateDrive t (range rt (hostInfo.drives host)) in
  if allDrivesInactive rt host then
    let t := Pool_Drop (hostInfo.HostIp host) t in
    let '(t, err) := Pool_Call mp (weka.JrpcDeactivateHosts [hostInfo.id host] false) t in
    match err with
    | Some err => AddTransientError err "deactivateHost" t
    | None => t
    end
  else t.

Definition toResponseHost (host : hostInfo.t) : protocol.ScaleResponseHost :=
  protocol.mkScaleResponseHost (hostInfo.InstanceId host) (hostInfo.State host)
    (hostInfo.AddedTime host) (hostInfo.id host).

Definition appendHosts (hosts : list hostInfo.t) (t : tick) : tick :=
  mkTick (trace t)
    (protocol.mkScaleResponse
       (protocol.Hosts (response t) ++ map toResponseHost hosts)
       (protocol.ToTerminate (response t))
       (protocol.TransientErrors (response t))).

(** *** [Handler], lines 129-319 *)

(** Lines 206-247: the three host lists, the in-scope one classified. *)
Definition classify (hosts : gmap weka.HostId hostInfo.t) : outcome hostLists :=
  lists ← assignHosts hosts;
  classified ← calculateHostsState (hostsList lists);
  Done (mkHostLists classified (inactiveHosts lists) (downHosts lists)).

(** Lines 206-318: everything after the snapshot is assembled. *)
Definition reconcile (driveApiList : weka.DriveListResponse)
    (hosts : gmap weka.HostId hostInfo.t) (t : tick) : list event * result :=
  match classify hosts with
  | Panic reason => (trace t, Panicked reason)
  | Done lists =>
      let hostsList := sort_Slice rt hostInfo.t hostLess (hostsList lists) in
      let t := removeInactive (inactiveHosts lists) t in
      let t := removeOldDrives driveApiList t in
      let numToDeactivate := getNumToDeactivate hostsList (protocol.DesiredCapacity info) in
      match slice_to rt hostInfo.zero hostsList numToDeactivate with
      | Panic reason => (trace t, Panicked reason)
      | Done selected =>
          let t := foldl deactivateHost t selected in
          let t := foldl deactivateHost t (downHosts lists) in
          let t := appendHosts hostsList t in
          (trace t, Returned (response t) None)
      end
  end.

(** A query: the call is recorded, the reply or the error handed on. *)
Definition query {A : Type} (method : weka.rpc) (r : reply A) (tr : list event)
    : list event * reply A :=
  (tr ++ [EvCall method (match r with Ack _ => None | Fail err => Some err end)], r).

Definition Handler : list event * result :=
  let '(tr, r) := query weka.JrpcStatus (status_reply mp) [] in
  match r with
  | Fail err => (tr, Returned protocol.zero (Some err))
  | Ack systemStatus =>
  match isAllowedToScale systemStatus with
  | Some err => (tr, Returned protocol.zero (Some err))
  | None =>
  let '(tr, r) := query weka.JrpcHostList (host_list_reply mp) tr in
  match r with
  | Fail err => (tr, Returned protocol.zero (Some err))
  | Ack hostsApiList =>
  let '(tr, r) :=
    if String.eqb (protocol.Role info) "backend"
    then query weka.JrpcDrivesList (drives_list_reply mp) tr
    else (tr, Ack ∅) in
  match r with
  | Fail err => (tr, Returned protocol.zero (Some err))
  | Ack driveApiList =>
  let '(tr, r) := query weka.JrpcNodeList (node_list_reply mp) tr in
  match r with
  | Fail err => (tr, Returned protocol.zero (Some err))
  | Ack nodeApiList =>
      reconcile driveApiList (buildHosts hostsApiList driveApiList nodeApiList)
        (mkTick tr protocol.zero)
  end end end end end.

End Tick.
End Scale.

(** ** Runtimes

    What every Go runtime guarantees about the three choices. *)
Definition strict_weak_order {A : Type} (less : A → A → bool) : Prop :=
  (∀ a, less a a = false) ∧
  (∀ a b c, less a b = true → less b c = true → less a c = true) ∧
  (∀ a b c, less a b = false → less b c = false → less a c = false).

(** [sort.SliceIsSorted]: no element is less than its predecessor. *)
Definition sorted_by {A : Type} (less : A → A → bool) (l : list A) : Prop :=
  Sorted (fun a b => less b a = false) l.

Record runtime_ok (rt : GoRuntime) : Prop := mkRuntimeOk {
  map_range_perm : ∀ (A : Type) (l : list A), map_range rt A l ≡ₚ l;
  sort_Slice_perm : ∀ (A : Type) (less : A → A → bool) (l : list A),
    sort_Slice rt A less l ≡ₚ l;
  sort_Slice_sorted : ∀ (A : Type) (less : A → A → bool) (l : list A),
    strict_weak_order less → sorted_by less (sort_Slice rt A less l);
  append_cap_ge : ∀ n : nat, (n ≤ append_cap rt n)%nat;
  append_cap_nil : append_cap rt 0 = 0%nat
}.

(** Insertion sort, which is what [sort.Slice] runs on slices shorter
    than twelve elements. *)
Fixpoint insert_sorted {A : Type} (less : A → A → bool) (x : A) (l : list A) : list A :=
  match l with
  | [] => [x]
  | y :: l' => if less y x then y :: insert_sorted less x l' else x :: y :: l'
  end.

Definition insertionSort {A : Type} (less : A → A → bool) (l : list A) : list A :=
  foldr (insert_sorted less) [] l.

(** Capacities double. *)
Definition doubling_cap (n : nat) : nat :=
  match n with
  | O => O
  | _ => Nat.pow 2 (Nat.log2_up n)
  end.

(** Two runtimes that differ only in the order in which they walk a map. *)
Definition forward_runtime : GoRuntime :=
  mkGoRuntime (fun A l => l) (@insertionSort) doubling_cap.

Definition backward_runtime : GoRuntime :=
  mkGoRuntime (fun A l => rev l) (@insertionSort) doubling_cap.

(** ** The spec's vocabulary

    The conditions of the classification rules, read off the snapshot
    rather than computed by the loops of scale.go. *)
Section Rules.

Variable IsManagement : weka.NodeId → bool.
Variable now : time.Time.

Definition every_drive_marked (host : hostInfo.t) : Prop :=
  hostInfo.drives host ≠ ∅ ∧
  ∀ k d, hostInfo.drives host !! k = Some d → weka.Drive.ShouldBeActive d = false.

Definition some_drive_marked (host : hostInfo.t) : Prop :=
  ∃ k d, hostInfo.drives host !! k = Some d ∧ weka.Drive.ShouldBeActive d = false.

Definition some_drive_kept (host : hostInfo.t) : Prop :=
  ∃ k d, hostInfo.drives host !! k = Some d ∧ weka.Drive.ShouldBeActive d = true.

Definition some_drive_unhealthy (host : hostInfo.t) : Prop :=
  ∃ k d, hostInfo.drives host !! k = Some d ∧ weka.Drive.Status d = "INACTIVE".

Definition state_is_leaving (host : hostInfo.t) : Prop :=
  hostInfo.State host = "DEACTIVATING" ∨ hostInfo.State host = "REMOVING" ∨
  hostInfo.State host = "INACTIVE".

Definition management_down_longer_than (host : hostInfo.t) (timeout : time.Duration) : Prop :=
  ∃ k n t, hostInfo.nodes host !! k = Some n ∧ IsManagement k = true ∧
    weka.Node.Status n = "DOWN" ∧ weka.Node.LastFencingTime n = Some t ∧
    timeout < now - t.

Definition rule_deactivating (host : hostInfo.t) : Prop :=
  every_drive_marked host ∨ state_is_leaving host.

Definition rule_unhealthy (host : hostInfo.t) : Prop :=
  (hostInfo.Status host = "DOWN" ∧ management_down_longer_than host (120 * time.Minute)) ∨
  some_drive_unhealthy host ∨
  (some_drive_marked host ∧ some_drive_kept host).

End Rules.

(** The data model's invariant on nodes: a node that is down carries the
    time of its last fencing. *)
Definition fencing_recorded (nodes : nodeMap) : Prop :=
  ∀ k n, nodes !! k = Some n → weka.Node.Status n = "DOWN" →
    is_Some (weka.Node.LastFencingTime n).

Definition fencing_recordedb (nodes : nodeMap) : bool :=
  forallb (fun kv => negb (String.eqb (weka.Node.Status kv.2) "DOWN")
                     || bool_decide (is_Some (weka.Node.LastFencingTime kv.2)))
          (map_to_list nodes).

(** [len] of a map is an [int]. *)
Definition host_ok (host : hostInfo.t) : Prop :=
  Z.of_nat (size (hostInfo.drives host)) <= GoInt.max_int ∧
  fencing_recorded (hostInfo.nodes host).

(** The gate of section 4.2 and the failures that precede the lifecycle
    phase. *)
Definition gate_rejects (status : weka.StatusResponse.t) : Prop :=
  weka.StatusResponse.IoStatus status ≠ "STARTED" ∨ weka.StatusResponse.Upgrade status ≠ "".

Definition snapshot_fails (info : protocol.HostGroupInfoResponse) (mp : ManagementPlane) : Prop :=
  (∃ err, status_reply mp = Fail err) ∨
  (∃ status, status_reply mp = Ack status ∧ gate_rejects status) ∨
  (∃ err, host_list_reply mp = Fail err) ∨
  (protocol.Role info = "backend" ∧ ∃ err, drives_list_reply mp = Fail err) ∨
  (∃ err, node_list_reply mp = Fail err).

(** A snapshot that was obtained: every query acknowledged, the gate
    open.  The drive listing is only fetched for backends. *)
Record snapshot_of (info : protocol.HostGroupInfoResponse) (mp : ManagementPlane)
    (hostsApiList : weka.HostListResponse) (driveApiList : weka.DriveListResponse)
    (nodeApiList : weka.NodeListResponse) : Prop := mkSnapshotOf {
  snapshot_status : ∃ status, status_reply mp = Ack status ∧ isAllowedToScale status = None;
  snapshot_hosts : host_list_reply mp = Ack hostsApiList;
  snapshot_drives :
    if String.eqb (protocol.Role info) "backend"
    then drives_list_reply mp = Ack driveApiList
    else driveApiList = ∅;
  snapshot_nodes : node_list_reply mp = Ack nodeApiList
}.

(** The four queries of a tick that got its snapshot. *)
Definition snapshot_queries (info : protocol.HostGroupInfoResponse) : list event :=
  [EvCall weka.JrpcStatus None; EvCall weka.JrpcHostList None] ++
  (if String.eqb (protocol.Role info) "backend" then [EvCall weka.JrpcDrivesList None] else []) ++
  [EvCall weka.JrpcNodeList None].

Definition only_queries (tr : list event) : Prop :=
  Forall (fun ev => ∃ method err, ev = EvCall method err ∧ is_mutating method = false) tr.

(** The name under which a failed mutating call is reported. *)
Definition failure_tag (method : weka.rpc) : string :=
  match method with
  | weka.JrpcDeactivateDrives _ => "deactivateDrive"
  | weka.JrpcDeactivateHosts _ _ => "deactivateHost"
  | weka.JrpcRemoveHost _ _ => "removeInactive"
  | weka.JrpcRemoveDrive _ => "removeDrive"
  | _ => ""
  end.

Definition reported_failure (ev : event) : list string :=
  match ev with
  | EvCall method (Some err) =>
      if is_mutating method then [failure_tag method +:+ ":" +:+ err] else []
  | _ => []
  end.

Definition reported_failures (tr : list event) : list string :=
  flat_map reported_failure tr.

Definition called (method : weka.rpc) (tr : list event) : Prop :=
  ∃ err, EvCall method err ∈ tr.

Definition orphan_drive (drive : weka.Drive.t) : Prop :=
  weka.Drive.HostId drive = -1 ∧ weka.Drive.Status drive = "INACTIVE".

(** How the lifecycle phase moves the tick on: it issues the events
    [issued], reports exactly their failures, appends [terminated] to the
    terminate candidates and leaves the host list alone. *)
Definition extends_by (issued : list event) (terminated : list protocol.HgInstance)
    (t t' : tick) : Prop :=
  trace t' = trace t ++ issued ∧
  protocol.TransientErrors (response t') =
    protocol.TransientErrors (response t) ++ reported_failures issued ∧
  protocol.Hosts (response t') = protocol.Hosts (response t) ∧
  protocol.ToTerminate (response t') = protocol.ToTerminate (response t) ++ terminated.

(** The terminate candidates a removed host contributes, on a plane whose
    reply to a call is [answer] of the call. *)
Definition terminated_by (answer : weka.rpc → option string)
    (info : protocol.HostGroupInfoResponse) (host : hostInfo.t) : list protocol.HgInstance :=
  match answer (weka.JrpcRemoveHost (hostInfo.id host) true) with
  | Some _ => []
  | None =>
      match selectInstanceByIp (hostInfo.HostIp host) (protocol.Instances info) with
      | Some instance => [instance]
      | None => []
      end
  end.

(** What [deactivateHost] owes a host: a deactivate-drives call for each
    drive that should still be active, and a deactivate-hosts call when
    all its drives are inactive. *)
Definition deactivation_issued (rt : GoRuntime) (host : hostInfo.t) (tr : list event) : Prop :=
  (∀ k drive,
     hostInfo.drives host !! k = Some drive → weka.Drive.ShouldBeActive drive = true →
     called (weka.JrpcDeactivateDrives [weka.Drive.Uuid drive]) tr) ∧
  (allDrivesInactive rt host = true →
   called (weka.JrpcDeactivateHosts [hostInfo.id host] false) tr).

(** Membership, section 4.3: the hosts the planner counts, and the
    inactive hosts queued for removal. *)
Definition in_scope (info : protocol.HostGroupInfoResponse) (host : hostInfo.t) : bool :=
  negb (String.eqb (hostInfo.State host) "INACTIVE") &&
  (belongsToHg host (protocol.Instances info)
   || (String.eqb (hostInfo.Status host) "DOWN"
       && belongsToHgIpBased host (protocol.Instances info))).

Definition cleanup_queued (now : time.Time) (info : protocol.HostGroupInfoResponse)
    (host : hostInfo.t) : bool :=
  String.eqb (hostInfo.State host) "INACTIVE" &&
  (belongsToHgIpBased host (protocol.Instances info)
   || (String.eqb (protocol.Role info) "backend"
       && (backendCleanupDelay <? time.Since now (hostInfo.StateChangedTime host)))).

(** What [removeInactive] does for a host, lines 411-429: a remove-host
    call in any case and, only when that call is acknowledged, a
    remove-drive call for each of its drives; after a failed remove-host
    the loop goes on to the next host ([continue], line 420), and the
    drives of the host are left for a later tick. *)
Definition removal_issued (host : hostInfo.t) (tr : list event) : Prop :=
  ∃ err, EvCall (weka.JrpcRemoveHost (hostInfo.id host) true) err ∈ tr ∧
    (err = None →
     ∀ k drive, hostInfo.drives host !! k = Some drive →
       called (weka.JrpcRemoveDrive [weka.Drive.Uuid drive]) tr).

(** The reading of section 4.5 without that exception: whatever the
    plane answers to the remove-host call, each drive of the host gets
    its remove-drive call. *)
Definition removal_regardless (host : hostInfo.t) (tr : list event) : Prop :=
  called (weka.JrpcRemoveHost (hostInfo.id host) true) tr ∧
  ∀ k drive, hostInfo.drives host !! k = Some drive →
    called (weka.JrpcRemoveDrive [weka.Drive.Uuid drive]) tr.

(** The second sort key as section 4.3 has it: the number of drives of
    the host that report the unhealthy status, INACTIVE. *)
Definition unhealthy_drives (host : hostInfo.t) : Z :=
  Z.of_nat (size (filter (fun kd : weka.DriveId * weka.Drive.t =>
                            weka.Drive.Status kd.2 = "INACTIVE") (hostInfo.drives host))).

(** What the lifecycle phase owes its targets, whatever the plane
    answers: the removal calls for every queued inactive host, a
    remove-drive call for every orphan drive, and the deactivation calls
    for every selected and every forced-down host. *)
Definition lifecycle_covers (rt : GoRuntime) (driveApiList : weka.DriveListResponse)
    (lists : hostLists) (selected : list hostInfo.t) (tr : list event) : Prop :=
  (∀ host, host ∈ inactiveHosts lists → removal_issued host tr) ∧
  (∀ k drive, driveApiList !! k = Some drive → orphan_drive drive →
     called (weka.JrpcRemoveDrive [weka.Drive.Uuid drive]) tr) ∧
  (∀ host, host ∈ selected ∨ host ∈ downHosts lists → deactivation_issued rt host tr).

(** ** Samples *)
Module Sample.

(** A cluster of five hosts, three of them in the host group's scope
    (hosts 2 and 5 joined together), two inactive and awaiting removal, and
    one orphan drive.  Host [n] owns nodes [100 n .. 100 n + 99]; slot 0 is
    the management node. *)
Definition IsManagement (n : weka.NodeId) : bool := n mod 100 =? 0.

Definition minute (n : Z) : time.Time := n * time.Minute.

Definition host (state status ip inst : string) (added : Z) : weka.Host.t :=
  weka.Host.mk state status ip inst (minute added) (minute added).

Definition instances : list protocol.HgInstance :=
  [protocol.mkHgInstance "i-1" "10.0.0.1"; protocol.mkHgInstance "i-2" "10.0.0.2";
   protocol.mkHgInstance "i-3" "10.0.0.3"; protocol.mkHgInstance "i-4" "10.0.0.4";
   protocol.mkHgInstance "i-5" "10.0.0.5"].

Definition info (desired : Z) : protocol.HostGroupInfoResponse :=
  protocol.mkHostGroupInfoResponse "admin" "secret" desired instances
    ["10.0.0.1"; "10.0.0.2"; "10.0.0.3"; "10.0.0.4"; "10.0.0.5"] "backend".

Definition hosts : weka.HostListResponse :=
  list_to_map
    [(1, host "ACTIVE" "UP" "10.0.0.1" "i-1" 10);
     (2, host "ACTIVE" "UP" "10.0.0.2" "i-2" 20);
     (3, host "INACTIVE" "DOWN" "10.0.0.3" "" 30);
     (4, host "INACTIVE" "DOWN" "10.0.0.4" "" 40);
     (5, host "ACTIVE" "UP" "10.0.0.5" "i-5" 20)].

Definition drives : weka.DriveListResponse :=
  list_to_map
    [(11, weka.Drive.mk 1 "ACTIVE" true "uuid-11");
     (12, weka.Drive.mk 1 "INACTIVE" false "uuid-12");
     (21, weka.Drive.mk 2 "ACTIVE" true "uuid-21");
     (31, weka.Drive.mk 3 "INACTIVE" false "uuid-31");
     (90, weka.Drive.mk (-1) "INACTIVE" false "uuid-90");
     (91, weka.Drive.mk (-1) "ACTIVE" true "uuid-91")].

Definition nodes : weka.NodeListResponse :=
  list_to_map
    [(100, weka.Node.mk 1 "UP" None);
     (200, weka.Node.mk 2 "UP" None);
     (300, weka.Node.mk 3 "DOWN" (Some (minute 50)));
     (400, weka.Node.mk 4 "DOWN" (Some (minute 60)));
     (500, weka.Node.mk 5 "UP" None)].

Definition started : weka.StatusResponse.t := weka.StatusResponse.mk "STARTED" "".

(** A plane on which every mutating call succeeds, and one on which
    every mutating call fails. *)
Definition plane (st : weka.StatusResponse.t) (fail : bool) : ManagementPlane :=
  mkManagementPlane (Ack st) (Ack hosts) (Ack drives) (Ack nodes)
    (fun _ _ => if fail then Some "timeout" else None).

(** A plane that refuses to remove host 3 and acknowledges every other
    mutating call. *)
Definition refusing_plane : ManagementPlane :=
  mkManagementPlane (Ack started) (Ack hosts) (Ack drives) (Ack nodes)
    (fun _ method =>
       match method with
       | weka.JrpcRemoveHost 3 _ => Some "refused"
       | _ => None
       end).

Definition clock : time.Time := minute 1000.

(** The same cluster behind a plane that is not serving IO and behind one
    whose host listing fails; a cluster whose only host is down with a
    management node that was never fenced; a cluster that has lost all
    its hosts. *)
Definition stopped : weka.StatusResponse.t := weka.StatusResponse.mk "STOPPED" "".

Definition unreachable_plane : ManagementPlane :=
  mkManagementPlane (Ack started) (Fail "no endpoint left") (Ack drives) (Ack nodes)
    (fun _ _ => None).

Definition unfenced_plane : ManagementPlane :=
  mkManagementPlane (Ack started)
    (Ack {[ 1 := host "ACTIVE" "DOWN" "10.0.0.1" "i-1" 10 ]}) (Ack ∅)
    (Ack {[ 100 := weka.Node.mk 1 "DOWN" None ]}) (fun _ _ => None).

Definition hostless_plane : ManagementPlane :=
  mkManagementPlane (Ack started) (Ack ∅) (Ack drives) (Ack nodes) (fun _ _ => None).

(** Three hosts as the classifier sees them: one that is being removed,
    one with an inactive drive, one without drives. *)
Definition leaving : hostInfo.t :=
  hostInfo.mk (host "REMOVING" "UP" "10.0.0.6" "i-6" 5) 6 ∅ ∅ DEACTIVATING.

Definition degraded : hostInfo.t :=
  hostInfo.mk (host "ACTIVE" "UP" "10.0.0.7" "i-7" 5) 7
    {[ 71 := weka.Drive.mk 7 "INACTIVE" true "uuid-71" ]} ∅ DEACTIVATING.

Definition idle : hostInfo.t :=
  hostInfo.mk (host "ACTIVE" "UP" "10.0.0.8" "i-8" 5) 8 ∅ ∅ DEACTIVATING.

(** Two hosts added together and in the same state, the second with one
    more drive, and that drive INACTIVE. *)
Definition sound : hostInfo.t :=
  hostInfo.mk (host "ACTIVE" "UP" "10.0.0.7" "i-7" 5) 7
    {[ 71 := weka.Drive.mk 7 "ACTIVE" true "uuid-71" ]} ∅ UNHEALTHY.

Definition worn : hostInfo.t :=
  hostInfo.mk (host "ACTIVE" "UP" "10.0.0.7" "i-7" 5) 7
    {[ 71 := weka.Drive.mk 7 "ACTIVE" true "uuid-71";
       72 := weka.Drive.mk 7 "INACTIVE" true "uuid-72" ]} ∅ UNHEALTHY.

End Sample.


(** ** More vocabulary: membership in the host group *)

Definition group_has_instance (info : protocol.HostGroupInfoResponse) (host : hostInfo.t) : Prop :=
  ∃ instance, instance ∈ protocol.Instances info ∧
    protocol.Id instance = hostInfo.InstanceId host.

Definition group_has_ip (info : protocol.HostGroupInfoResponse) (host : hostInfo.t) : Prop :=
  ∃ instance, instance ∈ protocol.Instances info ∧
    protocol.PrivateIp instance = hostInfo.HostIp host.

(** ** More vocabulary: the snapshot as a join *)

Definition owned_drives (k : weka.HostId) (driveApiList : weka.DriveListResponse) : driveMap :=
  filter (fun kd : weka.DriveId * weka.Drive.t => weka.Drive.HostId kd.2 = k) driveApiList.

Definition owned_nodes (k : weka.HostId) (nodeApiList : weka.NodeListResponse) : nodeMap :=
  filter (fun kn : weka.NodeId * weka.Node.t => weka.Node.HostId kn.2 = k) nodeApiList.

(** The host record of host [k] of the listings. *)
Definition joined (k : weka.HostId) (host : weka.Host.t)
    (driveApiList : weka.DriveListResponse) (nodeApiList : weka.NodeListResponse) : hostInfo.t :=
  hostInfo.mk host k (owned_drives k driveApiList) (owned_nodes k nodeApiList) DEACTIVATING.

(** ** More vocabulary: membership and what the lifecycle phase may do *)

(** The hosts queued for forced deactivation, lines 236-244 of
    [Handler]. *)
Definition forced_down (IsManagement : weka.NodeId → bool) (rt : GoRuntime) (now : time.Time)
    (info : protocol.HostGroupInfoResponse) (host : hostInfo.t) : bool :=
  String.eqb (hostInfo.Status host) "DOWN" &&
  String.eqb (protocol.Role info) "backend" &&
  negb (String.eqb (hostInfo.State host) "INACTIVE") &&
  match managementTimedOut IsManagement rt now host downKickOutTimeout with
  | Done true => true
  | _ => false
  end.

Section Owed.

Variable IsManagement : weka.NodeId → bool.
Variable rt : GoRuntime.
Variable now : time.Time.
Variable info : protocol.HostGroupInfoResponse.
Variable hosts : gmap weka.HostId hostInfo.t.
Variable driveApiList : weka.DriveListResponse.

(** A host the tick may deactivate: one in the scope of the host group,
    or one forced out. *)
Definition deactivation_target (host : hostInfo.t) : Prop :=
  in_scope info host = true ∨ forced_down IsManagement rt now info host = true.

(** What entitles the tick to an event, given the events [tr] of the
    whole tick: the drive listing is fetched for backends only; a host is
    removed, without waiting, when it is queued for cleanup; a drive is
    removed when it is an inactive orphan, or belongs to a queued host
    whose removal was acknowledged; a drive is deactivated when it should
    still be active and belongs to a deactivation target; a host is
    deactivated, with resource validation, when it is a deactivation
    target all of whose drives are inactive; an endpoint is dropped when
    it is that of a host being removed or deactivated. *)
Definition owed (tr : list event) (ev : event) : Prop :=
  match ev with
  | EvDrop ip =>
      ∃ k host, hosts !! k = Some host ∧ hostInfo.HostIp host = ip ∧
        (cleanup_queued now info host = true ∨
         (allDrivesInactive rt host = true ∧ deactivation_target host))
  | EvCall weka.JrpcDrivesList _ => protocol.Role info = "backend"
  | EvCall (weka.JrpcRemoveHost k no_wait) _ =>
      no_wait = true ∧
      ∃ host, hosts !! k = Some host ∧ cleanup_queued now info host = true
  | EvCall (weka.JrpcRemoveDrive uuids) _ =>
      ∃ dk drive, driveApiList !! dk = Some drive ∧ uuids = [weka.Drive.Uuid drive] ∧
        (orphan_drive drive ∨
         ∃ host, hosts !! weka.Drive.HostId drive = Some host ∧
           cleanup_queued now info host = true ∧
           EvCall (weka.JrpcRemoveHost (weka.Drive.HostId drive) true) None ∈ tr)
  | EvCall (weka.JrpcDeactivateDrives uuids) _ =>
      ∃ dk drive host, driveApiList !! dk = Some drive ∧ uuids = [weka.Drive.Uuid drive] ∧
        weka.Drive.ShouldBeActive drive = true ∧
        hosts !! weka.Drive.HostId drive = Some host ∧ deactivation_target host
  | EvCall (weka.JrpcDeactivateHosts ids skip) _ =>
      skip = false ∧
      ∃ k host, ids = [k] ∧ hosts !! k = Some host ∧
        allDrivesInactive rt host = true ∧ deactivation_target host
  | EvCall _ _ => True
  end.

(** What makes an instance a terminate candidate: it is an instance of
    the group, and its address is that of an inactive host of the
    snapshot whose removal the plane acknowledged in this tick. *)
Definition candidate (tr : list event) (instance : protocol.HgInstance) : Prop :=
  instance ∈ protocol.Instances info ∧
  ∃ k host, hosts !! k = Some host ∧ hostInfo.State host = "INACTIVE" ∧
    hostInfo.HostIp host = protocol.PrivateIp instance ∧
    EvCall (weka.JrpcRemoveHost k true) None ∈ tr.

(** The calls that name a host, and the endpoint of the host they
    name. *)
Definition host_call (method : weka.rpc) : bool :=
  match method with
  | weka.JrpcRemoveHost _ _ | weka.JrpcDeactivateHosts _ _ => true
  | _ => false
  end.

Definition endpoint_of (method : weka.rpc) (ip : string) : Prop :=
  match method with
  | weka.JrpcRemoveHost k _ => ∃ host, hosts !! k = Some host ∧ hostInfo.HostIp host = ip
  | weka.JrpcDeactivateHosts ids _ =>
      ∃ k host, ids = [k] ∧ hosts !! k = Some host ∧ hostInfo.HostIp host = ip
  | _ => False
  end.

(** Every call that names a host comes right after the drop of that
    host's endpoint. *)
Definition dropped_first (tr : list event) : Prop :=
  ∀ i method err, tr !! i = Some (EvCall method err) → host_call method = true →
    ∃ j ip, i = S j ∧ tr !! j = Some (EvDrop ip) ∧ endpoint_of method ip.

(** The invariant of the lifecycle phase. *)
Definition tick_ok (t : tick) : Prop :=
  (∀ ev, ev ∈ trace t → owed (trace t) ev) ∧
  (∀ instance, instance ∈ protocol.ToTerminate (response t) → candidate (trace t) instance) ∧
  dropped_first (trace t).

(** The snapshot's hosts carry their key as id and drives of the listing
    that name them as owner. *)
Definition snapshot_wf : Prop :=
  ∀ k host, hosts !! k = Some host →
    hostInfo.id host = k ∧
    ∀ dk drive, hostInfo.drives host !! dk = Some drive →
      driveApiList !! dk = Some drive ∧ weka.Drive.HostId drive = k.

(** A host record of the lifecycle phase: a host of the snapshot, with
    some scale state written into it. *)
Definition classified_from (x : hostInfo.t) (host : hostInfo.t) : Prop :=
  ∃ s, x = hostInfo.with_scaleState host s.

End Owed.

(** The events of the lifecycle phase: drops and mutating calls. *)
Definition lifecycle_event (ev : event) : bool :=
  match ev with
  | EvCall method _ => is_mutating method
  | EvDrop _ => true
  end.

(** A step of the lifecycle phase adds lifecycle events to the trace
    and nothing else. *)
Definition appends_lifecycle (tr tr' : list event) : Prop :=
  ∃ δ, tr' = tr ++ δ ∧ forallb lifecycle_event δ = true.

(** ** More vocabulary: counting and selecting *)

Definition has_state (s : hostState) (host : hostInfo.t) : bool :=
  hostState_int (hostInfo.scaleState host) =? hostState_int s.

(** The number of hosts of a list in a given scale state. *)
Definition count_state (s : hostState) (hosts : list hostInfo.t) : Z :=
  Z.of_nat (length (List.filter (has_state s) hosts)).

(** ** More samples *)
Module Outage.


Definition hosts : weka.HostListResponse :=
  <[ 9 := Sample.host "ACTIVE" "DOWN" "10.0.0.9" "" 5 ]> Sample.hosts.

Definition drives : weka.DriveListResponse :=
  <[ 92 := weka.Drive.mk 9 "ACTIVE" true "uuid-92" ]> Sample.drives.

Definition nodes : weka.NodeListResponse :=
  <[ 900 := weka.Node.mk 9 "DOWN" (Some (Sample.minute 100)) ]> Sample.nodes.

Definition plane : ManagementPlane :=
  mkManagementPlane (Ack Sample.started) (Ack hosts) (Ack drives) (Ack nodes)
    (fun _ _ => None).



(** The ticks on these planes. *)
Definition run : list event * result :=
  Handler Sample.IsManagement forward_runtime Sample.clock (Sample.info 3) plane.


(** Two classified hosts. *)
Definition healthy : hostInfo.t := hostInfo.with_scaleState Sample.idle HEALTHY.
Definition unhealthy : hostInfo.t := hostInfo.with_scaleState Sample.degraded UNHEALTHY.

End Outage.

(** * Properties *)

(** ** Machine integers *)

Lemma max_int_val : GoInt.max_int = 9223372036854775807.
Proof. reflexivity. Qed.

Lemma min_int_val : GoInt.min_int = -9223372036854775808.
Proof. reflexivity. Qed.

Lemma wrap_unfold x :
  GoInt.wrap x = (x + 9223372036854775808) mod 18446744073709551616 - 9223372036854775808.
Proof. reflexivity. Qed.

Lemma wrap_in_range x : GoInt.in_range (GoInt.wrap x).
Proof.
  unfold GoInt.in_range. rewrite wrap_unfold, max_int_val, min_int_val.
  pose proof (Z.mod_pos_bound (x + 9223372036854775808) 18446744073709551616).
  lia.
Qed.

Lemma wrap_small x : GoInt.in_range x → GoInt.wrap x = x.
Proof.
  unfold GoInt.in_range. rewrite wrap_unfold, max_int_val, min_int_val. intros Hx.
  rewrite Z.mod_small; lia.
Qed.

Lemma wrap_add_l a b : GoInt.wrap (GoInt.wrap a + b) = GoInt.wrap (a + b).
Proof.
  rewrite !wrap_unfold. f_equal.
  replace ((a + 9223372036854775808) mod 18446744073709551616 - 9223372036854775808
           + b + 9223372036854775808)
    with ((a + 9223372036854775808) mod 18446744073709551616 + b) by lia.
  rewrite Zplus_mod_idemp_l. f_equal. lia.
Qed.

Lemma wrap_sub_l a b : GoInt.wrap (GoInt.wrap a - b) = GoInt.wrap (a - b).
Proof. replace (a - b) with (a + - b) by lia. rewrite <- wrap_add_l. f_equal. Qed.

(** Overflow can only make a sum smaller, underflow only larger. *)
Lemma wrap_le_above x : GoInt.min_int <= x → GoInt.wrap x <= x.
Proof.
  intros Hx. destruct (Z_le_gt_dec x GoInt.max_int) as [Hle | Hgt].
  - rewrite wrap_small; [lia | split; lia].
  - pose proof (wrap_in_range x) as [_ Hw]. lia.
Qed.

Lemma incr_small n : 0 <= n < GoInt.max_int → GoInt.incr n = n + 1.
Proof.
  intros Hn. unfold GoInt.incr, GoInt.add. apply wrap_small.
  unfold GoInt.in_range. rewrite min_int_val. lia.
Qed.

(** ** Deactivation planner *)

(** The sum of the three counts is taken modulo 2^64 once. *)
Lemma calculateDeactivateTarget_wrap H U D T :
  calculateDeactivateTarget H U D T =
  Z.max D (Z.max (GoInt.wrap (H + U + D - T)) (Z.min (GoInt.wrap (2 - D)) U)).
Proof.
  unfold calculateDeactivateTarget, math.Max, math.Min, GoInt.sub, GoInt.add.
  now rewrite wrap_add_l, wrap_sub_l.
Qed.

Lemma calculateDeactivateTarget_exact H U D T :
  GoInt.in_range (H + U + D - T) → GoInt.in_range (2 - D) →
  calculateDeactivateTarget H U D T = Z.max D (Z.max (H + U + D - T) (Z.min (2 - D) U)).
Proof.
  intros H1 H2. rewrite calculateDeactivateTarget_wrap.
  now rewrite (wrap_small _ H1), (wrap_small _ H2).
Qed.

Lemma getNumToDeactivate_counts hosts desired :
  getNumToDeactivate hosts desired =
  let '(h, u, d) := countStates hosts (0, 0, 0) in calculateDeactivateTarget h u d desired.
Proof. reflexivity. Qed.

Lemma countStates_cons host hosts h u d :
  countStates (host :: hosts) (h, u, d) =
  countStates hosts
    match hostInfo.scaleState host with
    | HEALTHY => (GoInt.incr h, u, d)
    | UNHEALTHY => (h, GoInt.incr u, d)
    | DEACTIVATING => (h, u, GoInt.incr d)
    end.
Proof. reflexivity. Qed.

Lemma countStates_total hosts : ∀ h u d,
  0 <= h → 0 <= u → 0 <= d →
  h + u + d + Z.of_nat (length hosts) <= GoInt.max_int →
  ∃ h' u' d', countStates hosts (h, u, d) = (h', u', d') ∧
    0 <= h' ∧ 0 <= u' ∧ 0 <= d' ∧ h' + u' + d' = h + u + d + Z.of_nat (length hosts).
Proof.
  induction hosts as [| host hosts IH]; intros h u d Hh Hu Hd Hsum.
  - exists h, u, d. simpl. repeat split; lia.
  - cbn [length] in *. rewrite countStates_cons.
    destruct (hostInfo.scaleState host).
    + rewrite (incr_small d) by lia.
      destruct (IH h u (d + 1)) as (h' & u' & d' & E & ? & ? & ? & ?); try lia.
      exists h', u', d'. rewrite E. repeat split; lia.
    + rewrite (incr_small u) by lia.
      destruct (IH h (u + 1) d) as (h' & u' & d' & E & ? & ? & ? & ?); try lia.
      exists h', u', d'. rewrite E. repeat split; lia.
    + rewrite (incr_small h) by lia.
      destruct (IH (h + 1) u d) as (h' & u' & d' & E & ? & ? & ? & ?); try lia.
      exists h', u', d'. rewrite E. repeat split; lia.
Qed.

Lemma calculateDeactivateTarget_upper H U D T :
  0 <= H → 0 <= U → 0 <= D → 0 <= T → GoInt.in_range T →
  calculateDeactivateTarget H U D T <= H + U + D.
Proof.
  intros HH HU HD HT [_ HTmax]. rewrite calculateDeactivateTarget_wrap.
  assert (GoInt.wrap (H + U + D - T) <= H + U + D - T).
  { apply wrap_le_above. rewrite min_int_val. rewrite max_int_val in HTmax. lia. }
  lia.
Qed.

Lemma calculateDeactivateTarget_lower H U D T : D <= calculateDeactivateTarget H U D T.
Proof. rewrite calculateDeactivateTarget_wrap. lia. Qed.

(** C1 (as amended).  Whenever [H + U + D - T] and [2 - D] are
    representable as an [int] -- in particular for the counts of a host
    list against a non-negative desired capacity --
    [calculateDeactivateTarget H U D T] is
    [max(D, max(H + U + D - T, min(2 - D, U)))]; it returns 1 on
    (5, 1, 0, 5) and 3 on (3, 3, 1, 4). *)
Theorem calculateDeactivateTarget_formula :
  (∀ H U D T,
     GoInt.in_range (H + U + D - T) → GoInt.in_range (2 - D) →
     calculateDeactivateTarget H U D T =
     Z.max D (Z.max (H + U + D - T) (Z.min (2 - D) U))) ∧
  (∀ H U D T,
     0 <= H → 0 <= U → 0 <= D → H + U + D <= GoInt.max_int →
     0 <= T <= GoInt.max_int →
     calculateDeactivateTarget H U D T =
     Z.max D (Z.max (H + U + D - T) (Z.min (2 - D) U))) ∧
  calculateDeactivateTarget 5 1 0 5 = 1 ∧
  calculateDeactivateTarget 3 3 1 4 = 3.
Proof.
  split; [| split; [| split; reflexivity]].
  - apply calculateDeactivateTarget_exact.
  - intros H U D T HH HU HD Hsum HT. rewrite max_int_val in *.
    apply calculateDeactivateTarget_exact;
      unfold GoInt.in_range; rewrite max_int_val, min_int_val; lia.
Qed.

Lemma calculateDeactivateTarget_formula_witness :
  calculateDeactivateTarget 2 1 1 3 = Z.max 1 (Z.max (2 + 1 + 1 - 3) (Z.min (2 - 1) 1)) ∧
  calculateDeactivateTarget 0 4 0 9 = Z.max 0 (Z.max (0 + 4 + 0 - 9) (Z.min (2 - 0) 4)).
Proof.
  split.
  - apply (proj1 calculateDeactivateTarget_formula);
      split; vm_compute; discriminate.
  - apply (proj1 (proj2 calculateDeactivateTarget_formula));
      try split; vm_compute; discriminate.
Defined.

(** C1, as stated, fails where the sum overflows: with no host at all and
    the smallest desired capacity an [int] can hold, the code returns 0
    and the formula is 2^63. *)
Lemma calculateDeactivateTarget_formula_overflow :
  GoInt.in_range GoInt.min_int ∧
  calculateDeactivateTarget 0 0 0 GoInt.min_int = 0 ∧
  calculateDeactivateTarget 0 0 0 GoInt.min_int ≠
  Z.max 0 (Z.max (0 + 0 + 0 - GoInt.min_int) (Z.min (2 - 0) 0)).
Proof.
  split; [split; vm_compute; discriminate |].
  split; [reflexivity | vm_compute; discriminate].
Qed.

(** C4 (as amended).  [calculateDeactivateTarget H U D T] is at least [D]
    for all arguments, and it does not decrease when [U] grows as long as
    [H + U + D - T] stays representable as an [int] for both values of
    [U] -- in particular for the counts of a host list against a
    non-negative desired capacity. *)
Theorem calculateDeactivateTarget_monotone :
  (∀ H U D T, D <= calculateDeactivateTarget H U D T) ∧
  (∀ H U U' D T,
     GoInt.in_range (H + U + D - T) → GoInt.in_range (H + U' + D - T) →
     U <= U' →
     calculateDeactivateTarget H U D T <= calculateDeactivateTarget H U' D T) ∧
  (∀ H U U' D T,
     0 <= H → 0 <= U → 0 <= D → H + U' + D <= GoInt.max_int →
     0 <= T <= GoInt.max_int → U <= U' →
     calculateDeactivateTarget H U D T <= calculateDeactivateTarget H U' D T).
Proof.
  assert (Hmono : ∀ H U U' D T,
     GoInt.in_range (H + U + D - T) → GoInt.in_range (H + U' + D - T) →
     U <= U' →
     calculateDeactivateTarget H U D T <= calculateDeactivateTarget H U' D T).
  { intros H U U' D T H1 H2 HU. rewrite !calculateDeactivateTarget_wrap.
    rewrite (wrap_small _ H1), (wrap_small _ H2). lia. }
  split; [apply calculateDeactivateTarget_lower | split; [exact Hmono |]].
  intros H U U' D T HH HU HD Hsum HT HUU'. rewrite max_int_val in *.
  apply Hmono; trivial;
    unfold GoInt.in_range; rewrite max_int_val, min_int_val; lia.
Qed.

Lemma calculateDeactivateTarget_monotone_witness :
  calculateDeactivateTarget 3 1 1 4 <= calculateDeactivateTarget 3 3 1 4 ∧
  calculateDeactivateTarget 5 0 0 5 <= calculateDeactivateTarget 5 1 0 5.
Proof.
  split.
  - apply (proj1 (proj2 calculateDeactivateTarget_monotone));
      try split; vm_compute; discriminate.
  - apply (proj2 (proj2 calculateDeactivateTarget_monotone));
      try split; vm_compute; discriminate.
Defined.

(** C4, as stated, fails where the sum overflows: against the desired
    capacity [- max_int], one more unhealthy host takes the target from
    [max_int] down to 1. *)
Lemma calculateDeactivateTarget_not_monotone :
  GoInt.in_range (- GoInt.max_int) ∧ 0 <= 1 ∧
  calculateDeactivateTarget 0 0 0 (- GoInt.max_int) = GoInt.max_int ∧
  calculateDeactivateTarget 0 1 0 (- GoInt.max_int) = 1 ∧
  ¬ (calculateDeactivateTarget 0 0 0 (- GoInt.max_int)
     <= calculateDeactivateTarget 0 1 0 (- GoInt.max_int)).
Proof.
  split; [split; vm_compute; discriminate |].
  split; [lia |]. split; [reflexivity |]. split; [reflexivity |].
  vm_compute. intros H. apply H. reflexivity.
Qed.

Lemma getNumToDeactivate_in_bounds hostsList T :
  Z.of_nat (length hostsList) <= GoInt.max_int → 0 <= T → GoInt.in_range T →
  0 <= getNumToDeactivate hostsList T <= Z.of_nat (length hostsList).
Proof.
  intros Hlen HT HTr. rewrite getNumToDeactivate_counts.
  destruct (countStates_total hostsList 0 0 0) as (h & u & d & E & Hh & Hu & Hd & Hs);
    try lia.
  rewrite E. pose proof (calculateDeactivateTarget_upper h u d T Hh Hu Hd HT HTr).
  pose proof (calculateDeactivateTarget_lower h u d T). lia.
Qed.

Lemma slice_to_selection (rt : GoRuntime) (hostsList : list hostInfo.t) T :
  Z.of_nat (length hostsList) <= GoInt.max_int → 0 <= T → GoInt.in_range T →
  slice_to rt hostInfo.zero hostsList (getNumToDeactivate hostsList T) =
  Done (firstn (Z.to_nat (getNumToDeactivate hostsList T)) hostsList).
Proof.
  intros Hlen HT HTr.
  pose proof (getNumToDeactivate_in_bounds hostsList T Hlen HT HTr) as Hb.
  unfold slice_to.
  destruct (Z.ltb_spec (getNumToDeactivate hostsList T) 0); [lia |].
  destruct (Z.leb_spec (getNumToDeactivate hostsList T) (Z.of_nat (length hostsList)));
    [reflexivity | lia].
Qed.

(** C10.  For non-negative counts and a non-negative desired capacity the
    target is at most [H + U + D]; the counts [getNumToDeactivate] takes
    of a host list add up to its length, hence its result stays within the
    list and [hostsList[:numToDeactivate]] is the prefix of that length.
    A negative desired capacity breaks the bound: (1, 0, 0, -1) gives 2,
    and so does every negative [T] whose sum [H + U + D - T] fits an
    [int]. *)
Theorem numToDeactivate_within_bounds :
  (∀ H U D T,
     0 <= H → 0 <= U → 0 <= D → 0 <= T → GoInt.in_range T →
     calculateDeactivateTarget H U D T <= H + U + D) ∧
  (∀ (rt : GoRuntime) (hostsList : list hostInfo.t) T,
     Z.of_nat (length hostsList) <= GoInt.max_int → 0 <= T → GoInt.in_range T →
     (∃ H U D,
        countStates hostsList (0, 0, 0) = (H, U, D) ∧
        0 <= H ∧ 0 <= U ∧ 0 <= D ∧ H + U + D = Z.of_nat (length hostsList) ∧
        getNumToDeactivate hostsList T = calculateDeactivateTarget H U D T) ∧
     0 <= getNumToDeactivate hostsList T <= Z.of_nat (length hostsList) ∧
     slice_to rt hostInfo.zero hostsList (getNumToDeactivate hostsList T) =
     Done (firstn (Z.to_nat (getNumToDeactivate hostsList T)) hostsList)) ∧
  calculateDeactivateTarget 1 0 0 (-1) = 2 ∧
  (∀ H U D T,
     T < 0 → GoInt.in_range (H + U + D - T) →
     H + U + D < calculateDeactivateTarget H U D T).
Proof.
  split; [apply calculateDeactivateTarget_upper | split; [| split; [reflexivity |]]].
  - intros rt hostsList T Hlen HT HTr. split; [| split].
    + destruct (countStates_total hostsList 0 0 0) as (h & u & d & E & Hh & Hu & Hd & Hs);
        try lia.
      exists h, u, d. rewrite getNumToDeactivate_counts, E. repeat split; trivial.
    + now apply getNumToDeactivate_in_bounds.
    + now apply slice_to_selection.
  - intros H U D T HT Hr. rewrite calculateDeactivateTarget_wrap, (wrap_small _ Hr). lia.
Qed.

Lemma numToDeactivate_within_bounds_witness :
  calculateDeactivateTarget 3 3 1 4 <= 3 + 3 + 1 ∧
  (0 <= getNumToDeactivate [Sample.idle; Sample.idle] 1 <= Z.of_nat 2 ∧
   slice_to forward_runtime hostInfo.zero [Sample.idle; Sample.idle]
     (getNumToDeactivate [Sample.idle; Sample.idle] 1) =
   Done (firstn (Z.to_nat (getNumToDeactivate [Sample.idle; Sample.idle] 1))
           [Sample.idle; Sample.idle])) ∧
  2 + 0 + 0 < calculateDeactivateTarget 2 0 0 (-3).
Proof.
  split; [| split].
  - apply (proj1 numToDeactivate_within_bounds);
      try split; vm_compute; discriminate.
  - apply (proj1 (proj2 numToDeactivate_within_bounds));
      try split; vm_compute; discriminate.
  - apply (proj2 (proj2 (proj2 numToDeactivate_within_bounds)));
      try split; vm_compute; try discriminate; reflexivity.
Defined.

(** ** Walking a map *)

Section Range.

Context `{Countable K} {V : Type}.
Variable rt : GoRuntime.
Hypothesis Hrt : runtime_ok rt.

Lemma range_perm (m : gmap K V) : range rt m ≡ₚ map_to_list m.
Proof. apply (map_range_perm rt Hrt). Qed.

Lemma elem_of_range (m : gmap K V) k v : (k, v) ∈ range rt m ↔ m !! k = Some v.
Proof. rewrite range_perm. apply elem_of_map_to_list. Qed.

Lemma range_empty : range rt (∅ : gmap K V) = [].
Proof.
  apply Permutation_nil_r. rewrite range_perm. now rewrite map_to_list_empty.
Qed.

Lemma range_nil_inv (m : gmap K V) : range rt m = [] → m = ∅.
Proof.
  intros E. apply map_to_list_empty_iff. apply Permutation_nil_r.
  now rewrite <- range_perm, E.
Qed.

Lemma range_length (m : gmap K V) : length (range rt m) = size m.
Proof. rewrite range_perm. apply length_map_to_list. Qed.

Lemma range_NoDup_keys (m : gmap K V) : NoDup (range rt m).*1.
Proof. rewrite range_perm. apply NoDup_fst_map_to_list. Qed.

Lemma existsb_range (p : K * V → bool) (m : gmap K V) :
  existsb p (range rt m) = true ↔ ∃ k v, m !! k = Some v ∧ p (k, v) = true.
Proof.
  rewrite existsb_exists. split.
  - intros ([k v] & Hin & Hp). exists k, v. split; [| exact Hp].
    now apply elem_of_range, list_elem_of_In.
  - intros (k & v & Hm & Hp). exists (k, v). split; [| exact Hp].
    now apply list_elem_of_In, elem_of_range.
Qed.

Lemma forallb_range (p : K * V → bool) (m : gmap K V) :
  forallb p (range rt m) = true ↔ ∀ k v, m !! k = Some v → p (k, v) = true.
Proof.
  rewrite forallb_forall. split.
  - intros Hall k v Hm. apply Hall. now apply list_elem_of_In, elem_of_range.
  - intros Hall [k v] Hin. apply Hall. now apply elem_of_range, list_elem_of_In.
Qed.

End Range.

(** ** Host classifier *)

Lemma AnyOf_In s options : strings.AnyOf s options = true ↔ In s options.
Proof.
  unfold strings.AnyOf. rewrite existsb_exists. split.
  - intros (x & Hin & Heq). apply String.eqb_eq in Heq. now subst.
  - intros Hin. exists s. split; [exact Hin | apply String.eqb_refl].
Qed.

Lemma allDisksBeingRemoved_loop_spec l : ∀ ret,
  allDisksBeingRemoved_loop ret l =
  match l with
  | [] => ret
  | _ => forallb (fun kv => negb (weka.Drive.ShouldBeActive kv.2)) l
  end.
Proof.
  induction l as [| kv l IH]; intros ret; [reflexivity |].
  cbn [allDisksBeingRemoved_loop forallb]. rewrite IH.
  destruct (weka.Drive.ShouldBeActive kv.2); [reflexivity |].
  destruct l; reflexivity.
Qed.

(** The counting loops count, as long as the count fits an [int]. *)
Lemma count_loop_spec {A : Type} (p : A → bool) (l : list A) : ∀ n,
  0 <= n → n + Z.of_nat (length l) <= GoInt.max_int →
  foldl (fun notActive x => if p x then GoInt.incr notActive else notActive) n l =
  n + Z.of_nat (length (filter (fun x => p x = true) l)).
Proof.
  induction l as [| x l IH]; intros n Hn Hlen; cbn [foldl length] in *.
  - rewrite filter_nil. cbn. lia.
  - rewrite filter_cons. destruct (p x) eqn:Hp.
    + rewrite decide_True by reflexivity.
      rewrite incr_small by lia. rewrite IH by lia. cbn [length]. lia.
    + rewrite decide_False by discriminate. apply IH; lia.
Qed.

Lemma Sub_gt now t timeout :
  time.minDuration <= timeout < time.maxDuration →
  (timeout <? time.Sub now t) = true ↔ timeout < now - t.
Proof.
  intros Hto. unfold time.Sub.
  destruct (Z.ltb_spec time.maxDuration (now - t)).
  - rewrite Z.ltb_lt. lia.
  - destruct (Z.ltb_spec (now - t) time.minDuration); rewrite Z.ltb_lt; lia.
Qed.

Section Classifier.

Variable IsManagement : weka.NodeId → bool.
Variable rt : GoRuntime.
Variable now : time.Time.
Hypothesis Hrt : runtime_ok rt.

Lemma allDisksBeingRemoved_spec host :
  allDisksBeingRemoved rt host = true ↔ every_drive_marked host.
Proof.
  unfold allDisksBeingRemoved, every_drive_marked. rewrite allDisksBeingRemoved_loop_spec.
  destruct (range rt (hostInfo.drives host)) as [| kv l] eqn:E.
  - apply (range_nil_inv rt Hrt) in E. split; [discriminate | intros [Hne _]; contradiction].
  - rewrite <- E, (forallb_range rt Hrt). split.
    + intros Hall. split.
      * intros Hempty. rewrite Hempty, (range_empty rt Hrt) in E. discriminate.
      * intros k d Hm. apply Hall in Hm. cbn in Hm. now apply negb_true_iff in Hm.
    + intros [_ Hall] k d Hm. cbn. apply negb_true_iff. eauto.
Qed.

Lemma anyDiskBeingRemoved_spec host :
  anyDiskBeingRemoved rt host = true ↔ some_drive_marked host.
Proof.
  unfold anyDiskBeingRemoved, some_drive_marked. rewrite (existsb_range rt Hrt).
  split; intros (k & d & Hm & Hp); exists k, d; (split; [exact Hm |]); cbn in *.
  - now apply negb_true_iff in Hp.
  - now apply negb_true_iff.
Qed.

Lemma numNotHealthyDrives_count host :
  Z.of_nat (size (hostInfo.drives host)) <= GoInt.max_int →
  numNotHealthyDrives rt host =
  Z.of_nat (length (filter (fun kv => strings.AnyOf (weka.Drive.Status kv.2) ["INACTIVE"] = true)
                      (range rt (hostInfo.drives host)))).
Proof.
  intros Hsize. unfold numNotHealthyDrives.
  rewrite (count_loop_spec (fun kv => strings.AnyOf (weka.Drive.Status kv.2) ["INACTIVE"])).
  - lia.
  - lia.
  - rewrite (range_length rt Hrt). lia.
Qed.

Lemma numNotHealthyDrives_pos host :
  Z.of_nat (size (hostInfo.drives host)) <= GoInt.max_int →
  (0 <? numNotHealthyDrives rt host) = true ↔ some_drive_unhealthy host.
Proof.
  intros Hsize. rewrite numNotHealthyDrives_count by exact Hsize.
  rewrite Z.ltb_lt. unfold some_drive_unhealthy. split.
  - intros Hpos.
    destruct (filter _ (range rt (hostInfo.drives host))) as [| [k d] l] eqn:E;
      [cbn in Hpos; lia |].
    assert (Hin : (k, d) ∈ filter
              (fun kv => strings.AnyOf (weka.Drive.Status kv.2) ["INACTIVE"] = true)
              (range rt (hostInfo.drives host))) by (rewrite E; left).
    apply list_elem_of_filter in Hin as [Hp Hin]. exists k, d. split.
    + now apply (elem_of_range rt Hrt).
    + apply AnyOf_In in Hp. cbn in Hp. destruct Hp as [Hp | []]. now symmetry.
  - intros (k & d & Hm & Hs).
    assert (Hin : (k, d) ∈ filter
              (fun kv => strings.AnyOf (weka.Drive.Status kv.2) ["INACTIVE"] = true)
              (range rt (hostInfo.drives host))).
    { apply list_elem_of_filter. split.
      - apply AnyOf_In. cbn. left. now symmetry.
      - now apply (elem_of_range rt Hrt). }
    destruct (filter _ (range rt (hostInfo.drives host))); [inversion Hin | cbn; lia].
Qed.

(** With the fencing times recorded the loop never dereferences [nil]. *)
Lemma managementTimedOut_loop_spec timeout l :
  (∀ kv, kv ∈ l → weka.Node.Status kv.2 = "DOWN" → is_Some (weka.Node.LastFencingTime kv.2)) →
  managementTimedOut_loop IsManagement now timeout l =
  Done (existsb (fun kv =>
          IsManagement kv.1 && String.eqb (weka.Node.Status kv.2) "DOWN" &&
          match weka.Node.LastFencingTime kv.2 with
          | Some t => timeout <? time.Since now t
          | None => false
          end) l).
Proof.
  induction l as [| kv l IH]; intros Hwf; [reflexivity |].
  cbn [managementTimedOut_loop existsb].
  assert (IH' := IH (fun kv' Hin => Hwf kv' (list_elem_of_further _ _ _ Hin))).
  destruct (IsManagement kv.1); cbn [negb andb]; [| exact IH'].
  destruct (String.eqb (weka.Node.Status kv.2) "DOWN") eqn:Hs; cbn [andb]; [| exact IH'].
  apply String.eqb_eq in Hs.
  destruct (Hwf kv (list_elem_of_here _ _) Hs) as [t Ht]. rewrite Ht.
  destruct (timeout <? time.Since now t); [reflexivity | exact IH'].
Qed.

Lemma managementTimedOut_spec host timeout :
  fencing_recorded (hostInfo.nodes host) →
  time.minDuration <= timeout < time.maxDuration →
  ∃ b, managementTimedOut IsManagement rt now host timeout = Done b ∧
       (b = true ↔ management_down_longer_than IsManagement now host timeout).
Proof.
  intros Hwf Hto. unfold managementTimedOut.
  rewrite managementTimedOut_loop_spec.
  2:{ intros [k n] Hin. apply (elem_of_range rt Hrt) in Hin. cbn. eauto. }
  eexists. split; [reflexivity |].
  rewrite (existsb_range rt Hrt). unfold management_down_longer_than. split.
  - intros (k & n & Hm & Hp). cbn in Hp.
    apply andb_true_iff in Hp as [Hp Ht]. apply andb_true_iff in Hp as [Hmg Hs].
    apply String.eqb_eq in Hs.
    destruct (weka.Node.LastFencingTime n) as [t |] eqn:E; [| discriminate].
    exists k, n, t. repeat split; trivial. now apply (Sub_gt now t timeout Hto).
  - intros (k & n & t & Hm & Hmg & Hs & Hf & Ht). exists k, n. split; [exact Hm |].
    cbn. rewrite Hmg, Hs, Hf. cbn. now apply (Sub_gt now t timeout Hto).
Qed.

Lemma state_is_leaving_spec host :
  strings.AnyOf (hostInfo.State host) ["DEACTIVATING"; "REMOVING"; "INACTIVE"] = true ↔
  state_is_leaving host.
Proof.
  rewrite AnyOf_In. unfold state_is_leaving. cbn.
  split; [intros [? | [? | [? | []]]] | intros [? | [? | ?]]]; auto.
Qed.

Lemma rule_deactivating_spec host :
  (allDisksBeingRemoved rt host
   || strings.AnyOf (hostInfo.State host) ["DEACTIVATING"; "REMOVING"; "INACTIVE"]) = true
  ↔ rule_deactivating host.
Proof.
  rewrite orb_true_iff, allDisksBeingRemoved_spec, state_is_leaving_spec. reflexivity.
Qed.

End Classifier.

Lemma forallb_false_inv {A : Type} (p : A → bool) (l : list A) :
  forallb p l = false → ∃ x, x ∈ l ∧ p x = false.
Proof.
  induction l as [| x l IH]; cbn; [discriminate |].
  destruct (p x) eqn:Hp; cbn.
  - intros Hl. destruct (IH Hl) as (y & Hy & Hpy). exists y. split; [now right | exact Hpy].
  - intros _. exists x. split; [left | exact Hp].
Qed.

Lemma some_drive_kept_intro rt host :
  runtime_ok rt →
  allDisksBeingRemoved rt host = false → some_drive_marked host → some_drive_kept host.
Proof.
  intros Hrt Hall (k & d & Hm & _).
  unfold allDisksBeingRemoved in Hall. rewrite allDisksBeingRemoved_loop_spec in Hall.
  destruct (range rt (hostInfo.drives host)) as [| kv l] eqn:E.
  - apply (elem_of_range rt Hrt) in Hm. rewrite E in Hm. inversion Hm.
  - rewrite <- E in Hall. apply forallb_false_inv in Hall as ([k' d'] & Hin & Hp).
    exists k', d'. split; [now apply (elem_of_range rt Hrt) |].
    cbn in Hp. now apply negb_false_iff in Hp.
Qed.

Lemma unhealthyDeactivateTimeout_bounds :
  time.minDuration <= unhealthyDeactivateTimeout < time.maxDuration.
Proof. split; vm_compute; [discriminate | reflexivity]. Qed.

Lemma downKickOutTimeout_bounds :
  time.minDuration <= downKickOutTimeout < time.maxDuration.
Proof. split; vm_compute; [discriminate | reflexivity]. Qed.

(** The classifier returns, and what it returns is decided by the two
    rule conditions. *)
Lemma deriveHostState_decided IsManagement rt now host :
  runtime_ok rt → host_ok host →
  ∃ s, deriveHostState IsManagement rt now host = Done s ∧
    (rule_deactivating host → s = DEACTIVATING) ∧
    (¬ rule_deactivating host → rule_unhealthy IsManagement now host → s = UNHEALTHY) ∧
    (¬ rule_deactivating host → ¬ rule_unhealthy IsManagement now host → s = HEALTHY).
Proof.
  intros Hrt [Hsize Hwf]. unfold deriveHostState.
  pose proof (rule_deactivating_spec rt Hrt host) as Hr1.
  destruct (allDisksBeingRemoved rt host) eqn:Ea.
  { exists DEACTIVATING. split; [reflexivity |]. cbn in Hr1.
    split; [reflexivity | split; intros Hn; exfalso; apply Hn, Hr1; reflexivity]. }
  destruct (strings.AnyOf (hostInfo.State host) _) eqn:Es.
  { exists DEACTIVATING. split; [reflexivity |]. cbn in Hr1.
    split; [reflexivity | split; intros Hn; exfalso; apply Hn, Hr1; reflexivity]. }
  cbn in Hr1.
  assert (Hn1 : ¬ rule_deactivating host) by (intros Hr; apply Hr1 in Hr; discriminate).
  destruct (managementTimedOut_spec IsManagement rt now Hrt host unhealthyDeactivateTimeout
              Hwf unhealthyDeactivateTimeout_bounds) as (b & Eb & Hb).
  pose proof (numNotHealthyDrives_pos rt Hrt host Hsize) as Hnum.
  pose proof (anyDiskBeingRemoved_spec rt Hrt host) as Hany.
  set (down := String.eqb (hostInfo.Status host) "DOWN" && b).
  assert (Hdown : down = true ↔
      hostInfo.Status host = "DOWN" ∧
      management_down_longer_than IsManagement now host (120 * time.Minute)).
  { unfold down. rewrite andb_true_iff, String.eqb_eq, Hb. reflexivity. }
  assert (Hrule2 : rule_unhealthy IsManagement now host ↔
      (down || (0 <? numNotHealthyDrives rt host) || anyDiskBeingRemoved rt host) = true).
  { unfold rule_unhealthy. rewrite !orb_true_iff, Hdown, Hnum, Hany. split.
    - intros [? | [? | [? _]]]; auto.
    - intros [[? | ?] | Hm]; auto. right. right. split; [exact Hm |].
      now apply (some_drive_kept_intro rt host). }
  assert (E : (if String.eqb (hostInfo.Status host) "DOWN"
               then managementTimedOut IsManagement rt now host unhealthyDeactivateTimeout
               else Done false) = Done down).
  { unfold down. destruct (String.eqb (hostInfo.Status host) "DOWN"); [exact Eb | reflexivity]. }
  rewrite E. cbn [mbind outcome_bind].
  destruct down; cbn [orb] in Hrule2.
  { exists UNHEALTHY. split; [reflexivity |].
    split; [intros; contradiction | split; [reflexivity |]].
    intros _ Hn2. exfalso. apply Hn2, Hrule2. reflexivity. }
  destruct ((0 <? numNotHealthyDrives rt host) || anyDiskBeingRemoved rt host).
  - exists UNHEALTHY. split; [reflexivity |].
    split; [intros; contradiction | split; [reflexivity |]].
    intros _ Hn2. exfalso. apply Hn2, Hrule2. reflexivity.
  - exists HEALTHY. split; [reflexivity |].
    split; [intros; contradiction | split; [| reflexivity]].
    intros _ H2. apply Hrule2 in H2. discriminate.
Qed.

(** C9.  A host without drives whose reported state is not one of
    deactivating, removing, inactive and whose status is not down is
    HEALTHY; so is the host with state ACTIVE and status UP. *)
Theorem driveless_active_host_is_healthy IsManagement rt now host :
  runtime_ok rt →
  hostInfo.drives host = ∅ →
  (¬ state_is_leaving host → hostInfo.Status host ≠ "DOWN" →
   deriveHostState IsManagement rt now host = Done HEALTHY) ∧
  (hostInfo.State host = "ACTIVE" → hostInfo.Status host = "UP" →
   deriveHostState IsManagement rt now host = Done HEALTHY) ∧
  (hostInfo.State host = "active" → hostInfo.Status host = "up" →
   deriveHostState IsManagement rt now host = Done HEALTHY).
Proof.
  intros Hrt Hd.
  assert (Hgen : ¬ state_is_leaving host → hostInfo.Status host ≠ "DOWN" →
                 deriveHostState IsManagement rt now host = Done HEALTHY).
  { intros Hst Hup. unfold deriveHostState.
    unfold allDisksBeingRemoved, numNotHealthyDrives, anyDiskBeingRemoved.
    rewrite Hd, (range_empty rt Hrt). cbn [allDisksBeingRemoved_loop foldl existsb].
    destruct (strings.AnyOf (hostInfo.State host) _) eqn:Es.
    { apply state_is_leaving_spec in Es. contradiction. }
    apply String.eqb_neq in Hup. rewrite Hup. reflexivity. }
  split; [exact Hgen | split; intros Hs Hu; apply Hgen].
  - unfold state_is_leaving. rewrite Hs. intros [? | [? | ?]]; discriminate.
  - rewrite Hu. discriminate.
  - unfold state_is_leaving. rewrite Hs. intros [? | [? | ?]]; discriminate.
  - rewrite Hu. discriminate.
Qed.

(** ** The sample runtimes are runtimes *)

Lemma strict_weak_order_asym {A : Type} (less : A → A → bool) a b :
  strict_weak_order less → less a b = true → less b a = false.
Proof.
  intros (Hirr & Htrans & _) Hab. destruct (less b a) eqn:Hba; [| reflexivity].
  rewrite <- (Hirr a). symmetry. now apply (Htrans a b a).
Qed.

Lemma insert_sorted_perm {A : Type} (less : A → A → bool) x l :
  insert_sorted less x l ≡ₚ x :: l.
Proof.
  induction l as [| y l IH]; cbn; [reflexivity |].
  destruct (less y x); [| reflexivity].
  rewrite IH. apply Permutation_swap.
Qed.

Lemma insertionSort_perm {A : Type} (less : A → A → bool) l :
  insertionSort less l ≡ₚ l.
Proof.
  induction l as [| x l IH]; cbn; [reflexivity |].
  fold (insertionSort less l). now rewrite insert_sorted_perm, IH.
Qed.

Lemma insert_sorted_sorted {A : Type} (less : A → A → bool) x l :
  strict_weak_order less → sorted_by less l → sorted_by less (insert_sorted less x l).
Proof.
  intros Hswo. unfold sorted_by. induction l as [| y l IH]; intros Hs; cbn.
  - repeat constructor.
  - apply Sorted_inv in Hs as [Hs Hhd]. destruct (less y x) eqn:Hyx.
    + constructor; [now apply IH |].
      destruct l as [| z l]; cbn.
      * constructor. now apply strict_weak_order_asym.
      * destruct (less z x); constructor.
        -- now inversion Hhd.
        -- now apply strict_weak_order_asym.
    + constructor; [now constructor | now constructor].
Qed.

Lemma insertionSort_sorted {A : Type} (less : A → A → bool) l :
  strict_weak_order less → sorted_by less (insertionSort less l).
Proof.
  intros Hswo. induction l as [| x l IH]; cbn.
  - constructor.
  - now apply insert_sorted_sorted.
Qed.

Lemma doubling_cap_ge n : (n ≤ doubling_cap n)%nat.
Proof.
  destruct n as [| [| n]]; cbn [doubling_cap]; [lia | cbn; lia |].
  apply Nat.log2_up_spec. lia.
Qed.

Lemma forward_runtime_ok : runtime_ok forward_runtime.
Proof.
  constructor; cbn.
  - reflexivity.
  - intros. apply insertionSort_perm.
  - intros. now apply insertionSort_sorted.
  - apply doubling_cap_ge.
  - reflexivity.
Qed.

Lemma backward_runtime_ok : runtime_ok backward_runtime.
Proof.
  constructor; cbn.
  - intros. symmetry. apply Permutation_rev.
  - intros. apply insertionSort_perm.
  - intros. now apply insertionSort_sorted.
  - apply doubling_cap_ge.
  - reflexivity.
Qed.

(** ** Removal priority *)

Lemma hostLess_lex rt a b :
  hostLess rt a b = true ↔
  hostState_int (hostInfo.scaleState a) < hostState_int (hostInfo.scaleState b) ∨
  (hostState_int (hostInfo.scaleState a) = hostState_int (hostInfo.scaleState b) ∧
   (numNotHealthyDrives rt b < numNotHealthyDrives rt a ∨
    (numNotHealthyDrives rt a = numNotHealthyDrives rt b ∧
     hostInfo.AddedTime a < hostInfo.AddedTime b))).
Proof.
  unfold hostLess, time.Before. rewrite !Z.gtb_ltb.
  repeat match goal with
         | |- context [?x <? ?y] => destruct (Z.ltb_spec x y)
         end; split; intros; try discriminate; try reflexivity; lia.
Qed.

Lemma hostLess_false rt a b :
  hostLess rt a b = false ↔
  ¬ (hostState_int (hostInfo.scaleState a) < hostState_int (hostInfo.scaleState b) ∨
     (hostState_int (hostInfo.scaleState a) = hostState_int (hostInfo.scaleState b) ∧
      (numNotHealthyDrives rt b < numNotHealthyDrives rt a ∨
       (numNotHealthyDrives rt a = numNotHealthyDrives rt b ∧
        hostInfo.AddedTime a < hostInfo.AddedTime b)))).
Proof.
  rewrite <- hostLess_lex. destruct (hostLess rt a b); split; intros H; congruence || tauto.
Qed.

Lemma hostLess_strict_weak_order rt : strict_weak_order (hostLess rt).
Proof.
  split; [| split].
  - intros a. apply hostLess_false. lia.
  - intros a b c Hab Hbc. apply hostLess_lex in Hab, Hbc. apply hostLess_lex. lia.
  - intros a b c Hab Hbc. apply hostLess_false in Hab, Hbc. apply hostLess_false. lia.
Qed.

Lemma hostState_int_inj s s' : hostState_int s = hostState_int s' → s = s'.
Proof. destruct s, s'; cbn; intros; congruence || lia. Qed.

Lemma sorted_by_strongly {A : Type} (less : A → A → bool) l :
  strict_weak_order less → sorted_by less l →
  StronglySorted (fun a b => less b a = false) l.
Proof.
  intros (_ & _ & Hinc). apply Sorted_StronglySorted.
  intros a b c Hab Hbc. now apply (Hinc c b a).
Qed.

(** A list whose elements are strictly increasing has one sorted
    arrangement. *)
Lemma sorted_perm_unique {A : Type} (less : A → A → bool) (l : list A) :
  strict_weak_order less →
  StronglySorted (fun a b => less a b = true) l →
  ∀ l', l' ≡ₚ l → sorted_by less l' → l' = l.
Proof.
  intros Hswo. induction l as [| a l IH]; intros Hs l' Hperm Hsorted.
  - now apply Permutation_nil_r.
  - apply StronglySorted_inv in Hs as [Hs Hall].
    destruct l' as [| x t].
    { now apply Permutation_nil_cons in Hperm. }
    apply sorted_by_strongly in Hsorted; [| exact Hswo].
    apply StronglySorted_inv in Hsorted as [Hst Hxt].
    assert (Hx : x = a).
    { assert (Hin : x ∈ a :: l) by (rewrite <- Hperm; left).
      apply elem_of_cons in Hin as [Hin | Hin]; [exact Hin |].
      assert (Hlt : less a x = true).
      { rewrite List.Forall_forall in Hall. now apply Hall, list_elem_of_In. }
      assert (Hin' : a ∈ x :: t) by (rewrite Hperm; left).
      apply elem_of_cons in Hin' as [Hin' | Hin']; [now symmetry |].
      rewrite List.Forall_forall in Hxt. apply list_elem_of_In, Hxt in Hin'. congruence. }
    subst x. f_equal. apply Permutation_cons_inv in Hperm.
    apply IH; trivial. now apply StronglySorted_Sorted.
Qed.

Lemma range_filter_length `{Countable K} {V : Type} rt (m : gmap K V)
    (P : K * V → Prop) `{∀ x, Decision (P x)} :
  runtime_ok rt → length (filter P (range rt m)) = size (filter P m).
Proof.
  intros Hrt. rewrite (range_perm rt Hrt), <- length_map_to_list.
  apply Permutation_length, NoDup_Permutation.
  - apply NoDup_filter, NoDup_map_to_list.
  - apply NoDup_map_to_list.
  - intros [k v]. rewrite list_elem_of_filter, !elem_of_map_to_list, map_lookup_filter_Some.
    tauto.
Qed.

Lemma AnyOf_INACTIVE s : strings.AnyOf s ["INACTIVE"] = true ↔ s = "INACTIVE".
Proof. rewrite AnyOf_In. cbn. split; [intros [? | []]; congruence | auto]. Qed.

Lemma numNotHealthyDrives_size rt host :
  runtime_ok rt → Z.of_nat (size (hostInfo.drives host)) <= GoInt.max_int →
  numNotHealthyDrives rt host =
  Z.of_nat (size (filter (fun kd : weka.DriveId * weka.Drive.t =>
                            weka.Drive.Status kd.2 = "INACTIVE") (hostInfo.drives host))).
Proof.
  intros Hrt Hsize. rewrite (numNotHealthyDrives_count rt Hrt host Hsize).
  rewrite <- (range_filter_length rt _ _ Hrt). f_equal. f_equal.
  apply list_filter_iff. intros kd. apply AnyOf_INACTIVE.
Qed.

(** C3.  The comparator handed to [sort.Slice] puts [a] before [b] when
    [a]'s scale-state is the smaller one (DEACTIVATING < UNHEALTHY <
    HEALTHY), on equal states when [a] has more unhealthy drives, and on
    equal counts when [a] was added earlier.  The second key,
    [numNotHealthyDrives], is the number of drives of the host whose
    status is INACTIVE, whatever the order in which the drive map is
    walked, on a host whose drive map an [int] can count.  Sorting with
    the comparator yields a rearrangement in which no host comes before
    one of higher priority, and three hosts that are healthy, unhealthy
    and deactivating and otherwise equal come out as deactivating,
    unhealthy, healthy. *)
Theorem hostLess_priority rt :
  runtime_ok rt →
  hostState_int DEACTIVATING < hostState_int UNHEALTHY < hostState_int HEALTHY ∧
  (∀ host,
     Z.of_nat (size (hostInfo.drives host)) <= GoInt.max_int →
     numNotHealthyDrives rt host = unhealthy_drives host) ∧
  (∀ a b,
     Z.of_nat (size (hostInfo.drives a)) <= GoInt.max_int →
     Z.of_nat (size (hostInfo.drives b)) <= GoInt.max_int →
     hostLess rt a b = true ↔
     hostState_int (hostInfo.scaleState a) < hostState_int (hostInfo.scaleState b) ∨
     (hostInfo.scaleState a = hostInfo.scaleState b ∧
      (unhealthy_drives a > unhealthy_drives b ∨
       (unhealthy_drives a = unhealthy_drives b ∧
        hostInfo.AddedTime a < hostInfo.AddedTime b)))) ∧
  (∀ hostsList,
     sort_Slice rt hostInfo.t (hostLess rt) hostsList ≡ₚ hostsList ∧
     sorted_by (hostLess rt) (sort_Slice rt hostInfo.t (hostLess rt) hostsList)) ∧
  (∀ host,
     sort_Slice rt hostInfo.t (hostLess rt)
       [hostInfo.with_scaleState host HEALTHY;
        hostInfo.with_scaleState host UNHEALTHY;
        hostInfo.with_scaleState host DEACTIVATING] =
     [hostInfo.with_scaleState host DEACTIVATING;
      hostInfo.with_scaleState host UNHEALTHY;
      hostInfo.with_scaleState host HEALTHY]).
Proof.
  intros Hrt. split; [cbn; lia |]. split; [| split; [| split]].
  - intros host Hsize. now apply numNotHealthyDrives_size.
  - intros a b Ha Hb. unfold unhealthy_drives.
    rewrite <- (numNotHealthyDrives_size rt a Hrt Ha).
    rewrite <- (numNotHealthyDrives_size rt b Hrt Hb).
    rewrite hostLess_lex. split.
    + intros [Hlt | [Heq Hrest]]; [now left | right].
      split; [now apply hostState_int_inj | lia].
    + intros [Hlt | [Heq Hrest]]; [now left | right]. rewrite Heq. lia.
  - intros hostsList. split.
    + apply (sort_Slice_perm rt Hrt).
    + apply (sort_Slice_sorted rt Hrt), hostLess_strict_weak_order.
  - intros host.
    apply (sorted_perm_unique (hostLess rt)).
    + apply hostLess_strict_weak_order.
    + repeat constructor; apply hostLess_lex; left; cbn; lia.
    + rewrite (sort_Slice_perm rt Hrt).
      etransitivity; [apply Permutation_rev |]. reflexivity.
    + apply (sort_Slice_sorted rt Hrt), hostLess_strict_weak_order.
Qed.

(** ** The tick: before the lifecycle phase *)

Lemma isAllowedToScale_gate status :
  gate_rejects status ↔ ∃ err, isAllowedToScale status = Some err.
Proof.
  unfold gate_rejects, isAllowedToScale.
  destruct (String.eqb_spec (weka.StatusResponse.IoStatus status) "STARTED") as [Hio | Hio];
    cbn [negb].
  - destruct (String.eqb_spec (weka.StatusResponse.Upgrade status) "") as [Hup | Hup];
      cbn [negb].
    + split; [intros [? | ?]; contradiction | intros [err ?]; discriminate].
    + split; eauto.
  - split; eauto.
Qed.

Lemma Handler_snapshot IsManagement rt now info mp hostsApiList driveApiList nodeApiList :
  snapshot_of info mp hostsApiList driveApiList nodeApiList →
  Handler IsManagement rt now info mp =
  reconcile IsManagement rt now info mp driveApiList
    (buildHosts rt hostsApiList driveApiList nodeApiList)
    (mkTick (snapshot_queries info) protocol.zero).
Proof.
  intros [(status & Hst & Hgate) Hh Hd Hn]. unfold Handler, snapshot_queries, query.
  rewrite Hst, Hgate, Hh. cbn [app].
  destruct (String.eqb (protocol.Role info) "backend").
  - rewrite Hd, Hn. reflexivity.
  - rewrite Hd, Hn. reflexivity.
Qed.

Lemma snapshot_queries_only info : only_queries (snapshot_queries info).
Proof.
  unfold snapshot_queries, only_queries.
  destruct (String.eqb (protocol.Role info) "backend"); repeat constructor; now eexists _, _.
Qed.

(** C5.  When the status query reports an IO status other than STARTED or
    a non-empty upgrade flag, the tick returns the gate's error after the
    status query alone; whenever the gate rejects or one of the queries
    fails, the tick returns an error and an empty response, having issued
    nothing but queries: no deactivate-drives, deactivate-hosts,
    remove-host or remove-drive call; and a tick that breaks down while
    it sorts and classifies the hosts of its snapshot has issued nothing
    but the queries either. *)
Theorem gate_and_snapshot_failures_abort IsManagement rt now info mp :
  (∀ status,
     status_reply mp = Ack status → gate_rejects status →
     ∃ err, isAllowedToScale status = Some err ∧
       Handler IsManagement rt now info mp =
       ([EvCall weka.JrpcStatus None], Returned protocol.zero (Some err))) ∧
  (snapshot_fails info mp →
   ∃ tr err,
     Handler IsManagement rt now info mp = (tr, Returned protocol.zero (Some err)) ∧
     only_queries tr) ∧
  (∀ hostsApiList driveApiList nodeApiList reason,
     snapshot_of info mp hostsApiList driveApiList nodeApiList →
     classify IsManagement rt now info
       (buildHosts rt hostsApiList driveApiList nodeApiList) = Panic reason →
     Handler IsManagement rt now info mp = (snapshot_queries info, Panicked reason) ∧
     only_queries (snapshot_queries info)).
Proof.
  split; [| split].
  - intros status Hst Hgate. apply isAllowedToScale_gate in Hgate as [err Herr].
    exists err. split; [exact Herr |]. unfold Handler, query. now rewrite Hst, Herr.
  - intros Hfail. unfold Handler, query, only_queries.
    destruct (status_reply mp) as [status | err] eqn:Hst.
    2:{ eexists _, _. split; [reflexivity |]. repeat constructor. now eexists _, _. }
    destruct (isAllowedToScale status) as [err |] eqn:Hgate.
    { eexists _, _. split; [reflexivity |]. repeat constructor. now eexists _, _. }
    destruct (host_list_reply mp) as [hostsApiList | err] eqn:Hh.
    2:{ eexists _, _. split; [reflexivity |]. repeat constructor; now eexists _, _. }
    cbn [app].
    destruct (String.eqb_spec (protocol.Role info) "backend") as [Hrole | Hrole].
    + destruct (drives_list_reply mp) as [driveApiList | err] eqn:Hd.
      2:{ eexists _, _. split; [reflexivity |]. repeat constructor; now eexists _, _. }
      destruct (node_list_reply mp) as [nodeApiList | err] eqn:Hn.
      2:{ eexists _, _. split; [reflexivity |]. repeat constructor; now eexists _, _. }
      exfalso. destruct Hfail as [[? ?] | [(? & Heq & Hg) | [[? ?] | [[_ [? ?]] | [? ?]]]]];
        try congruence.
      apply isAllowedToScale_gate in Hg as [? ?]. congruence.
    + destruct (node_list_reply mp) as [nodeApiList | err] eqn:Hn.
      2:{ eexists _, _. split; [reflexivity |]. repeat constructor; now eexists _, _. }
      exfalso. destruct Hfail as [[? ?] | [(? & Heq & Hg) | [[? ?] | [[? _] | [? ?]]]]];
        try congruence.
      apply isAllowedToScale_gate in Hg as [? ?]. congruence.
  - intros hostsApiList driveApiList nodeApiList reason Hsnap Hpanic.
    split; [| apply snapshot_queries_only].
    rewrite (Handler_snapshot _ _ _ _ _ _ _ _ Hsnap). unfold reconcile.
    now rewrite Hpanic.
Qed.

(** ** The lifecycle phase *)

Lemma reported_failures_app tr tr' :
  reported_failures (tr ++ tr') = reported_failures tr ++ reported_failures tr'.
Proof. apply flat_map_app. Qed.

Lemma extends_by_refl t : extends_by [] [] t t.
Proof. unfold extends_by. now rewrite !app_nil_r. Qed.

Lemma extends_by_trans δ τ δ' τ' t t' t'' :
  extends_by δ τ t t' → extends_by δ' τ' t' t'' → extends_by (δ ++ δ') (τ ++ τ') t t''.
Proof.
  intros (Htr & Herr & Hh & Hterm) (Htr' & Herr' & Hh' & Hterm').
  unfold extends_by. rewrite Htr', Htr, Herr', Herr, Hh', Hh, Hterm', Hterm.
  now rewrite reported_failures_app, !app_assoc.
Qed.

Lemma called_app_l method tr δ : called method tr → called method (tr ++ δ).
Proof. intros [err Hin]. exists err. apply elem_of_app. now left. Qed.

Lemma called_app_r method tr δ : called method δ → called method (tr ++ δ).
Proof. intros [err Hin]. exists err. apply elem_of_app. now right. Qed.

Lemma called_extends δ τ t t' method :
  extends_by δ τ t t' → called method (trace t) ∨ called method δ → called method (trace t').
Proof.
  intros (Htr & _) [Hc | Hc]; rewrite Htr; [now apply called_app_l | now apply called_app_r].
Qed.

(** A loop of quiet steps is a quiet step, and what a step issues for an
    element stays issued. *)
Lemma foldl_quiet {A : Type} (f : tick → A → tick) (l : list A) :
  (∀ t x, ∃ δ, extends_by δ [] t (f t x)) →
  ∀ t, ∃ δ, extends_by δ [] t (foldl f t l).
Proof.
  intros Hf. induction l as [| x l IH]; intros t; cbn [foldl].
  - exists []. apply extends_by_refl.
  - destruct (Hf t x) as [δ Hδ]. destruct (IH (f t x)) as [δ' Hδ'].
    exists (δ ++ δ'). change (@nil protocol.HgInstance) with (@nil protocol.HgInstance ++ []).
    eapply extends_by_trans; eassumption.
Qed.

Lemma foldl_covers {A : Type} (f : tick → A → tick) (Q : A → list event → Prop) :
  (∀ t x, ∃ δ τ, extends_by δ τ t (f t x)) →
  (∀ x tr δ, Q x tr → Q x (tr ++ δ)) →
  (∀ t x, Q x (trace (f t x))) →
  ∀ l t x, x ∈ l → Q x (trace (foldl f t l)).
Proof.
  intros Hf Hmono HQ.
  assert (Hext : ∀ l t, ∃ δ, trace (foldl f t l) = trace t ++ δ).
  { induction l as [| y l IH]; intros t; cbn [foldl].
    - exists []. now rewrite app_nil_r.
    - destruct (Hf t y) as (δ & τ & Hδ & _). destruct (IH (f t y)) as [δ' Hδ'].
      exists (δ ++ δ'). now rewrite Hδ', Hδ, app_assoc. }
  induction l as [| y l IH]; intros t x Hin; [inversion Hin |].
  cbn [foldl]. apply elem_of_cons in Hin as [-> | Hin].
  - destruct (Hext l (f t y)) as [δ Hδ]. rewrite Hδ. apply Hmono, HQ.
  - now apply IH.
Qed.

Section Lifecycle.

Variable rt : GoRuntime.
Variable info : protocol.HostGroupInfoResponse.
Variable mp : ManagementPlane.

Lemma removeDrive_step drive t :
  ∃ err, extends_by [EvCall (weka.JrpcRemoveDrive [weka.Drive.Uuid drive]) err] [] t
           (removeDrive mp drive t).
Proof.
  unfold removeDrive, Pool_Call, extends_by.
  destruct (mutate_reply mp (trace t) _) as [err |] eqn:E.
  - exists (Some err). cbn. now rewrite !app_nil_r.
  - exists None. cbn. now rewrite !app_nil_r.
Qed.

Lemma removeDrive_quiet drive t : ∃ δ, extends_by δ [] t (removeDrive mp drive t).
Proof. destruct (removeDrive_step drive t) as [err H]. eauto. Qed.

Lemma removeDrive_called drive t :
  called (weka.JrpcRemoveDrive [weka.Drive.Uuid drive]) (trace (removeDrive mp drive t)).
Proof.
  destruct (removeDrive_step drive t) as [err H].
  eapply called_extends; [exact H |]. right. exists err. left.
Qed.

Lemma removeDrives_quiet (l : list (weka.DriveId * weka.Drive.t)) t :
  ∃ δ, extends_by δ [] t (foldl (fun t kv => removeDrive mp kv.2 t) t l).
Proof. apply foldl_quiet. intros. apply removeDrive_quiet. Qed.

Lemma removeInactiveHost_step t host :
  ∃ err δ,
    mutate_reply mp (trace t ++ [EvDrop (hostInfo.HostIp host)])
      (weka.JrpcRemoveHost (hostInfo.id host) true) = err ∧
    extends_by
      (EvDrop (hostInfo.HostIp host)
       :: EvCall (weka.JrpcRemoveHost (hostInfo.id host) true) err :: δ)
      (terminated_by (fun _ => err) info host) t
      (removeInactiveHost rt info mp t host).
Proof.
  unfold removeInactiveHost, Pool_Call, Pool_Drop. cbn [trace response].
  destruct (mutate_reply mp _ _) as [err |] eqn:E.
  - exists (Some err), []. split; [reflexivity |]. unfold extends_by, terminated_by. cbn.
    rewrite <- !app_assoc. cbn. now rewrite !app_nil_r.
  - exists None.
    set (t1 := match selectInstanceByIp _ _ with Some _ => _ | None => _ end).
    unfold terminated_by.
    destruct (removeDrives_quiet (range rt (hostInfo.drives host)) t1) as [δ Hδ].
    exists δ. split; [reflexivity |].
    assert (H1 : extends_by
              [EvDrop (hostInfo.HostIp host);
               EvCall (weka.JrpcRemoveHost (hostInfo.id host) true) None]
              (match selectInstanceByIp (hostInfo.HostIp host) (protocol.Instances info) with
               | Some instance => [instance]
               | None => []
               end) t t1).
    { unfold extends_by, t1.
      destruct (selectInstanceByIp _ _); cbn; rewrite <- !app_assoc; cbn;
        now rewrite !app_nil_r. }
    pose proof (extends_by_trans _ _ _ _ _ _ _ H1 Hδ) as H2.
    rewrite app_nil_r in H2. exact H2.
Qed.

Lemma removeInactiveHost_extends t host :
  ∃ δ τ, extends_by δ τ t (removeInactiveHost rt info mp t host).
Proof. destruct (removeInactiveHost_step t host) as (err & δ & _ & H). eauto. Qed.

Lemma removal_issued_app host tr δ :
  removal_issued host tr → removal_issued host (tr ++ δ).
Proof.
  intros (err & Hin & Hdrives). exists err. split.
  - apply elem_of_app. now left.
  - intros Herr k drive Hk. apply called_app_l. eauto.
Qed.

Lemma removeInactiveHost_issued t host :
  runtime_ok rt → removal_issued host (trace (removeInactiveHost rt info mp t host)).
Proof.
  intros Hrt. unfold removeInactiveHost, Pool_Call, Pool_Drop. cbn [trace response].
  destruct (mutate_reply mp _ _) as [err |] eqn:E.
  - exists (Some err). split; [| discriminate].
    cbn. apply elem_of_app. right. left.
  - exists None.
    set (t1 := match selectInstanceByIp _ _ with Some _ => _ | None => _ end).
    assert (Ht1 : trace t1 =
                  (trace t ++ [EvDrop (hostInfo.HostIp host)]) ++
                  [EvCall (weka.JrpcRemoveHost (hostInfo.id host) true) None]).
    { unfold t1. now destruct (selectInstanceByIp _ _). }
    split.
    + destruct (removeDrives_quiet (range rt (hostInfo.drives host)) t1) as (δ & Hδ & _).
      rewrite Hδ, Ht1. apply elem_of_app. left. apply elem_of_app. right. left.
    + intros _ k drive Hk.
      apply (foldl_covers (fun t kv => removeDrive mp kv.2 t)
               (fun kv tr => called (weka.JrpcRemoveDrive [weka.Drive.Uuid kv.2]) tr))
        with (x := (k, drive)).
      * intros t' kv. destruct (removeDrive_quiet kv.2 t') as [δ H]. eauto.
      * intros kv tr δ. apply called_app_l.
      * intros t' kv. apply removeDrive_called.
      * now apply (elem_of_range rt Hrt).
Qed.

Lemma removeInactive_extends hosts : ∀ t,
  ∃ δ τ, extends_by δ τ t (removeInactive rt info mp hosts t).
Proof.
  unfold removeInactive. induction hosts as [| host hosts IH]; intros t; cbn [foldl].
  - exists [], []. apply extends_by_refl.
  - destruct (removeInactiveHost_extends t host) as (δ & τ & H).
    destruct (IH (removeInactiveHost rt info mp t host)) as (δ' & τ' & H').
    eexists _, _. eapply extends_by_trans; eassumption.
Qed.

(** On a plane that answers a call by its content alone, the terminate
    candidates are those of the removed hosts, in the order of removal. *)
Lemma removeInactive_terminated answer hosts :
  (∀ tr method, mutate_reply mp tr method = answer method) →
  ∀ t, ∃ δ, extends_by δ (flat_map (terminated_by answer info) hosts) t
              (removeInactive rt info mp hosts t).
Proof.
  intros Hanswer. unfold removeInactive.
  induction hosts as [| host hosts IH]; intros t; cbn [foldl flat_map].
  - exists []. apply extends_by_refl.
  - destruct (removeInactiveHost_step t host) as (err & δ & Herr & H).
    rewrite Hanswer in Herr.
    assert (Hτ : terminated_by (fun _ => err) info host = terminated_by answer info host).
    { unfold terminated_by. now rewrite Herr. }
    rewrite Hτ in H.
    destruct (IH (removeInactiveHost rt info mp t host)) as (δ' & H').
    eexists. eapply extends_by_trans; eassumption.
Qed.

Lemma removeInactive_issued hosts t host :
  runtime_ok rt → host ∈ hosts →
  removal_issued host (trace (removeInactive rt info mp hosts t)).
Proof.
  intros Hrt. unfold removeInactive.
  apply (foldl_covers (removeInactiveHost rt info mp) removal_issued).
  - intros. apply removeInactiveHost_extends.
  - apply removal_issued_app.
  - intros. now apply removeInactiveHost_issued.
Qed.

Lemma removeOldDrives_quiet drives t :
  ∃ δ, extends_by δ [] t (removeOldDrives rt mp drives t).
Proof.
  unfold removeOldDrives. apply foldl_quiet. intros t' kv.
  destruct (_ && _); [apply removeDrive_quiet | exists []; apply extends_by_refl].
Qed.

Lemma removeOldDrives_called drives t k drive :
  runtime_ok rt →
  drives !! k = Some drive → orphan_drive drive →
  called (weka.JrpcRemoveDrive [weka.Drive.Uuid drive]) (trace (removeOldDrives rt mp drives t)).
Proof.
  intros Hrt Hk [Hid Hst]. unfold removeOldDrives.
  apply (foldl_covers
           (fun t kv =>
              if (weka.Drive.HostId kv.2 =? -1) && String.eqb (weka.Drive.Status kv.2) "INACTIVE"
              then removeDrive mp kv.2 t else t)
           (fun kv tr =>
              weka.Drive.HostId kv.2 = -1 → weka.Drive.Status kv.2 = "INACTIVE" →
              called (weka.JrpcRemoveDrive [weka.Drive.Uuid kv.2]) tr)
           ) with (x := (k, drive)); trivial.
  - intros t' kv. destruct (_ && _).
    + destruct (removeDrive_quiet kv.2 t') as [δ H]. eauto.
    + exists [], []. apply extends_by_refl.
  - intros kv tr δ HQ H1 H2. apply called_app_l. auto.
  - intros t' kv H1 H2. rewrite H1, H2. cbn. apply removeDrive_called.
  - now apply (elem_of_range rt Hrt).
Qed.

End Lifecycle.

Section Deactivate.

Variable rt : GoRuntime.
Variable mp : ManagementPlane.

Lemma deactivateDrive_quiet t kv : ∃ δ, extends_by δ [] t (deactivateDrive mp t kv).
Proof.
  unfold deactivateDrive, Pool_Call.
  destruct (weka.Drive.ShouldBeActive kv.2); [| exists []; apply extends_by_refl].
  destruct (mutate_reply mp (trace t) _) as [err |] eqn:E.
  - exists [EvCall (weka.JrpcDeactivateDrives [weka.Drive.Uuid kv.2]) (Some err)].
    unfold extends_by. cbn. now rewrite !app_nil_r.
  - exists [EvCall (weka.JrpcDeactivateDrives [weka.Drive.Uuid kv.2]) None].
    unfold extends_by. cbn. now rewrite !app_nil_r.
Qed.

Lemma deactivateDrive_called t kv :
  weka.Drive.ShouldBeActive kv.2 = true →
  called (weka.JrpcDeactivateDrives [weka.Drive.Uuid kv.2]) (trace (deactivateDrive mp t kv)).
Proof.
  intros Hs. unfold deactivateDrive, Pool_Call. rewrite Hs.
  destruct (mutate_reply mp (trace t) _) as [err |]; cbn;
    apply called_app_r; eexists; left.
Qed.

Lemma deactivateHost_unfold t host :
  deactivateHost rt mp t host =
  let t1 := foldl (deactivateDrive mp) t (range rt (hostInfo.drives host)) in
  if allDrivesInactive rt host then
    let t2 := Pool_Drop (hostInfo.HostIp host) t1 in
    let '(t3, err) := Pool_Call mp (weka.JrpcDeactivateHosts [hostInfo.id host] false) t2 in
    match err with
    | Some err => AddTransientError err "deactivateHost" t3
    | None => t3
    end
  else t1.
Proof. reflexivity. Qed.

Lemma deactivateHost_tail_quiet t host :
  ∃ err, extends_by
    [EvDrop (hostInfo.HostIp host);
     EvCall (weka.JrpcDeactivateHosts [hostInfo.id host] false) err] [] t
    (let t2 := Pool_Drop (hostInfo.HostIp host) t in
     let '(t3, err) := Pool_Call mp (weka.JrpcDeactivateHosts [hostInfo.id host] false) t2 in
     match err with
     | Some err => AddTransientError err "deactivateHost" t3
     | None => t3
     end).
Proof.
  unfold Pool_Call, Pool_Drop. cbn [trace response].
  destruct (mutate_reply mp _ _) as [err |] eqn:E.
  - exists (Some err). unfold extends_by. cbn. rewrite <- !app_assoc. cbn.
    now rewrite !app_nil_r.
  - exists None. unfold extends_by. cbn. rewrite <- !app_assoc. cbn.
    now rewrite !app_nil_r.
Qed.

Lemma deactivateHost_quiet t host : ∃ δ, extends_by δ [] t (deactivateHost rt mp t host).
Proof.
  rewrite deactivateHost_unfold. cbv zeta.
  destruct (foldl_quiet (deactivateDrive mp) (range rt (hostInfo.drives host))
              deactivateDrive_quiet t) as [δ Hδ].
  destruct (allDrivesInactive rt host); [| eauto].
  destruct (deactivateHost_tail_quiet
              (foldl (deactivateDrive mp) t (range rt (hostInfo.drives host))) host)
    as [err Herr].
  exists (δ ++ [EvDrop (hostInfo.HostIp host);
                EvCall (weka.JrpcDeactivateHosts [hostInfo.id host] false) err]).
  change (@nil protocol.HgInstance) with (@nil protocol.HgInstance ++ []).
  eapply extends_by_trans; eassumption.
Qed.

Lemma deactivateHost_called_drive t host k drive :
  runtime_ok rt →
  hostInfo.drives host !! k = Some drive → weka.Drive.ShouldBeActive drive = true →
  called (weka.JrpcDeactivateDrives [weka.Drive.Uuid drive]) (trace (deactivateHost rt mp t host)).
Proof.
  intros Hrt Hk Hs. rewrite deactivateHost_unfold. cbv zeta.
  assert (Hc : called (weka.JrpcDeactivateDrives [weka.Drive.Uuid drive])
                 (trace (foldl (deactivateDrive mp) t (range rt (hostInfo.drives host))))).
  { apply (foldl_covers (deactivateDrive mp)
             (fun kv tr => weka.Drive.ShouldBeActive kv.2 = true →
                           called (weka.JrpcDeactivateDrives [weka.Drive.Uuid kv.2]) tr))
      with (x := (k, drive)); trivial.
    - intros t' kv. destruct (deactivateDrive_quiet t' kv) as [δ H]. eauto.
    - intros kv tr δ HQ H1. apply called_app_l. auto.
    - intros t' kv. apply deactivateDrive_called.
    - now apply (elem_of_range rt Hrt). }
  destruct (allDrivesInactive rt host); [| exact Hc].
  destruct (deactivateHost_tail_quiet
              (foldl (deactivateDrive mp) t (range rt (hostInfo.drives host))) host)
    as [err Herr].
  eapply called_extends; [exact Herr | now left].
Qed.

Lemma deactivateHost_called_host t host :
  allDrivesInactive rt host = true →
  called (weka.JrpcDeactivateHosts [hostInfo.id host] false)
         (trace (deactivateHost rt mp t host)).
Proof.
  intros Hall. rewrite deactivateHost_unfold. cbv zeta. rewrite Hall.
  destruct (deactivateHost_tail_quiet
              (foldl (deactivateDrive mp) t (range rt (hostInfo.drives host))) host)
    as [err Herr].
  eapply called_extends; [exact Herr |]. right. exists err. right. left.
Qed.

Lemma deactivateHosts_quiet hosts t :
  ∃ δ, extends_by δ [] t (foldl (deactivateHost rt mp) t hosts).
Proof. apply foldl_quiet. intros. apply deactivateHost_quiet. Qed.

Lemma deactivation_issued_app host tr δ :
  deactivation_issued rt host tr → deactivation_issued rt host (tr ++ δ).
Proof.
  intros [Hd Hh]. split.
  - intros k drive Hk Hs. apply called_app_l. eauto.
  - intros Hall. apply called_app_l. auto.
Qed.

Lemma deactivateHosts_issued hosts t host :
  runtime_ok rt → host ∈ hosts →
  deactivation_issued rt host (trace (foldl (deactivateHost rt mp) t hosts)).
Proof.
  intros Hrt. apply (foldl_covers (deactivateHost rt mp) (deactivation_issued rt)).
  - intros t' h. destruct (deactivateHost_quiet t' h) as [δ H]. eauto.
  - apply deactivation_issued_app.
  - intros t' h. split.
    + intros k drive. now apply deactivateHost_called_drive.
    + apply deactivateHost_called_host.
Qed.

End Deactivate.

(** ** Snapshot assembly *)

Lemma foldl_invariant {A B : Type} (P : B → Prop) (f : B → A → B) (l : list A) :
  (∀ b a, a ∈ l → P b → P (f b a)) → ∀ b, P b → P (foldl f b l).
Proof.
  induction l as [| x l IH]; intros Hf b Hb; cbn [foldl]; [exact Hb |].
  apply IH.
  - intros b' a Hin. apply Hf. now right.
  - apply Hf; [left | exact Hb].
Qed.


Lemma attachDrive_alter hosts kv :
  attachDrive hosts kv =
  alter (fun host => hostInfo.with_drives host (<[kv.1 := kv.2]> (hostInfo.drives host)))
        (weka.Drive.HostId kv.2) hosts.
Proof.
  unfold attachDrive. apply map_eq. intros j.
  destruct (hosts !! weka.Drive.HostId kv.2) as [host |] eqn:E.
  - rewrite lookup_insert, lookup_alter. case_decide; [| reflexivity]. now rewrite E.
  - rewrite lookup_alter. case_decide; [| reflexivity]. subst j. now rewrite E.
Qed.

Lemma attachNode_alter hosts kv :
  attachNode hosts kv =
  alter (fun host => hostInfo.with_nodes host (<[kv.1 := kv.2]> (hostInfo.nodes host)))
        (weka.Node.HostId kv.2) hosts.
Proof.
  unfold attachNode. apply map_eq. intros j.
  destruct (hosts !! weka.Node.HostId kv.2) as [host |] eqn:E.
  - rewrite lookup_insert, lookup_alter. case_decide; [| reflexivity]. now rewrite E.
  - rewrite lookup_alter. case_decide; [| reflexivity]. subst j. now rewrite E.
Qed.






(** The hosts of the snapshot are those of the host listing. *)
Lemma buildHosts_dom rt hostsApiList driveApiList nodeApiList :
  runtime_ok rt →
  dom (buildHosts rt hostsApiList driveApiList nodeApiList) = dom hostsApiList.
Proof.
  intros Hrt. unfold buildHosts.
  apply (foldl_invariant (fun hosts : gmap weka.HostId hostInfo.t => dom hosts = dom hostsApiList)).
  { intros hosts kv _ Hd. rewrite attachNode_alter. now rewrite dom_alter_L. }
  apply (foldl_invariant (fun hosts : gmap weka.HostId hostInfo.t => dom hosts = dom hostsApiList)).
  { intros hosts kv _ Hd. rewrite attachDrive_alter. now rewrite dom_alter_L. }
  assert (Hgen : ∀ l (m : gmap weka.HostId hostInfo.t),
             dom (foldl addHost m l) = dom m ∪ list_to_set l.*1).
  { induction l as [| kv l IH]; intros m; cbn [foldl].
    - cbn. now rewrite (right_id_L ∅ (∪)).
    - rewrite IH. unfold addHost. rewrite dom_insert_L, fmap_cons, list_to_set_cons.
      now rewrite (assoc_L (∪)), (comm_L (∪) {[kv.1]}). }
  rewrite Hgen, dom_empty_L, (left_id_L ∅ (∪)).
  apply set_eq. intros k. rewrite elem_of_list_to_set, list_elem_of_fmap, elem_of_dom. split.
  - intros ([k' v] & -> & Hin). apply (elem_of_range rt Hrt) in Hin. now exists v.
  - intros [v Hv]. exists (k, v). split; [reflexivity | now apply (elem_of_range rt Hrt)].
Qed.

(** Every node attached to a host is an entry of the node listing. *)
Lemma buildHosts_nodes rt hostsApiList driveApiList nodeApiList k host nk node :
  runtime_ok rt →
  buildHosts rt hostsApiList driveApiList nodeApiList !! k = Some host →
  hostInfo.nodes host !! nk = Some node → nodeApiList !! nk = Some node.
Proof.
  intros Hrt. unfold buildHosts.
  set (P := fun hosts : gmap weka.HostId hostInfo.t =>
              ∀ k host nk node, hosts !! k = Some host →
                hostInfo.nodes host !! nk = Some node → nodeApiList !! nk = Some node).
  set (Q := fun hosts : gmap weka.HostId hostInfo.t =>
              ∀ k host, hosts !! k = Some host → hostInfo.nodes host = ∅).
  assert (HQ1 : Q (foldl addHost ∅ (range rt hostsApiList))).
  { apply (foldl_invariant Q).
    - intros hosts kv _ Hq k' host'. unfold addHost. rewrite lookup_insert.
      case_decide; [intros [= <-]; reflexivity | apply Hq].
    - intros k' host'. now rewrite lookup_empty. }
  assert (HQ2 : Q (foldl attachDrive (foldl addHost ∅ (range rt hostsApiList))
                     (range rt driveApiList))).
  { apply (foldl_invariant Q); [| exact HQ1].
    intros hosts kv _ Hq k' host'. rewrite attachDrive_alter, lookup_alter.
    case_decide; [| apply Hq]. destruct (hosts !! _) as [h |] eqn:E; [| discriminate].
    cbn. intros [= <-]. cbn. eapply Hq. exact E. }
  assert (HP : P (foldl attachNode
                    (foldl attachDrive (foldl addHost ∅ (range rt hostsApiList))
                       (range rt driveApiList)) (range rt nodeApiList))).
  { apply (foldl_invariant P).
    - intros hosts [nk' n'] Hin Hp k' host' nk'' node''.
      rewrite attachNode_alter, lookup_alter. cbn [fst snd].
      case_decide; [| apply Hp]. destruct (hosts !! _) as [h |] eqn:E; [| discriminate].
      cbn. intros [= <-]. cbn. rewrite lookup_insert. case_decide.
      + subst nk''. intros [= <-]. now apply (elem_of_range rt Hrt).
      + eapply Hp. exact E.
    - intros k' host' nk' node' Hk Hn. rewrite (HQ2 _ _ Hk), lookup_empty in Hn.
      discriminate. }
  intros Hk Hn. eapply HP; eassumption.
Qed.

Lemma buildHosts_fencing rt hostsApiList driveApiList nodeApiList k host :
  runtime_ok rt → fencing_recorded nodeApiList →
  buildHosts rt hostsApiList driveApiList nodeApiList !! k = Some host →
  fencing_recorded (hostInfo.nodes host).
Proof.
  intros Hrt Hwf Hk nk node Hn. apply (Hwf nk).
  eapply buildHosts_nodes; eassumption.
Qed.

(** Every drive attached to a host is an entry of the drive listing. *)
Lemma buildHosts_drives rt hostsApiList driveApiList nodeApiList k host dk drive :
  runtime_ok rt →
  buildHosts rt hostsApiList driveApiList nodeApiList !! k = Some host →
  hostInfo.drives host !! dk = Some drive → driveApiList !! dk = Some drive.
Proof.
  intros Hrt. unfold buildHosts.
  set (P := fun hosts : gmap weka.HostId hostInfo.t =>
              ∀ k host dk drive, hosts !! k = Some host →
                hostInfo.drives host !! dk = Some drive → driveApiList !! dk = Some drive).
  assert (HP1 : P (foldl addHost ∅ (range rt hostsApiList))).
  { apply (foldl_invariant P).
    - intros hosts kv _ Hp k' host' dk' drive'. unfold addHost. rewrite lookup_insert.
      case_decide; [| apply Hp]. intros [= <-]. cbn. now rewrite lookup_empty.
    - intros k' host' dk' drive'. now rewrite lookup_empty. }
  assert (HP2 : P (foldl attachDrive (foldl addHost ∅ (range rt hostsApiList))
                     (range rt driveApiList))).
  { apply (foldl_invariant P); [| exact HP1].
    intros hosts [dk' d'] Hin Hp k' host' dk'' drive''.
    rewrite attachDrive_alter, lookup_alter. cbn [fst snd].
    case_decide; [| apply Hp]. destruct (hosts !! _) as [h |] eqn:E; [| discriminate].
    cbn. intros [= <-]. cbn. rewrite lookup_insert. case_decide.
    - subst dk''. intros [= <-]. now apply (elem_of_range rt Hrt).
    - eapply Hp. exact E. }
  assert (HP3 : P (foldl attachNode
                     (foldl attachDrive (foldl addHost ∅ (range rt hostsApiList))
                        (range rt driveApiList)) (range rt nodeApiList))).
  { apply (foldl_invariant P); [| exact HP2].
    intros hosts kv _ Hp k' host' dk' drive'. rewrite attachNode_alter, lookup_alter.
    case_decide; [| apply Hp]. destruct (hosts !! _) as [h |] eqn:E; [| discriminate].
    cbn. intros [= <-]. cbn. eapply Hp. exact E. }
  intros Hk Hd. eapply HP3; eassumption.
Qed.

(** The hosts of a snapshot that satisfies the data model are fit for the
    classifier. *)
Lemma buildHosts_host_ok rt hostsApiList driveApiList nodeApiList k host :
  runtime_ok rt → fencing_recorded nodeApiList →
  Z.of_nat (size driveApiList) <= GoInt.max_int →
  buildHosts rt hostsApiList driveApiList nodeApiList !! k = Some host →
  host_ok host.
Proof.
  intros Hrt Hwf Hsize Hk. split.
  - assert (Hsub : hostInfo.drives host ⊆ driveApiList).
    { apply map_subseteq_spec. intros dk drive Hd. eapply buildHosts_drives; eassumption. }
    apply map_subseteq_size in Hsub. lia.
  - eapply buildHosts_fencing; eassumption.
Qed.

(** C2.  On a host of the snapshot [deriveHostState] applies the rules in
    order, the first that matches deciding: DEACTIVATING when every drive
    is marked should-be-active = false (which needs a drive) or the
    reported state is deactivating, removing or inactive; otherwise
    UNHEALTHY when the status is down with a management node down for
    more than 120 minutes, or a drive is inactive, or some but not all
    drives are marked; otherwise HEALTHY.  The hosts assembled from
    listings that satisfy the data model are such hosts. *)
Theorem deriveHostState_rules IsManagement rt now :
  runtime_ok rt →
  (∀ host,
     host_ok host →
     (rule_deactivating host →
      deriveHostState IsManagement rt now host = Done DEACTIVATING) ∧
     (¬ rule_deactivating host → rule_unhealthy IsManagement now host →
      deriveHostState IsManagement rt now host = Done UNHEALTHY) ∧
     (¬ rule_deactivating host → ¬ rule_unhealthy IsManagement now host →
      deriveHostState IsManagement rt now host = Done HEALTHY)) ∧
  (∀ hostsApiList driveApiList nodeApiList k host,
     fencing_recorded nodeApiList →
     Z.of_nat (size driveApiList) <= GoInt.max_int →
     buildHosts rt hostsApiList driveApiList nodeApiList !! k = Some host →
     host_ok host).
Proof.
  intros Hrt. split.
  - intros host Hok.
    destruct (deriveHostState_decided IsManagement rt now host Hrt Hok)
      as (s & E & H1 & H2 & H3).
    rewrite E. repeat split; intros; f_equal; auto.
  - intros hostsApiList driveApiList nodeApiList k host Hwf Hsize Hk.
    eapply buildHosts_host_ok; eassumption.
Qed.

(** ** Membership and classification *)

Section Membership.

Variable IsManagement : weka.NodeId → bool.
Variable rt : GoRuntime.
Variable now : time.Time.
Variable info : protocol.HostGroupInfoResponse.
Hypothesis Hrt : runtime_ok rt.

Lemma managementTimedOut_returns host timeout :
  fencing_recorded (hostInfo.nodes host) →
  ∃ b, managementTimedOut IsManagement rt now host timeout = Done b.
Proof.
  intros Hwf. unfold managementTimedOut. rewrite managementTimedOut_loop_spec; [eauto |].
  intros [k n] Hin. apply (elem_of_range rt Hrt) in Hin. cbn. eauto.
Qed.

Lemma deriveHostState_returns host :
  fencing_recorded (hostInfo.nodes host) →
  ∃ s, deriveHostState IsManagement rt now host = Done s.
Proof.
  intros Hwf. unfold deriveHostState.
  destruct (allDisksBeingRemoved rt host); [eauto |].
  destruct (strings.AnyOf _ _); [eauto |].
  destruct (String.eqb (hostInfo.Status host) "DOWN").
  - destruct (managementTimedOut_returns host unhealthyDeactivateTimeout Hwf) as [b ->].
    cbn. destruct b; [eauto |]. destruct (_ || _); eauto.
  - cbn. destruct (_ || _); eauto.
Qed.

(** One round of the loop over the hosts: which lists the host joins. *)
Lemma assignHost_lists acc host acc' :
  assignHost IsManagement rt now info acc host = Done acc' →
  hostsList acc' = hostsList acc ++ (if in_scope info host then [host] else []) ∧
  inactiveHosts acc' = inactiveHosts acc ++ (if cleanup_queued now info host then [host] else []) ∧
  ∃ forced, downHosts acc' = downHosts acc ++ forced ∧ ∀ x, x ∈ forced → x = host.
Proof.
  unfold assignHost, in_scope, cleanup_queued.
  set (acc1 := if String.eqb (hostInfo.State host) "INACTIVE" then _ else _).
  assert (H1 : hostsList acc1 =
               hostsList acc ++
               (if negb (String.eqb (hostInfo.State host) "INACTIVE") &&
                   (belongsToHg host (protocol.Instances info)
                    || (String.eqb (hostInfo.Status host) "DOWN"
                        && belongsToHgIpBased host (protocol.Instances info)))
                then [host] else []) ∧
               inactiveHosts acc1 =
               inactiveHosts acc ++
               (if String.eqb (hostInfo.State host) "INACTIVE" &&
                   (belongsToHgIpBased host (protocol.Instances info)
                    || (String.eqb (protocol.Role info) "backend"
                        && (backendCleanupDelay <?
                            time.Since now (hostInfo.StateChangedTime host))))
                then [host] else []) ∧
               downHosts acc1 = downHosts acc).
  { unfold acc1.
    destruct (String.eqb (hostInfo.State host) "INACTIVE"); cbn [negb andb].
    - destruct (belongsToHgIpBased host _); cbn [orb];
        [now rewrite app_nil_r |].
      destruct (_ && _); cbn; now rewrite ?app_nil_r.
    - destruct (belongsToHg host _); cbn [orb]; [now rewrite app_nil_r |].
      destruct (String.eqb (hostInfo.Status host) "DOWN"); cbn [andb];
        [| now rewrite !app_nil_r].
      destruct (belongsToHgIpBased host _); now rewrite ?app_nil_r. }
  clearbody acc1. destruct H1 as (Hh & Hi & Hd). intros Hrun.
  assert (Hacc : ∃ forced,
             hostsList acc' = hostsList acc1 ∧ inactiveHosts acc' = inactiveHosts acc1 ∧
             downHosts acc' = downHosts acc1 ++ forced ∧ ∀ x, x ∈ forced → x = host).
  { assert (Hsame : Done acc1 = Done acc' →
              ∃ forced,
                hostsList acc' = hostsList acc1 ∧ inactiveHosts acc' = inactiveHosts acc1 ∧
                downHosts acc' = downHosts acc1 ++ forced ∧ ∀ x, x ∈ forced → x = host).
    { intros [= <-]. exists []. rewrite app_nil_r. repeat split. intros x Hx. inversion Hx. }
    destruct (String.eqb (hostInfo.Status host) "DOWN"); [| auto].
    destruct (String.eqb (protocol.Role info) "backend"); [| auto].
    destruct (negb (String.eqb (hostInfo.State host) "INACTIVE")); [| auto].
    destruct (managementTimedOut IsManagement rt now host downKickOutTimeout) as [b | r];
      [| discriminate].
    cbn in Hrun. destruct b; [| auto].
    injection Hrun as <-. exists [host]. cbn. repeat split.
    intros x Hx. now apply list_elem_of_singleton in Hx. }
  destruct Hacc as (forced & Hh' & Hi' & Hd' & Hforced).
  rewrite Hh', Hi', Hd', Hh, Hi, Hd. split; [reflexivity | split; [reflexivity |]].
  exists forced. split; [reflexivity | exact Hforced].
Qed.

Lemma assignHost_returns acc host :
  fencing_recorded (hostInfo.nodes host) →
  ∃ acc', assignHost IsManagement rt now info acc host = Done acc'.
Proof.
  intros Hwf. unfold assignHost.
  set (acc1 := if String.eqb (hostInfo.State host) "INACTIVE" then _ else _).
  clearbody acc1.
  destruct (String.eqb (hostInfo.Status host) "DOWN"); [| eauto].
  destruct (String.eqb (protocol.Role info) "backend"); [| eauto].
  destruct (negb (String.eqb (hostInfo.State host) "INACTIVE")); [| eauto].
  destruct (managementTimedOut_returns host downKickOutTimeout Hwf) as [b ->].
  cbn. destruct b; eauto.
Qed.

Lemma assignHosts_fold l : ∀ acc lists,
  foldl_outcome (assignHost IsManagement rt now info) acc l = Done lists →
  hostsList lists = hostsList acc ++ filter (fun h => in_scope info h = true) l ∧
  inactiveHosts lists =
    inactiveHosts acc ++ filter (fun h => cleanup_queued now info h = true) l ∧
  ∃ forced, downHosts lists = downHosts acc ++ forced ∧ ∀ x, x ∈ forced → x ∈ l.
Proof.
  induction l as [| host l IH]; intros acc lists; cbn [foldl_outcome].
  - intros [= <-]. rewrite !filter_nil, !app_nil_r. repeat split.
    exists []. rewrite app_nil_r. split; [reflexivity | intros x Hx; inversion Hx].
  - destruct (assignHost IsManagement rt now info acc host) as [acc1 | r] eqn:E;
      [| discriminate].
    cbn. intros Hrest. apply assignHost_lists in E as (Hh & Hi & forced & Hd & Hforced).
    apply IH in Hrest as (Hh' & Hi' & forced' & Hd' & Hforced').
    rewrite Hh', Hh, Hi', Hi, Hd', Hd.
    split; [| split].
    + destruct (in_scope info host); cbn; now rewrite <- app_assoc.
    + destruct (cleanup_queued now info host); cbn; now rewrite <- app_assoc.
    + exists (forced ++ forced'). rewrite app_assoc. split; [reflexivity |].
      intros x Hx. apply elem_of_app in Hx as [Hx | Hx].
      * apply Hforced in Hx. subst. left.
      * right. auto.
Qed.

Lemma assignHosts_fold_returns l : ∀ acc,
  (∀ host, host ∈ l → fencing_recorded (hostInfo.nodes host)) →
  ∃ lists, foldl_outcome (assignHost IsManagement rt now info) acc l = Done lists.
Proof.
  induction l as [| host l IH]; intros acc Hwf; cbn [foldl_outcome]; [eauto |].
  destruct (assignHost_returns acc host) as [acc' ->]; [apply Hwf; left |].
  cbn. apply IH. intros h Hh. apply Hwf. now right.
Qed.

(** The classified list is the in-scope list with the states filled in. *)
Lemma calculateHostsState_spec hosts : ∀ classified,
  calculateHostsState IsManagement rt now hosts = Done classified →
  Forall2 (fun host host' =>
             ∃ s, deriveHostState IsManagement rt now host = Done s ∧
                  host' = hostInfo.with_scaleState host s) hosts classified.
Proof.
  induction hosts as [| host hosts IH]; intros classified; cbn [calculateHostsState].
  - intros [= <-]. constructor.
  - destruct (deriveHostState IsManagement rt now host) as [s | r] eqn:E; [| discriminate].
    cbn. destruct (calculateHostsState IsManagement rt now hosts) as [rest | r]; [| discriminate].
    cbn. intros [= <-]. constructor; [eauto | now apply IH].
Qed.

Lemma calculateHostsState_returns hosts :
  (∀ host, host ∈ hosts → fencing_recorded (hostInfo.nodes host)) →
  ∃ classified, calculateHostsState IsManagement rt now hosts = Done classified.
Proof.
  induction hosts as [| host hosts IH]; intros Hwf; cbn [calculateHostsState]; [eauto |].
  destruct (deriveHostState_returns host) as [s ->]; [apply Hwf; left |].
  destruct IH as [rest ->]; [intros h Hh; apply Hwf; now right |].
  cbn. eauto.
Qed.

End Membership.

Section Reconcile.

Variable IsManagement : weka.NodeId → bool.
Variable rt : GoRuntime.
Variable now : time.Time.
Variable info : protocol.HostGroupInfoResponse.
Variable mp : ManagementPlane.
Hypothesis Hrt : runtime_ok rt.

Lemma classify_spec hosts lists :
  classify IsManagement rt now info hosts = Done lists →
  ∃ raw,
    assignHosts IsManagement rt now info hosts = Done raw ∧
    calculateHostsState IsManagement rt now (hostsList raw) = Done (hostsList lists) ∧
    inactiveHosts lists = inactiveHosts raw ∧ downHosts lists = downHosts raw.
Proof.
  unfold classify.
  destruct (assignHosts IsManagement rt now info hosts) as [raw | r]; [| discriminate].
  cbn. destruct (calculateHostsState IsManagement rt now (hostsList raw)) as [c | r] eqn:Ec;
    [| discriminate].
  cbn. intros [= <-]. exists raw. cbn. repeat split; [exact Ec | reflexivity..].
Qed.

Lemma assignHosts_spec hosts raw :
  assignHosts IsManagement rt now info hosts = Done raw →
  hostsList raw = filter (fun h => in_scope info h = true) (range rt hosts).*2 ∧
  inactiveHosts raw = filter (fun h => cleanup_queued now info h = true) (range rt hosts).*2 ∧
  ∀ x, x ∈ downHosts raw → x ∈ (range rt hosts).*2.
Proof.
  unfold assignHosts. intros H. apply assignHosts_fold in H as (Hh & Hi & forced & Hd & Hf).
  cbn in Hh, Hi, Hd. rewrite Hh, Hi, Hd. auto.
Qed.

Lemma range_values (hosts : gmap weka.HostId hostInfo.t) (host : hostInfo.t) :
  host ∈ (range rt hosts).*2 → ∃ k, hosts !! k = Some host.
Proof.
  intros Hin. apply list_elem_of_fmap in Hin as ([k h] & -> & Hin).
  exists k. now apply (elem_of_range rt Hrt).
Qed.

Lemma classify_returns hosts :
  (∀ k host, hosts !! k = Some host → fencing_recorded (hostInfo.nodes host)) →
  ∃ lists, classify IsManagement rt now info hosts = Done lists.
Proof.
  intros Hwf. unfold classify.
  assert (Hwf' : ∀ host, host ∈ (range rt hosts).*2 → fencing_recorded (hostInfo.nodes host)).
  { intros host Hin. apply range_values in Hin as [k Hk]. eauto. }
  destruct (assignHosts_fold_returns IsManagement rt now info Hrt (range rt hosts).*2
              (mkHostLists [] [] []) Hwf') as [raw Hraw].
  unfold assignHosts. rewrite Hraw. cbn.
  apply assignHosts_spec in Hraw as (Hh & _).
  destruct (calculateHostsState_returns IsManagement rt now Hrt (hostsList raw)) as [c ->].
  { intros host Hin. rewrite Hh in Hin. apply list_elem_of_filter in Hin as [_ Hin]. auto. }
  cbn. eauto.
Qed.

Lemma classify_length hosts lists :
  classify IsManagement rt now info hosts = Done lists →
  (length (hostsList lists) ≤ size hosts)%nat.
Proof.
  intros H. apply classify_spec in H as (raw & Hraw & Hc & _).
  apply calculateHostsState_spec in Hc. apply Forall2_length in Hc. rewrite <- Hc.
  apply assignHosts_spec in Hraw as (-> & _).
  etransitivity; [apply length_filter |].
  now rewrite length_fmap, (range_length rt Hrt).
Qed.


Lemma reconcile_returns driveApiList hosts t lists selected :
  classify IsManagement rt now info hosts = Done lists →
  slice_to rt hostInfo.zero
    (sort_Slice rt hostInfo.t (hostLess rt) (hostsList lists))
    (getNumToDeactivate (sort_Slice rt hostInfo.t (hostLess rt) (hostsList lists))
       (protocol.DesiredCapacity info)) = Done selected →
  ∃ δ τ resp,
    reconcile IsManagement rt now info mp driveApiList hosts t =
      (trace t ++ δ, Returned resp None) ∧
    protocol.TransientErrors resp =
      protocol.TransientErrors (response t) ++ reported_failures δ ∧
    protocol.Hosts resp =
      protocol.Hosts (response t) ++
      map toResponseHost (sort_Slice rt hostInfo.t (hostLess rt) (hostsList lists)) ∧
    protocol.ToTerminate resp = protocol.ToTerminate (response t) ++ τ ∧
    (∀ answer, (∀ tr method, mutate_reply mp tr method = answer method) →
       τ = flat_map (terminated_by answer info) (inactiveHosts lists)) ∧
    lifecycle_covers rt driveApiList lists selected (trace t ++ δ).
Proof.
  intros Hclassify Hslice. unfold reconcile. rewrite Hclassify, Hslice.
  set (t1 := removeInactive rt info mp (inactiveHosts lists) t).
  set (t2 := removeOldDrives rt mp driveApiList t1).
  set (t3 := foldl (deactivateHost rt mp) t2 selected).
  set (t4 := foldl (deactivateHost rt mp) t3 (downHosts lists)).
  destruct (removeInactive_extends rt info mp (inactiveHosts lists) t) as (δ1 & τ & E1).
  destruct (removeOldDrives_quiet rt mp driveApiList t1) as (δ2 & E2).
  destruct (deactivateHosts_quiet rt mp selected t2) as (δ3 & E3).
  destruct (deactivateHosts_quiet rt mp (downHosts lists) t3) as (δ4 & E4).
  fold t1 in E1. fold t2 in E2. fold t3 in E3. fold t4 in E4.
  pose proof (extends_by_trans _ _ _ _ _ _ _ E3 E4) as E34.
  pose proof (extends_by_trans _ _ _ _ _ _ _ E2 E34) as E24.
  pose proof (extends_by_trans _ _ _ _ _ _ _ E1 E24) as E14.
  cbn [app] in E34, E24. rewrite app_nil_r in E14.
  destruct E14 as (Htr & Herr & Hhosts & Hterm).
  exists (δ1 ++ δ2 ++ δ3 ++ δ4), τ. eexists. split; [| split; [| split; [| split; [| split]]]].
  - cbn [appendHosts trace response]. rewrite Htr. reflexivity.
  - cbn. exact Herr.
  - cbn. now rewrite Hhosts.
  - cbn. exact Hterm.
  - intros answer Hanswer.
    destruct (removeInactive_terminated rt info mp answer (inactiveHosts lists) Hanswer t)
      as (δ1' & _ & _ & _ & Hterm').
    fold t1 in Hterm'. destruct E1 as (_ & _ & _ & Hterm1).
    rewrite Hterm1 in Hterm'. now apply app_inv_head in Hterm'.
  - rewrite <- Htr. split; [| split].
    + intros host Hin. destruct E24 as (Htr24 & _). rewrite Htr24.
      apply removal_issued_app. now apply removeInactive_issued.
    + intros k drive Hk Horphan. eapply called_extends; [exact E34 |]. left.
      now apply (removeOldDrives_called rt mp driveApiList t1 k).
    + intros host [Hin | Hin].
      * destruct E4 as (Htr4 & _). rewrite Htr4. apply deactivation_issued_app.
        now apply deactivateHosts_issued.
      * now apply deactivateHosts_issued.
Qed.

(** Whatever happens to the selection, the orphan drives were dealt with
    before it. *)
Lemma reconcile_orphans driveApiList hosts t lists k drive :
  classify IsManagement rt now info hosts = Done lists →
  driveApiList !! k = Some drive → orphan_drive drive →
  called (weka.JrpcRemoveDrive [weka.Drive.Uuid drive])
         (reconcile IsManagement rt now info mp driveApiList hosts t).1.
Proof.
  intros Hclassify Hk Horphan. unfold reconcile. rewrite Hclassify.
  set (t1 := removeInactive rt info mp (inactiveHosts lists) t).
  pose proof (removeOldDrives_called rt mp driveApiList t1 k drive Hrt Hk Horphan) as Hc.
  destruct (slice_to _ _ _ _) as [selected | r]; cbn [fst]; [| exact Hc].
  destruct (deactivateHosts_quiet rt mp selected (removeOldDrives rt mp driveApiList t1))
    as (δ3 & E3).
  destruct (deactivateHosts_quiet rt mp (downHosts lists)
              (foldl (deactivateHost rt mp) (removeOldDrives rt mp driveApiList t1) selected))
    as (δ4 & E4).
  cbn [appendHosts trace].
  eapply called_extends; [exact E4 |]. left.
  eapply called_extends; [exact E3 |]. now left.
Qed.

End Reconcile.

(** ** The tick *)

Lemma buildHosts_no_hosts rt driveApiList nodeApiList :
  runtime_ok rt → buildHosts rt ∅ driveApiList nodeApiList = ∅.
Proof.
  intros Hrt. unfold buildHosts. rewrite (range_empty rt Hrt). cbn [foldl].
  apply (foldl_invariant (fun hosts : gmap weka.HostId hostInfo.t => hosts = ∅)).
  { intros hosts kv _ ->. unfold attachNode. now rewrite lookup_empty. }
  apply (foldl_invariant (fun hosts : gmap weka.HostId hostInfo.t => hosts = ∅)).
  { intros hosts kv _ ->. unfold attachDrive. now rewrite lookup_empty. }
  reflexivity.
Qed.

Lemma classify_no_hosts IsManagement rt now info :
  runtime_ok rt →
  classify IsManagement rt now info ∅ = Done (mkHostLists [] [] []).
Proof.
  intros Hrt. unfold classify, assignHosts. now rewrite (range_empty rt Hrt).
Qed.

Lemma snapshot_queries_quiet info : reported_failures (snapshot_queries info) = [].
Proof.
  unfold snapshot_queries. now destruct (String.eqb (protocol.Role info) "backend").
Qed.

(** C7.  Once the snapshot is obtained and the classification of the
    hosts went through, every drive of the drive listing with host id -1
    and status INACTIVE gets its remove-drive call, whatever the plane
    answers and whatever the host lists hold -- in particular when the
    data model's invariant on nodes holds, and when the snapshot has no
    host at all, so that the three host lists are empty. *)
Theorem orphan_drives_are_removed
    IsManagement rt now info mp hostsApiList driveApiList nodeApiList k drive :
  runtime_ok rt →
  snapshot_of info mp hostsApiList driveApiList nodeApiList →
  driveApiList !! k = Some drive → orphan_drive drive →
  (∀ lists,
     classify IsManagement rt now info
       (buildHosts rt hostsApiList driveApiList nodeApiList) = Done lists →
     called (weka.JrpcRemoveDrive [weka.Drive.Uuid drive])
            (Handler IsManagement rt now info mp).1) ∧
  (fencing_recorded nodeApiList →
   called (weka.JrpcRemoveDrive [weka.Drive.Uuid drive])
          (Handler IsManagement rt now info mp).1) ∧
  (hostsApiList = ∅ →
   classify IsManagement rt now info
     (buildHosts rt hostsApiList driveApiList nodeApiList) = Done (mkHostLists [] [] []) ∧
   called (weka.JrpcRemoveDrive [weka.Drive.Uuid drive])
          (Handler IsManagement rt now info mp).1).
Proof.
  intros Hrt Hsnap Hk Horphan.
  rewrite (Handler_snapshot _ _ _ _ _ _ _ _ Hsnap).
  assert (Hgen : ∀ lists,
     classify IsManagement rt now info
       (buildHosts rt hostsApiList driveApiList nodeApiList) = Done lists →
     called (weka.JrpcRemoveDrive [weka.Drive.Uuid drive])
       (reconcile IsManagement rt now info mp driveApiList
          (buildHosts rt hostsApiList driveApiList nodeApiList)
          (mkTick (snapshot_queries info) protocol.zero)).1).
  { intros lists Hc. now apply (reconcile_orphans _ _ _ _ _ Hrt _ _ _ lists k). }
  split; [exact Hgen | split].
  - intros Hwf.
    destruct (classify_returns IsManagement rt now info Hrt
                (buildHosts rt hostsApiList driveApiList nodeApiList)) as [lists Hc].
    { intros k' host Hk'. eapply buildHosts_fencing; eassumption. }
    now apply (Hgen lists).
  - intros ->.
    assert (Hc : classify IsManagement rt now info (buildHosts rt ∅ driveApiList nodeApiList)
                 = Done (mkHostLists [] [] [])).
    { rewrite (buildHosts_no_hosts rt _ _ Hrt). now apply classify_no_hosts. }
    split; [exact Hc | now apply (Hgen _ Hc)].
Qed.

(** C8.  Once the snapshot is obtained, whether the tick returns does not
    depend on what the plane answers to the mutating calls: when the
    classification and the selection go through, the tick returns a
    response and no error; every failed mutating call is in the response's
    transient errors under the name of its operation, in the order of the
    calls, and nothing else is; every queued inactive host still gets its
    remove-host call, every orphan drive its remove-drive call, every
    selected and every forced-down host its deactivation calls; and every
    in-scope host is reported.  One failure does cut processing short: a
    queued host whose own remove-host call fails keeps its drives, which
    get their remove-drive calls only when that call is acknowledged.
    The classification and the selection do go through on a snapshot
    that satisfies the data model's invariant, with a desired capacity
    that is not negative. *)
Theorem mutating_failures_are_transient
    IsManagement rt now info mp hostsApiList driveApiList nodeApiList :
  runtime_ok rt →
  snapshot_of info mp hostsApiList driveApiList nodeApiList →
  (∀ lists selected,
     classify IsManagement rt now info
       (buildHosts rt hostsApiList driveApiList nodeApiList) = Done lists →
     slice_to rt hostInfo.zero
       (sort_Slice rt hostInfo.t (hostLess rt) (hostsList lists))
       (getNumToDeactivate (sort_Slice rt hostInfo.t (hostLess rt) (hostsList lists))
          (protocol.DesiredCapacity info)) = Done selected →
     ∃ tr resp,
       Handler IsManagement rt now info mp = (tr, Returned resp None) ∧
       protocol.TransientErrors resp = reported_failures tr ∧
       protocol.Hosts resp =
         map toResponseHost (sort_Slice rt hostInfo.t (hostLess rt) (hostsList lists)) ∧
       lifecycle_covers rt driveApiList lists selected tr) ∧
  (fencing_recorded nodeApiList →
   Z.of_nat (size hostsApiList) <= GoInt.max_int →
   0 <= protocol.DesiredCapacity info → GoInt.in_range (protocol.DesiredCapacity info) →
   ∃ lists,
     classify IsManagement rt now info
       (buildHosts rt hostsApiList driveApiList nodeApiList) = Done lists ∧
     slice_to rt hostInfo.zero
       (sort_Slice rt hostInfo.t (hostLess rt) (hostsList lists))
       (getNumToDeactivate (sort_Slice rt hostInfo.t (hostLess rt) (hostsList lists))
          (protocol.DesiredCapacity info)) =
     Done (firstn
             (Z.to_nat (getNumToDeactivate
                          (sort_Slice rt hostInfo.t (hostLess rt) (hostsList lists))
                          (protocol.DesiredCapacity info)))
             (sort_Slice rt hostInfo.t (hostLess rt) (hostsList lists)))).
Proof.
  intros Hrt Hsnap. split.
  - intros lists selected Hc Hslice.
    rewrite (Handler_snapshot _ _ _ _ _ _ _ _ Hsnap).
    destruct (reconcile_returns IsManagement rt now info mp Hrt driveApiList _
                (mkTick (snapshot_queries info) protocol.zero) lists _ Hc Hslice)
      as (δ & τ & resp & Hrun & Herr & Hhosts & _ & _ & Hcov).
    exists (snapshot_queries info ++ δ), resp. cbn [trace response] in *.
    split; [exact Hrun | split; [| split; [exact Hhosts | exact Hcov]]].
    rewrite Herr, reported_failures_app, snapshot_queries_quiet. reflexivity.
  - intros Hwf Hsize HT HTr.
    destruct (classify_returns IsManagement rt now info Hrt
                (buildHosts rt hostsApiList driveApiList nodeApiList)) as [lists Hc].
    { intros k' host Hk'. eapply buildHosts_fencing; eassumption. }
    exists lists. split; [exact Hc |]. apply slice_to_selection; trivial.
    rewrite (sort_Slice_perm rt Hrt).
    pose proof (classify_length IsManagement rt now info Hrt _ _ Hc) as Hl.
    rewrite <- size_dom, (buildHosts_dom rt _ _ _ Hrt), size_dom in Hl. lia.
Qed.

(** ** Two runs of the tick *)

Lemma selectInstanceByIp_none host instances :
  belongsToHgIpBased host instances = false →
  selectInstanceByIp (hostInfo.HostIp host) instances = None.
Proof.
  unfold belongsToHgIpBased, selectInstanceByIp.
  induction instances as [| i instances IH]; cbn; [reflexivity |].
  rewrite (String.eqb_sym (protocol.PrivateIp i)).
  destruct (String.eqb (hostInfo.HostIp host) (protocol.PrivateIp i)); cbn; [discriminate |].
  exact IH.
Qed.


Lemma reconcile_inv IsManagement rt now info mp driveApiList hosts t tr resp err :
  reconcile IsManagement rt now info mp driveApiList hosts t = (tr, Returned resp err) →
  ∃ lists selected,
    classify IsManagement rt now info hosts = Done lists ∧
    slice_to rt hostInfo.zero
      (sort_Slice rt hostInfo.t (hostLess rt) (hostsList lists))
      (getNumToDeactivate (sort_Slice rt hostInfo.t (hostLess rt) (hostsList lists))
         (protocol.DesiredCapacity info)) = Done selected.
Proof.
  unfold reconcile.
  destruct (classify IsManagement rt now info hosts) as [lists | r]; [| discriminate].
  destruct (slice_to _ _ _ _) as [selected | r] eqn:E; [| discriminate].
  intros _. eauto.
Qed.





(** ** The theorems at work on the sample cluster *)

Lemma fencing_recordedb_sound nodes :
  fencing_recordedb nodes = true → fencing_recorded nodes.
Proof.
  unfold fencing_recordedb, fencing_recorded. rewrite forallb_forall.
  intros Hall k n Hk Hdown.
  assert (Hin : In (k, n) (map_to_list nodes)).
  { now apply list_elem_of_In, elem_of_map_to_list. }
  apply Hall in Hin. cbn in Hin. rewrite Hdown in Hin. cbn in Hin.
  now apply bool_decide_eq_true in Hin.
Qed.

Lemma fencing_recorded_empty : fencing_recorded ∅.
Proof. intros k n Hk. rewrite lookup_empty in Hk. discriminate. Qed.

Lemma sample_snapshot fail :
  snapshot_of (Sample.info 3) (Sample.plane Sample.started fail)
    Sample.hosts Sample.drives Sample.nodes.
Proof. constructor; [exists Sample.started; split |..]; reflexivity. Qed.

Lemma sample_fencing : fencing_recorded Sample.nodes.
Proof. apply fencing_recordedb_sound. vm_compute. reflexivity. Qed.

Lemma deriveHostState_rules_witness :
  deriveHostState Sample.IsManagement forward_runtime Sample.clock Sample.leaving
    = Done DEACTIVATING ∧
  deriveHostState Sample.IsManagement forward_runtime Sample.clock Sample.degraded
    = Done UNHEALTHY ∧
  deriveHostState Sample.IsManagement forward_runtime Sample.clock Sample.idle
    = Done HEALTHY ∧
  (∀ k host,
     buildHosts forward_runtime Sample.hosts Sample.drives Sample.nodes !! k = Some host →
     host_ok host).
Proof.
  assert (Hok : ∀ host, hostInfo.nodes host = ∅ →
                        (size (hostInfo.drives host) ≤ 1)%nat → host_ok host).
  { intros host Hn Hs. split.
    - rewrite max_int_val. lia.
    - rewrite Hn. apply fencing_recorded_empty. }
  assert (Hactive : ∀ host, hostInfo.State host = "ACTIVE" → ¬ state_is_leaving host).
  { intros host Hs [H | [H | H]]; rewrite Hs in H; discriminate. }
  pose proof (deriveHostState_rules Sample.IsManagement forward_runtime Sample.clock
                forward_runtime_ok) as [Hrules Hsnapshot].
  split; [| split; [| split]].
  - apply (proj1 (Hrules Sample.leaving (Hok Sample.leaving eq_refl (Nat.le_0_l 1)))).
    right. right. left. reflexivity.
  - apply (proj1 (proj2 (Hrules Sample.degraded
                           (Hok Sample.degraded eq_refl (Nat.le_refl 1))))).
    + intros [[_ Hall] | Hs]; [| now apply (Hactive Sample.degraded)].
      specialize (Hall 71 (weka.Drive.mk 7 "INACTIVE" true "uuid-71") eq_refl).
      discriminate.
    + right. left. exists 71, (weka.Drive.mk 7 "INACTIVE" true "uuid-71").
      split; reflexivity.
  - apply (proj2 (proj2 (Hrules Sample.idle (Hok Sample.idle eq_refl (Nat.le_0_l 1))))).
    + intros [[Hne _] | Hs]; [now apply Hne | now apply (Hactive Sample.idle)].
    + intros [[Hdown _] | [(k & d & Hk & _) | [(k & d & Hk & _) _]]];
        [discriminate | |]; cbn in Hk; rewrite lookup_empty in Hk; discriminate.
  - intros k host. apply (Hsnapshot Sample.hosts Sample.drives Sample.nodes k host).
    + exact sample_fencing.
    + vm_compute. discriminate.
Defined.

Lemma driveless_active_host_is_healthy_witness :
  deriveHostState Sample.IsManagement backward_runtime Sample.clock Sample.idle
    = Done HEALTHY.
Proof.
  apply (proj1 (proj2 (driveless_active_host_is_healthy Sample.IsManagement
                         backward_runtime Sample.clock Sample.idle
                         backward_runtime_ok eq_refl))); reflexivity.
Defined.

Lemma hostLess_priority_witness :
  numNotHealthyDrives backward_runtime Sample.worn = 1 ∧
  hostLess forward_runtime Sample.worn Sample.sound = true ∧
  sort_Slice forward_runtime hostInfo.t (hostLess forward_runtime)
    [hostInfo.with_scaleState Sample.degraded HEALTHY;
     hostInfo.with_scaleState Sample.degraded UNHEALTHY;
     hostInfo.with_scaleState Sample.degraded DEACTIVATING] =
  [hostInfo.with_scaleState Sample.degraded DEACTIVATING;
   hostInfo.with_scaleState Sample.degraded UNHEALTHY;
   hostInfo.with_scaleState Sample.degraded HEALTHY].
Proof.
  assert (Hworn : Z.of_nat (size (hostInfo.drives Sample.worn)) <= GoInt.max_int)
    by (vm_compute; discriminate).
  assert (Hsound : Z.of_nat (size (hostInfo.drives Sample.sound)) <= GoInt.max_int)
    by (vm_compute; discriminate).
  split; [| split].
  - rewrite (proj1 (proj2 (hostLess_priority backward_runtime backward_runtime_ok))
               Sample.worn Hworn).
    vm_compute. reflexivity.
  - apply (proj1 (proj2 (proj2 (hostLess_priority forward_runtime forward_runtime_ok)))
             Sample.worn Sample.sound Hworn Hsound).
    right. split; [reflexivity |]. left. vm_compute. reflexivity.
  - apply (proj2 (proj2 (proj2 (proj2
             (hostLess_priority forward_runtime forward_runtime_ok))))).
Defined.

Lemma gate_and_snapshot_failures_abort_witness :
  (∃ err,
     isAllowedToScale Sample.stopped = Some err ∧
     Handler Sample.IsManagement forward_runtime Sample.clock (Sample.info 3)
       (Sample.plane Sample.stopped false) =
     ([EvCall weka.JrpcStatus None], Returned protocol.zero (Some err))) ∧
  (∃ tr err,
     Handler Sample.IsManagement forward_runtime Sample.clock (Sample.info 3)
       Sample.unreachable_plane = (tr, Returned protocol.zero (Some err)) ∧
     only_queries tr) ∧
  (Handler Sample.IsManagement forward_runtime Sample.clock (Sample.info 3)
     Sample.unfenced_plane =
   (snapshot_queries (Sample.info 3),
    Panicked "invalid memory address or nil pointer dereference") ∧
   only_queries (snapshot_queries (Sample.info 3))).
Proof.
  split; [| split].
  - apply (proj1 (gate_and_snapshot_failures_abort Sample.IsManagement forward_runtime
                    Sample.clock (Sample.info 3) (Sample.plane Sample.stopped false))
             Sample.stopped eq_refl).
    left. discriminate.
  - apply (proj1 (proj2 (gate_and_snapshot_failures_abort Sample.IsManagement
                           forward_runtime Sample.clock (Sample.info 3)
                           Sample.unreachable_plane))).
    right. right. left. exists "no endpoint left". reflexivity.
  - apply (proj2 (proj2 (gate_and_snapshot_failures_abort Sample.IsManagement
                           forward_runtime Sample.clock (Sample.info 3)
                           Sample.unfenced_plane))
             {[ 1 := Sample.host "ACTIVE" "DOWN" "10.0.0.1" "i-1" 10 ]} ∅
             {[ 100 := weka.Node.mk 1 "DOWN" None ]}).
    + constructor; [exists Sample.started; split |..]; reflexivity.
    + vm_compute. reflexivity.
Defined.

Lemma orphan_drives_are_removed_witness :
  called (weka.JrpcRemoveDrive ["uuid-90"])
    (Handler Sample.IsManagement forward_runtime Sample.clock (Sample.info 3)
       (Sample.plane Sample.started true)).1 ∧
  called (weka.JrpcRemoveDrive ["uuid-90"])
    (Handler Sample.IsManagement backward_runtime Sample.clock (Sample.info (-1))
       (Sample.plane Sample.started false)).1 ∧
  called (weka.JrpcRemoveDrive ["uuid-90"])
    (Handler Sample.IsManagement forward_runtime Sample.clock (Sample.info 3)
       Sample.hostless_plane).1.
Proof.
  split; [| split].
  - eapply (proj1 (orphan_drives_are_removed Sample.IsManagement forward_runtime
                       Sample.clock (Sample.info 3) (Sample.plane Sample.started true)
                       Sample.hosts Sample.drives Sample.nodes 90
                       (weka.Drive.mk (-1) "INACTIVE" false "uuid-90")
                       forward_runtime_ok (sample_snapshot true) eq_refl
                       (conj eq_refl eq_refl))).
    vm_compute. reflexivity.
  - apply (proj1 (proj2 (orphan_drives_are_removed Sample.IsManagement backward_runtime
                       Sample.clock (Sample.info (-1)) (Sample.plane Sample.started false)
                       Sample.hosts Sample.drives Sample.nodes 90
                       (weka.Drive.mk (-1) "INACTIVE" false "uuid-90")
                       backward_runtime_ok
                       (mkSnapshotOf (Sample.info (-1)) (Sample.plane Sample.started false)
                          Sample.hosts Sample.drives Sample.nodes
                          (ex_intro _ Sample.started (conj eq_refl eq_refl))
                          eq_refl eq_refl eq_refl)
                       eq_refl (conj eq_refl eq_refl)))).
    exact sample_fencing.
  - apply (proj2 (proj2 (orphan_drives_are_removed Sample.IsManagement forward_runtime
                       Sample.clock (Sample.info 3) Sample.hostless_plane
                       ∅ Sample.drives Sample.nodes 90
                       (weka.Drive.mk (-1) "INACTIVE" false "uuid-90")
                       forward_runtime_ok
                       (mkSnapshotOf (Sample.info 3) Sample.hostless_plane
                          ∅ Sample.drives Sample.nodes
                          (ex_intro _ Sample.started (conj eq_refl eq_refl))
                          eq_refl eq_refl eq_refl)
                       eq_refl (conj eq_refl eq_refl)))).
    reflexivity.
Defined.

Lemma mutating_failures_are_transient_witness :
  ∃ tr resp,
    Handler Sample.IsManagement forward_runtime Sample.clock (Sample.info 3)
      (Sample.plane Sample.started true) = (tr, Returned resp None) ∧
    protocol.TransientErrors resp = reported_failures tr.
Proof.
  pose proof (mutating_failures_are_transient Sample.IsManagement forward_runtime
                Sample.clock (Sample.info 3) (Sample.plane Sample.started true)
                Sample.hosts Sample.drives Sample.nodes
                forward_runtime_ok (sample_snapshot true)) as [Hrun Hgoes].
  destruct Hgoes as (lists & Hc & Hslice).
  - exact sample_fencing.
  - vm_compute. discriminate.
  - vm_compute. discriminate.
  - split; vm_compute; discriminate.
  - destruct (Hrun lists _ Hc Hslice) as (tr & resp & Hret & Herr & _).
    exists tr, resp. split; [exact Hret | exact Herr].
Defined.

(** C8, as stated, fails for the host whose removal is refused: the tick
    returns, records the failure and goes on to remove host 4 and the
    orphan drive, but host 3, which is queued and owns drive uuid-31,
    keeps that drive, and its instance is not offered for termination. *)
Lemma failed_removal_skips_drives :
  ∃ tr resp host,
    Handler Sample.IsManagement forward_runtime Sample.clock (Sample.info 3)
      Sample.refusing_plane = (tr, Returned resp None) ∧
    buildHosts forward_runtime Sample.hosts Sample.drives Sample.nodes !! 3 = Some host ∧
    cleanup_queued Sample.clock (Sample.info 3) host = true ∧
    hostInfo.drives host !! 31 = Some (weka.Drive.mk 3 "INACTIVE" false "uuid-31") ∧
    protocol.TransientErrors resp = ["removeInactive:refused"] ∧
    called (weka.JrpcRemoveHost 3 true) tr ∧
    called (weka.JrpcRemoveHost 4 true) tr ∧
    called (weka.JrpcRemoveDrive ["uuid-90"]) tr ∧
    ¬ called (weka.JrpcRemoveDrive ["uuid-31"]) tr ∧
    ¬ removal_regardless host tr ∧
    protocol.ToTerminate resp = [protocol.mkHgInstance "i-4" "10.0.0.4"].
Proof.
  assert (Hnot : ¬ called (weka.JrpcRemoveDrive ["uuid-31"])
                   (Handler Sample.IsManagement forward_runtime Sample.clock (Sample.info 3)
                      Sample.refusing_plane).1).
  { intros [err Hin]. apply list_elem_of_In in Hin. vm_compute in Hin.
    repeat (destruct Hin as [Hin | Hin]; [discriminate Hin |]). exact Hin. }
  eexists _, _, _.
  split; [vm_compute; reflexivity |].
  split; [vm_compute; reflexivity |].
  split; [vm_compute; reflexivity |].
  split; [vm_compute; reflexivity |].
  split; [vm_compute; reflexivity |].
  split; [exists (Some "refused"); apply list_elem_of_In; vm_compute; auto 20 |].
  split; [exists None; apply list_elem_of_In; vm_compute; auto 20 |].
  split; [exists None; apply list_elem_of_In; vm_compute; auto 20 |].
  split; [exact Hnot |].
  split; [| vm_compute; reflexivity].
  intros [_ Hall]. apply Hnot.
  apply (Hall 31 (weka.Drive.mk 3 "INACTIVE" false "uuid-31")).
  vm_compute. reflexivity.
Qed.


(** * Further properties of scale.go and protocol.go *)

(** ** Looking an instance up by its IP *)

Lemma belongsToHgIpBased_spec info host :
  belongsToHgIpBased host (protocol.Instances info) = true ↔ group_has_ip info host.
Proof.
  unfold belongsToHgIpBased, group_has_ip. rewrite existsb_exists. split.
  - intros (i & Hin & Heq). apply String.eqb_eq in Heq. exists i.
    split; [now apply list_elem_of_In | now symmetry].
  - intros (i & Hin & Heq). exists i. split; [now apply list_elem_of_In |].
    apply String.eqb_eq. now symmetry.
Qed.

Lemma belongsToHg_spec info host :
  belongsToHg host (protocol.Instances info) = true ↔ group_has_instance info host.
Proof.
  unfold belongsToHg, group_has_instance. rewrite existsb_exists. split.
  - intros (i & Hin & Heq). apply String.eqb_eq in Heq. exists i.
    split; [now apply list_elem_of_In | now symmetry].
  - intros (i & Hin & Heq). exists i. split; [now apply list_elem_of_In |].
    apply String.eqb_eq. now symmetry.
Qed.

Lemma selectInstanceByIp_split ip instances i :
  selectInstanceByIp ip instances = Some i →
  ∃ before after,
    instances = before ++ i :: after ∧ protocol.PrivateIp i = ip ∧
    ∀ j, j ∈ before → protocol.PrivateIp j ≠ ip.
Proof.
  unfold selectInstanceByIp. induction instances as [| x l IH]; cbn; [discriminate |].
  destruct (String.eqb_spec (protocol.PrivateIp x) ip) as [Heq | Hne].
  - intros [= <-]. exists [], l. repeat split; trivial. intros j Hj. inversion Hj.
  - intros Hfind. destruct (IH Hfind) as (before & after & -> & Hip & Hbefore).
    exists (x :: before), after. repeat split; trivial.
    intros j Hj. apply elem_of_cons in Hj as [-> | Hj]; auto.
Qed.

Lemma selectInstanceByIp_None ip instances :
  selectInstanceByIp ip instances = None ↔
  ∀ j, j ∈ instances → protocol.PrivateIp j ≠ ip.
Proof.
  unfold selectInstanceByIp. induction instances as [| x l IH]; cbn.
  - split; [intros _ j Hj; inversion Hj | reflexivity].
  - destruct (String.eqb_spec (protocol.PrivateIp x) ip) as [Heq | Hne].
    + split; [discriminate |]. intros Hall. exfalso. apply (Hall x); [left | exact Heq].
    + rewrite IH. split.
      * intros Hall j Hj. apply elem_of_cons in Hj as [-> | Hj]; auto.
      * intros Hall j Hj. apply Hall. now right.
Qed.

(** X1.  [selectInstanceByIp] returns the first instance of the list with
    the given private IP, and nothing exactly when no instance has it; a
    host belongs to the group by IP exactly when the lookup of its IP
    finds an instance. *)
Theorem selectInstanceByIp_first :
  (∀ ip instances i,
     selectInstanceByIp ip instances = Some i →
     ∃ before after,
       instances = before ++ i :: after ∧ protocol.PrivateIp i = ip ∧
       ∀ j, j ∈ before → protocol.PrivateIp j ≠ ip) ∧
  (∀ ip instances,
     selectInstanceByIp ip instances = None ↔
     ∀ j, j ∈ instances → protocol.PrivateIp j ≠ ip) ∧
  (∀ host instances,
     belongsToHgIpBased host instances = true ↔
     is_Some (selectInstanceByIp (hostInfo.HostIp host) instances)).
Proof.
  split; [apply selectInstanceByIp_split | split; [apply selectInstanceByIp_None |]].
  intros host instances. split.
  - intros Hb. destruct (selectInstanceByIp _ _) as [i |] eqn:E; [eauto |].
    exfalso. rewrite selectInstanceByIp_None in E.
    unfold belongsToHgIpBased in Hb. apply existsb_exists in Hb as (i & Hin & Heq).
    apply String.eqb_eq in Heq. apply (E i); [now apply list_elem_of_In | now symmetry].
  - intros [i Hi]. destruct (belongsToHgIpBased host instances) eqn:Hb; [reflexivity |].
    apply selectInstanceByIp_none in Hb. congruence.
Qed.

Lemma selectInstanceByIp_first_witness :
  ∃ before after,
    Sample.instances = before ++ protocol.mkHgInstance "i-3" "10.0.0.3" :: after ∧
    protocol.PrivateIp (protocol.mkHgInstance "i-3" "10.0.0.3") = "10.0.0.3" ∧
    ∀ j, j ∈ before → protocol.PrivateIp j ≠ "10.0.0.3".
Proof.
  apply (proj1 selectInstanceByIp_first "10.0.0.3" Sample.instances). reflexivity.
Defined.

(** ** Recording transient errors *)

Lemma AddTransientErrors_spec errs : ∀ r caller,
  protocol.TransientErrors (protocol.AddTransientErrors r errs caller) =
    protocol.TransientErrors r ++ map (fun err => caller +:+ ":" +:+ err) errs ∧
  protocol.Hosts (protocol.AddTransientErrors r errs caller) = protocol.Hosts r ∧
  protocol.ToTerminate (protocol.AddTransientErrors r errs caller) = protocol.ToTerminate r.
Proof.
  unfold protocol.AddTransientErrors.
  induction errs as [| err errs IH]; intros r caller; cbn [foldl map].
  - now rewrite app_nil_r.
  - destruct (IH (protocol.mkScaleResponse (protocol.Hosts r) (protocol.ToTerminate r)
                    (protocol.TransientErrors r ++ [caller +:+ ":" +:+ err])) caller)
      as (-> & -> & ->).
    cbn. now rewrite <- app_assoc.
Qed.

(** X2.  [ScaleResponse.AddTransientErrors] appends one message per
    error, each under the caller's name and in the order given, keeps
    what was recorded before, touches neither the host list nor the
    terminate candidates, and adding a batch in two parts is adding it
    whole; with one error it is [AddTransientError]. *)
Theorem AddTransientErrors_appends r errs errs' caller :
  protocol.TransientErrors (protocol.AddTransientErrors r errs caller) =
    protocol.TransientErrors r ++ map (fun err => caller +:+ ":" +:+ err) errs ∧
  protocol.Hosts (protocol.AddTransientErrors r errs caller) = protocol.Hosts r ∧
  protocol.ToTerminate (protocol.AddTransientErrors r errs caller) = protocol.ToTerminate r ∧
  protocol.AddTransientErrors r (errs ++ errs') caller =
    protocol.AddTransientErrors (protocol.AddTransientErrors r errs caller) errs' caller ∧
  (∀ err, protocol.AddTransientErrors r [err] caller = protocol.AddTransientError r err caller).
Proof.
  destruct (AddTransientErrors_spec errs r caller) as (H1 & H2 & H3).
  split; [exact H1 | split; [exact H2 | split; [exact H3 | split]]].
  - unfold protocol.AddTransientErrors. apply foldl_app.
  - reflexivity.
Qed.

Lemma Terminated_AddTransientErrors_spec errs : ∀ r,
  protocol.TerminatedTransientErrors (protocol.Terminated_AddTransientErrors r errs) =
    protocol.TerminatedTransientErrors r ++ errs ∧
  protocol.TerminatedInstances (protocol.Terminated_AddTransientErrors r errs) =
    protocol.TerminatedInstances r.
Proof.
  unfold protocol.Terminated_AddTransientErrors.
  induction errs as [| err errs IH]; intros r; cbn [foldl].
  - now rewrite app_nil_r.
  - destruct (IH (protocol.mkTerminatedInstancesResponse (protocol.TerminatedInstances r)
                    (protocol.TerminatedTransientErrors r ++ [err]))) as (-> & ->).
    cbn. now rewrite <- app_assoc.
Qed.

Lemma append_length s1 s2 :
  String.length (s1 +:+ s2) = (String.length s1 + String.length s2)%nat.
Proof. induction s1 as [| c s1 IH]; simpl; [reflexivity | now f_equal]. Qed.

(** X3.  [TerminatedInstancesResponse.AddTransientErrors] appends the
    messages as they are, without a caller's name, and keeps the
    instances; so the message it records for an error is never the one
    [AddTransientError] records for the same error. *)
Theorem Terminated_AddTransientErrors_untagged r errs :
  protocol.TerminatedTransientErrors (protocol.Terminated_AddTransientErrors r errs) =
    protocol.TerminatedTransientErrors r ++ errs ∧
  protocol.TerminatedInstances (protocol.Terminated_AddTransientErrors r errs) =
    protocol.TerminatedInstances r ∧
  (∀ err caller,
     protocol.Terminated_AddTransientErrors r [err] ≠
     protocol.Terminated_AddTransientError r err caller).
Proof.
  destruct (Terminated_AddTransientErrors_spec errs r) as (H1 & H2).
  split; [exact H1 | split; [exact H2 |]].
  intros err caller Heq.
  apply (f_equal protocol.TerminatedTransientErrors) in Heq. cbn in Heq.
  apply app_inv_head in Heq. injection Heq as Heq.
  apply (f_equal String.length) in Heq. rewrite !append_length in Heq. cbn in Heq. lia.
Qed.

(** ** The checks on a host's drives *)

Lemma allDrivesInactive_spec rt host :
  runtime_ok rt →
  allDrivesInactive rt host = true ↔
  ∀ k d, hostInfo.drives host !! k = Some d → weka.Drive.Status d = "INACTIVE".
Proof.
  intros Hrt. unfold allDrivesInactive. rewrite (forallb_range rt Hrt).
  split; intros Hall k d Hk; specialize (Hall k d Hk); cbn in *;
    now apply String.eqb_eq.
Qed.

(** X4.  On a host whose drive map fits an [int], whatever the order in
    which the map is walked: [numNotHealthyDrives] is the number of
    drives with status INACTIVE; [allDrivesInactive] holds exactly when
    every drive has that status, that is when that number is the number
    of drives (so it holds on a host without drives); and
    [allDisksBeingRemoved] implies [anyDiskBeingRemoved]. *)
Theorem drive_checks_agree rt host :
  runtime_ok rt → Z.of_nat (size (hostInfo.drives host)) <= GoInt.max_int →
  numNotHealthyDrives rt host =
    Z.of_nat (size (filter (fun kd : weka.DriveId * weka.Drive.t =>
                              weka.Drive.Status kd.2 = "INACTIVE") (hostInfo.drives host))) ∧
  (allDrivesInactive rt host = true ↔
   ∀ k d, hostInfo.drives host !! k = Some d → weka.Drive.Status d = "INACTIVE") ∧
  (allDrivesInactive rt host = true ↔
   numNotHealthyDrives rt host = Z.of_nat (size (hostInfo.drives host))) ∧
  (hostInfo.drives host = ∅ → allDrivesInactive rt host = true) ∧
  (allDisksBeingRemoved rt host = true → anyDiskBeingRemoved rt host = true).
Proof.
  intros Hrt Hsize.
  pose proof (numNotHealthyDrives_size rt host Hrt Hsize) as Hnum.
  pose proof (allDrivesInactive_spec rt host Hrt) as Hall.
  split; [exact Hnum | split; [exact Hall | split; [| split]]].
  - rewrite Hall, Hnum. split.
    + intros Hin. f_equal. f_equal. apply map_filter_id. intros k d Hk. cbn. eauto.
    + intros Heq k d Hk. apply Nat2Z.inj in Heq.
      assert (Hsub : filter (fun kd : weka.DriveId * weka.Drive.t =>
                               weka.Drive.Status kd.2 = "INACTIVE") (hostInfo.drives host)
                     = hostInfo.drives host).
      { apply map_subseteq_size_eq; [apply map_filter_subseteq | lia]. }
      rewrite <- Hsub in Hk. now apply map_lookup_filter_Some in Hk as [_ Hk].
  - intros Hempty. apply Hall. intros k d. now rewrite Hempty, lookup_empty.
  - intros Hd. apply (allDisksBeingRemoved_spec rt Hrt) in Hd as [Hne Hmarked].
    apply (anyDiskBeingRemoved_spec rt Hrt).
    apply map_choose in Hne as (k & d & Hk). exists k, d. eauto.
Qed.

Lemma drive_checks_agree_witness :
  numNotHealthyDrives backward_runtime Sample.degraded = Z.of_nat 1 ∧
  allDrivesInactive backward_runtime Sample.idle = true.
Proof.
  assert (H1 : Z.of_nat (size (hostInfo.drives Sample.degraded)) <= GoInt.max_int)
    by (vm_compute; discriminate).
  assert (H2 : Z.of_nat (size (hostInfo.drives Sample.idle)) <= GoInt.max_int)
    by (vm_compute; discriminate).
  split.
  - rewrite (proj1 (drive_checks_agree backward_runtime Sample.degraded
                      backward_runtime_ok H1)).
    reflexivity.
  - apply (proj1 (proj2 (proj2 (proj2 (drive_checks_agree backward_runtime Sample.idle
                                         backward_runtime_ok H2))))).
    reflexivity.
Defined.

(** ** More on the planner *)

(** X5.  With a sum [H + U + D - T] that fits an [int], deactivating the
    target leaves at most the desired capacity: the whole surplus is
    shed in one tick; and the target is at most the largest of the
    surplus, the hosts in progress, and two. *)
Theorem target_sheds_surplus H U D T :
  GoInt.in_range (H + U + D - T) →
  H + U + D - calculateDeactivateTarget H U D T <= T ∧
  (0 <= D → D <= GoInt.max_int →
   calculateDeactivateTarget H U D T <= Z.max (Z.max D (H + U + D - T)) 2).
Proof.
  intros Hr. rewrite calculateDeactivateTarget_wrap, (wrap_small _ Hr).
  split; [lia |]. intros HD HDmax. rewrite (wrap_small (2 - D)); [lia |].
  unfold GoInt.in_range. rewrite max_int_val in *. rewrite min_int_val. lia.
Qed.

Lemma target_sheds_surplus_witness :
  3 + 3 + 1 - calculateDeactivateTarget 3 3 1 4 <= 4.
Proof.
  apply (proj1 (target_sheds_surplus 3 3 1 4 ltac:(split; vm_compute; discriminate))).
Defined.

(** X6.  A group that is not above its desired capacity starts at most
    two deactivations, and none while one is in progress: with no
    surplus the target is [D] as soon as [D >= 1], and [min(2, U)] when
    no host is deactivating. *)
Theorem target_at_capacity H U D T :
  GoInt.in_range (H + U + D - T) → H + U + D <= T →
  0 <= U → 0 <= D → D <= GoInt.max_int →
  (1 <= D → calculateDeactivateTarget H U D T = D) ∧
  (D = 0 → calculateDeactivateTarget H U D T = Z.min 2 U) ∧
  calculateDeactivateTarget H U D T <= Z.max D 2.
Proof.
  intros Hr Hcap HU HD HDmax. rewrite calculateDeactivateTarget_wrap, (wrap_small _ Hr).
  rewrite (wrap_small (2 - D)).
  2:{ unfold GoInt.in_range. rewrite max_int_val in *. rewrite min_int_val. lia. }
  repeat split; intros; lia.
Qed.

Lemma target_at_capacity_witness :
  calculateDeactivateTarget 4 2 1 7 = 1 ∧ calculateDeactivateTarget 3 4 0 9 = Z.min 2 4.
Proof.
  split.
  - apply (proj1 (target_at_capacity 4 2 1 7 ltac:(split; vm_compute; discriminate)
                    ltac:(vm_compute; discriminate) ltac:(lia) ltac:(lia)
                    ltac:(vm_compute; discriminate))).
    lia.
  - apply (proj1 (proj2 (target_at_capacity 3 4 0 9 ltac:(split; vm_compute; discriminate)
                    ltac:(vm_compute; discriminate) ltac:(lia) ltac:(lia)
                    ltac:(vm_compute; discriminate)))).
    reflexivity.
Defined.

(** ** Hosts that are down for too long *)



(** ** The snapshot is the join of the three listings *)

Lemma foldl_alter_lookup {A V : Type} (key : A → Z) (upd : A → V → V) (l : list A) :
  ∀ (m : gmap Z V) k,
    foldl (fun m a => alter (upd a) (key a) m) m l !! k =
    (fun v => foldl (fun v a => if decide (key a = k) then upd a v else v) v l) <$> m !! k.
Proof.
  induction l as [| a l IH]; intros m k; cbn [foldl].
  - now destruct (m !! k).
  - rewrite IH, lookup_alter. case_decide as Hk.
    + subst k. now destruct (m !! key a).
    + now destruct (m !! k).
Qed.

(** Inserting the entries of a walk that satisfy [P] gives the map of
    those entries. *)
Lemma foldl_insert_filter `{Countable K} {V : Type} (P : K * V → Prop)
    `{∀ x, Decision (P x)} (l : list (K * V)) :
  NoDup l.*1 →
  foldl (fun (D : gmap K V) kv => if decide (P kv) then <[kv.1 := kv.2]> D else D) ∅ l =
  list_to_map (filter P l).
Proof.
  induction l as [| [k v] l IH] using rev_ind; intros Hnd; [reflexivity |].
  rewrite fmap_app in Hnd. apply NoDup_app in Hnd as (Hl & Hfresh & _).
  rewrite foldl_snoc, filter_app, IH by exact Hl. cbn [fst snd].
  rewrite filter_cons, filter_nil. case_decide.
  - rewrite list_to_map_snoc; [reflexivity |].
    intros Hin. apply list_elem_of_fmap in Hin as ([k' v'] & Heq & Hin). cbn in Heq. subst k'.
    apply list_elem_of_filter in Hin as [_ Hin].
    apply (Hfresh k); [| left]. apply list_elem_of_fmap. now exists (k, v').
  - now rewrite app_nil_r.
Qed.

Lemma list_to_map_filter_range `{Countable K} {V : Type} rt (P : K * V → Prop)
    `{∀ x, Decision (P x)} (m : gmap K V) :
  runtime_ok rt → list_to_map (filter P (range rt m)) = filter P m.
Proof.
  intros Hrt. apply map_eq. intros k. apply option_eq. intros v.
  rewrite <- elem_of_list_to_map.
  - rewrite list_elem_of_filter, (elem_of_range rt Hrt), map_lookup_filter_Some. tauto.
  - pose proof (range_NoDup_keys rt Hrt m) as Hnd.
    assert (Hsub : ∀ (l : list (K * V)), NoDup l.*1 → NoDup (filter P l).*1).
    { induction l as [| x l IH]; intros Hl; [constructor |].
      cbn in Hl. apply NoDup_cons in Hl as [Hx Hl]. rewrite filter_cons.
      case_decide; [| auto]. cbn. apply NoDup_cons. split; [| auto].
      intros Hin. apply Hx. apply list_elem_of_fmap in Hin as (y & -> & Hy).
      apply list_elem_of_filter in Hy as [_ Hy]. apply list_elem_of_fmap. now exists y. }
    now apply Hsub.
Qed.

Lemma foldl_addHost_lookup (l : list (weka.HostId * weka.Host.t)) :
  NoDup l.*1 →
  ∀ k, foldl addHost ∅ l !! k =
       (fun host => hostInfo.mk host k ∅ ∅ DEACTIVATING) <$> (list_to_map l : gmap _ _) !! k.
Proof.
  induction l as [| [i x] l IH] using rev_ind; intros Hnd k.
  - cbn. now rewrite !lookup_empty.
  - rewrite fmap_app in Hnd. apply NoDup_app in Hnd as (Hl & Hfresh & _).
    rewrite foldl_snoc, list_to_map_snoc.
    2:{ intros Hin. apply (Hfresh i Hin). left. }
    unfold addHost at 1. cbn [fst snd]. rewrite !lookup_insert.
    case_decide; [now subst | now apply IH].
Qed.

Lemma foldl_attachDrive_alter l : ∀ hosts,
  foldl attachDrive hosts l =
  foldl (fun m kv =>
           alter (fun host => hostInfo.with_drives host (<[kv.1 := kv.2]> (hostInfo.drives host)))
                 (weka.Drive.HostId kv.2) m) hosts l.
Proof.
  induction l as [| kv l IH]; intros hosts; cbn [foldl]; [reflexivity |].
  now rewrite IH, attachDrive_alter.
Qed.

Lemma foldl_attachNode_alter l : ∀ hosts,
  foldl attachNode hosts l =
  foldl (fun m kv =>
           alter (fun host => hostInfo.with_nodes host (<[kv.1 := kv.2]> (hostInfo.nodes host)))
                 (weka.Node.HostId kv.2) m) hosts l.
Proof.
  induction l as [| kv l IH]; intros hosts; cbn [foldl]; [reflexivity |].
  now rewrite IH, attachNode_alter.
Qed.

Lemma foldl_with_drives k (l : list (weka.DriveId * weka.Drive.t)) : ∀ host,
  foldl (fun host kv =>
           if decide (weka.Drive.HostId kv.2 = k)
           then hostInfo.with_drives host (<[kv.1 := kv.2]> (hostInfo.drives host))
           else host) host l =
  hostInfo.with_drives host
    (foldl (fun (D : driveMap) kv =>
              if decide (weka.Drive.HostId kv.2 = k) then <[kv.1 := kv.2]> D else D)
           (hostInfo.drives host) l).
Proof.
  induction l as [| kv l IH]; intros host; cbn [foldl].
  - now destruct host.
  - rewrite IH. case_decide; reflexivity.
Qed.

Lemma foldl_with_nodes k (l : list (weka.NodeId * weka.Node.t)) : ∀ host,
  foldl (fun host kv =>
           if decide (weka.Node.HostId kv.2 = k)
           then hostInfo.with_nodes host (<[kv.1 := kv.2]> (hostInfo.nodes host))
           else host) host l =
  hostInfo.with_nodes host
    (foldl (fun (D : nodeMap) kv =>
              if decide (weka.Node.HostId kv.2 = k) then <[kv.1 := kv.2]> D else D)
           (hostInfo.nodes host) l).
Proof.
  induction l as [| kv l IH]; intros host; cbn [foldl].
  - now destruct host.
  - rewrite IH. case_decide; reflexivity.
Qed.

Lemma buildHosts_lookup rt hostsApiList driveApiList nodeApiList k :
  runtime_ok rt →
  buildHosts rt hostsApiList driveApiList nodeApiList !! k =
  (fun host => joined k host driveApiList nodeApiList) <$> hostsApiList !! k.
Proof.
  intros Hrt. unfold buildHosts.
  rewrite foldl_attachNode_alter, foldl_alter_lookup.
  rewrite foldl_attachDrive_alter, foldl_alter_lookup.
  rewrite foldl_addHost_lookup by apply (range_NoDup_keys rt Hrt).
  assert (Hl : (list_to_map (range rt hostsApiList) : gmap _ _) = hostsApiList).
  { rewrite <- (list_to_map_to_list hostsApiList) at 2.
    apply list_to_map_proper; [apply (range_NoDup_keys rt Hrt) | apply (range_perm rt Hrt)]. }
  rewrite Hl. destruct (hostsApiList !! k) as [host |]; [| reflexivity].
  cbn. f_equal. rewrite foldl_with_drives, foldl_with_nodes. cbn.
  unfold joined, hostInfo.with_nodes, hostInfo.with_drives. cbn. f_equal.
  - rewrite (foldl_insert_filter
               (fun kd : weka.DriveId * weka.Drive.t => weka.Drive.HostId kd.2 = k))
      by apply (range_NoDup_keys rt Hrt).
    now apply list_to_map_filter_range.
  - rewrite (foldl_insert_filter
               (fun kn : weka.NodeId * weka.Node.t => weka.Node.HostId kn.2 = k))
      by apply (range_NoDup_keys rt Hrt).
    now apply list_to_map_filter_range.
Qed.

(** X8.  The snapshot that [Handler] assembles is the join of the three
    listings, in whatever order they are walked: host [k] of the host
    listing comes with its id, exactly the drives of the drive listing
    whose owner is [k] and exactly the nodes of the node listing whose
    owner is [k]; there is no other host, and a drive or node whose owner
    is not listed -- an orphan drive with owner -1 when no host has that
    id -- is attached to no host. *)
Theorem snapshot_is_join rt hostsApiList driveApiList nodeApiList :
  runtime_ok rt →
  (∀ k,
     buildHosts rt hostsApiList driveApiList nodeApiList !! k =
     (fun host => joined k host driveApiList nodeApiList) <$> hostsApiList !! k) ∧
  (∀ k host dk drive,
     buildHosts rt hostsApiList driveApiList nodeApiList !! k = Some host →
     hostInfo.drives host !! dk = Some drive ↔
     driveApiList !! dk = Some drive ∧ weka.Drive.HostId drive = k) ∧
  (∀ dk drive,
     driveApiList !! dk = Some drive → hostsApiList !! weka.Drive.HostId drive = None →
     ∀ k host,
       buildHosts rt hostsApiList driveApiList nodeApiList !! k = Some host →
       hostInfo.drives host !! dk = None).
Proof.
  intros Hrt.
  assert (Hlookup := fun k => buildHosts_lookup rt hostsApiList driveApiList nodeApiList k Hrt).
  assert (Hdrives : ∀ k host dk drive,
     buildHosts rt hostsApiList driveApiList nodeApiList !! k = Some host →
     hostInfo.drives host !! dk = Some drive ↔
     driveApiList !! dk = Some drive ∧ weka.Drive.HostId drive = k).
  { intros k host dk drive Hk. rewrite Hlookup in Hk.
    destruct (hostsApiList !! k) as [h |]; [| discriminate]. injection Hk as <-.
    cbn. unfold owned_drives. now rewrite map_lookup_filter_Some. }
  split; [exact Hlookup | split; [exact Hdrives |]].
  intros dk drive Hdk Hnone k host Hk.
  destruct (hostInfo.drives host !! dk) as [d |] eqn:E; [| reflexivity].
  apply (Hdrives k host dk d Hk) in E as [Hd Howner].
  rewrite Hdk in Hd. injection Hd as <-. subst k.
  rewrite Hlookup, Hnone in Hk. discriminate.
Qed.

(** ** Membership: the three lists of [Handler] *)

Section MembershipLists.

Variable IsManagement : weka.NodeId → bool.
Variable rt : GoRuntime.
Variable now : time.Time.
Variable info : protocol.HostGroupInfoResponse.

Lemma assignHost_down acc host acc' :
  assignHost IsManagement rt now info acc host = Done acc' →
  downHosts acc' =
  downHosts acc ++ (if forced_down IsManagement rt now info host then [host] else []).
Proof.
  unfold assignHost, forced_down.
  set (acc1 := if String.eqb (hostInfo.State host) "INACTIVE" then _ else _).
  assert (Hd : downHosts acc1 = downHosts acc).
  { unfold acc1. repeat (match goal with |- context [if ?b then _ else _] => destruct b end);
      reflexivity. }
  clearbody acc1. rewrite <- Hd.
  destruct (String.eqb (hostInfo.Status host) "DOWN"); cbn [andb];
    [| intros [= <-]; now rewrite app_nil_r].
  destruct (String.eqb (protocol.Role info) "backend"); cbn [andb];
    [| intros [= <-]; now rewrite app_nil_r].
  destruct (negb (String.eqb (hostInfo.State host) "INACTIVE")); cbn [andb];
    [| intros [= <-]; now rewrite app_nil_r].
  destruct (managementTimedOut IsManagement rt now host downKickOutTimeout) as [[|] | r];
    cbn; [| | discriminate].
  - now intros [= <-].
  - intros [= <-]. now rewrite app_nil_r.
Qed.

Lemma assignHosts_fold_down l : ∀ acc lists,
  foldl_outcome (assignHost IsManagement rt now info) acc l = Done lists →
  downHosts lists =
  downHosts acc ++ filter (fun h => forced_down IsManagement rt now info h = true) l.
Proof.
  induction l as [| host l IH]; intros acc lists; cbn [foldl_outcome].
  - intros [= <-]. now rewrite filter_nil, app_nil_r.
  - destruct (assignHost IsManagement rt now info acc host) as [acc1 | r] eqn:E;
      [| discriminate].
    cbn. intros Hrest. apply assignHost_down in E. apply IH in Hrest.
    rewrite Hrest, E.
    destruct (forced_down IsManagement rt now info host); cbn; now rewrite <- app_assoc.
Qed.

Lemma assignHosts_down hosts raw :
  assignHosts IsManagement rt now info hosts = Done raw →
  downHosts raw =
  filter (fun h => forced_down IsManagement rt now info h = true) (range rt hosts).*2.
Proof. intros Hrun. now apply assignHosts_fold_down in Hrun. Qed.

End MembershipLists.

(** X9.  The loop of [Handler] over the snapshot sorts the hosts into
    three lists, each a selection that keeps the order of the walk: the
    in-scope hosts are those not INACTIVE that the group knows by
    instance id or, when DOWN, by address; the removal queue holds the
    INACTIVE hosts the group knows by address and, for a backend group,
    those inactive for more than five minutes; the forced-down list
    holds, for a backend group, the DOWN hosts not INACTIVE whose
    management node has been down for more than three hours.  No host is
    both in scope and queued for removal, and no forced-down host is
    queued for removal; a forced-down host may well be in scope too. *)
Theorem membership_lists IsManagement rt now info hosts raw :
  assignHosts IsManagement rt now info hosts = Done raw →
  hostsList raw = filter (fun h => in_scope info h = true) (range rt hosts).*2 ∧
  inactiveHosts raw = filter (fun h => cleanup_queued now info h = true) (range rt hosts).*2 ∧
  downHosts raw =
    filter (fun h => forced_down IsManagement rt now info h = true) (range rt hosts).*2 ∧
  (∀ h, h ∈ inactiveHosts raw → (h ∉ hostsList raw) ∧ (h ∉ downHosts raw)).
Proof.
  intros Hrun.
  pose proof (assignHosts_down _ _ _ _ _ _ Hrun) as Hd.
  apply assignHosts_spec in Hrun as (Hh & Hi & _).
  split; [exact Hh | split; [exact Hi | split; [exact Hd |]]].
  intros h Hin. rewrite Hi in Hin. apply list_elem_of_filter in Hin as [Hq _].
  unfold cleanup_queued in Hq. apply andb_true_iff in Hq as [Hstate _].
  split; intros Hin'.
  - rewrite Hh in Hin'. apply list_elem_of_filter in Hin' as [Hs _].
    unfold in_scope in Hs. rewrite Hstate in Hs. discriminate.
  - rewrite Hd in Hin'. apply list_elem_of_filter in Hin' as [Hf _].
    unfold forced_down in Hf. rewrite Hstate in Hf. cbn in Hf.
    rewrite andb_false_r in Hf. discriminate.
Qed.

(** ** The lifecycle phase issues nothing it does not owe *)

Section OwedInvariant.

Variable IsManagement : weka.NodeId → bool.
Variable rt : GoRuntime.
Variable now : time.Time.
Variable info : protocol.HostGroupInfoResponse.
Variable mp : ManagementPlane.
Variable hosts : gmap weka.HostId hostInfo.t.
Variable driveApiList : weka.DriveListResponse.
Hypothesis Hrt : runtime_ok rt.
Hypothesis Hwf : snapshot_wf hosts driveApiList.

Abbreviation owed' := (owed IsManagement rt now info hosts driveApiList).
Abbreviation candidate' := (candidate info hosts).
Abbreviation tick_ok' := (tick_ok IsManagement rt now info hosts driveApiList).
Abbreviation target' := (deactivation_target IsManagement rt now info).

Lemma owed_mono tr δ ev : owed' tr ev → owed' (tr ++ δ) ev.
Proof.
  destruct ev as [[| | | | uuids | ids skip | k nw | uuids] err | ip]; cbn; auto.
  intros (dk & drive & Hdk & Hu & [Ho | (host & Hh & Hq & Hin)]);
    exists dk, drive; repeat split; auto.
  right. exists host. repeat split; auto. apply elem_of_app. now left.
Qed.

Lemma candidate_mono tr δ instance : candidate' tr instance → candidate' (tr ++ δ) instance.
Proof.
  intros (Hin & k & host & Hk & Hs & Hip & Hev). split; [exact Hin |].
  exists k, host. repeat split; auto. apply elem_of_app. now left.
Qed.

(** One more event, and no new terminate candidate. *)
Lemma tick_ok_event t t' ev :
  tick_ok' t → trace t' = trace t ++ [ev] →
  protocol.ToTerminate (response t') = protocol.ToTerminate (response t) →
  owed' (trace t ++ [ev]) ev →
  (∀ method err, ev = EvCall method err → host_call method = true →
     ∃ ip, last (trace t) = Some (EvDrop ip) ∧ endpoint_of hosts method ip) →
  tick_ok' t'.
Proof.
  intros (Hev & Hc & Hdrop) Htr Hto Hnew Hlast. split; [| split].
  - rewrite Htr. intros e He. apply elem_of_app in He as [He | He].
    + apply owed_mono. auto.
    + apply list_elem_of_singleton in He. now subst.
  - rewrite Htr, Hto. intros i Hi. apply candidate_mono. auto.
  - rewrite Htr. intros i method err Hi Hcall.
    apply lookup_app_Some in Hi as [Hi | [Hlen Hi]].
    + destruct (Hdrop i method err Hi Hcall) as (j & ip & -> & Hj & Hip).
      exists j, ip. split; [reflexivity | split; [| exact Hip]].
      now apply lookup_app_l_Some.
    + apply list_lookup_singleton_Some in Hi as [Hi ->].
      destruct (Hlast method err eq_refl Hcall) as (ip & Hl & Hip).
      apply last_Some in Hl as [pre Hpre].
      exists (length pre), ip. split; [| split; [| exact Hip]].
      * rewrite Hpre, length_app in *. cbn [length] in *. lia.
      * rewrite Hpre, <- app_assoc. apply list_lookup_middle. reflexivity.
Qed.

(** One more event that is not a call naming a host. *)
Lemma tick_ok_plain t t' ev :
  tick_ok' t → trace t' = trace t ++ [ev] →
  protocol.ToTerminate (response t') = protocol.ToTerminate (response t) →
  owed' (trace t ++ [ev]) ev →
  match ev with EvCall method _ => host_call method = false | EvDrop _ => True end →
  tick_ok' t'.
Proof.
  intros Hok Htr Hto Hnew Hplain. apply (tick_ok_event t t' ev); auto.
  intros method err -> Hcall. congruence.
Qed.

Lemma tick_ok_same t t' :
  tick_ok' t → trace t' = trace t →
  protocol.ToTerminate (response t') = protocol.ToTerminate (response t) → tick_ok' t'.
Proof.
  intros (Hev & Hc & Hdrop) Htr Hto. split; [| split]; rewrite Htr; [| rewrite Hto |]; auto.
Qed.

(** A mutating call, with its failure recorded. *)
Lemma tick_ok_call t method caller :
  tick_ok' t → (∀ err, owed' (trace t ++ [EvCall method err]) (EvCall method err)) →
  (host_call method = true →
   ∃ ip, last (trace t) = Some (EvDrop ip) ∧ endpoint_of hosts method ip) →
  tick_ok'
    (let '(t1, err) := Pool_Call mp method t in
     match err with
     | Some err => AddTransientError err caller t1
     | None => t1
     end).
Proof.
  intros Hok Hnew Hlast. unfold Pool_Call.
  destruct (mutate_reply mp (trace t) method) as [e |] eqn:E.
  - apply (tick_ok_event t _ (EvCall method (Some e))); auto.
    now intros m err [= <- _].
  - apply (tick_ok_event t _ (EvCall method None)); auto.
    now intros m err [= <- _].
Qed.

Lemma removeDrive_ok drive t :
  tick_ok' t →
  (∀ δ err, owed' (trace t ++ δ) (EvCall (weka.JrpcRemoveDrive [weka.Drive.Uuid drive]) err)) →
  tick_ok' (removeDrive mp drive t).
Proof. intros Hok Hnew. apply tick_ok_call; auto. discriminate. Qed.

Lemma removeDrive_keeps drive t ev : ev ∈ trace t → ev ∈ trace (removeDrive mp drive t).
Proof.
  intros Hin. destruct (removeDrive_step mp drive t) as (err & Htr & _).
  rewrite Htr. apply elem_of_app. now left.
Qed.

Lemma removeInactiveHost_ok t host k :
  tick_ok' t → hosts !! k = Some host → cleanup_queued now info host = true →
  tick_ok' (removeInactiveHost rt info mp t host).
Proof.
  intros Hok Hk Hq. destruct (Hwf k host Hk) as [Hid Hdrives].
  unfold removeInactiveHost.
  assert (Hok1 : tick_ok' (Pool_Drop (hostInfo.HostIp host) t)).
  { apply (tick_ok_plain t _ (EvDrop (hostInfo.HostIp host))); auto.
    cbn. exists k, host. auto. }
  assert (Hlast1 : last (trace (Pool_Drop (hostInfo.HostIp host) t)) =
                   Some (EvDrop (hostInfo.HostIp host))).
  { cbn. apply last_snoc. }
  set (t1 := Pool_Drop (hostInfo.HostIp host) t) in *. clearbody t1.
  rewrite Hid.
  assert (Howed : ∀ tr err, owed' tr (EvCall (weka.JrpcRemoveHost k true) err)).
  { intros tr err. cbn. split; [reflexivity |]. eauto. }
  assert (Hfirst : ∀ e method err,
            EvCall (weka.JrpcRemoveHost k true) e = EvCall method err →
            host_call method = true →
            ∃ ip, last (trace t1) = Some (EvDrop ip) ∧ endpoint_of hosts method ip).
  { intros e method err [= <- _] _. exists (hostInfo.HostIp host).
    split; [exact Hlast1 |]. cbn. eauto. }
  unfold Pool_Call.
  destruct (mutate_reply mp (trace t1) (weka.JrpcRemoveHost k true)) as [e |] eqn:E.
  - apply (tick_ok_event t1 _ (EvCall (weka.JrpcRemoveHost k true) (Some e))); auto.
    apply Hfirst.
  - set (t2 := mkTick (trace t1 ++ [EvCall (weka.JrpcRemoveHost k true) None]) (response t1)).
    assert (Hok2 : tick_ok' t2).
    { apply (tick_ok_event t1 _ (EvCall (weka.JrpcRemoveHost k true) None)); auto.
      apply Hfirst. }
    assert (Hin2 : EvCall (weka.JrpcRemoveHost k true) None ∈ trace t2).
    { cbn. apply elem_of_app. right. left. }
    clearbody t2.
    set (t3 := match selectInstanceByIp _ _ with Some _ => _ | None => t2 end).
    assert (Hok3 : tick_ok' t3 ∧ EvCall (weka.JrpcRemoveHost k true) None ∈ trace t3).
    { unfold t3.
      destruct (selectInstanceByIp (hostInfo.HostIp host) (protocol.Instances info))
        as [instance |] eqn:Es; [| auto].
      split; [| exact Hin2]. destruct Hok2 as (Hev & Hc & Hdrop).
      split; [exact Hev | split; [| exact Hdrop]].
      cbn. intros i Hi. apply elem_of_app in Hi as [Hi | Hi]; [auto |].
      apply list_elem_of_singleton in Hi. subst i.
      unfold selectInstanceByIp in Es. apply find_some in Es as [Hin Hip].
      apply String.eqb_eq in Hip. split; [now apply list_elem_of_In |].
      exists k, host. repeat split; auto.
      unfold cleanup_queued in Hq. apply andb_true_iff in Hq as [Hs _].
      now apply String.eqb_eq in Hs. }
    clearbody t3.
    apply (foldl_invariant
             (fun t => tick_ok' t ∧ EvCall (weka.JrpcRemoveHost k true) None ∈ trace t));
      [| exact Hok3].
    intros t' [dk drive] Hin [Hok' Hin']. cbn [snd].
    split; [| now apply removeDrive_keeps].
    apply (elem_of_range rt Hrt) in Hin. destruct (Hdrives dk drive Hin) as [Hd Howner].
    apply removeDrive_ok; [exact Hok' |].
    intros δ err. cbn. exists dk, drive. repeat split; auto.
    right. exists host. rewrite Howner. repeat split; auto.
    apply elem_of_app. now left.
Qed.

Lemma removeInactive_ok l t :
  tick_ok' t →
  (∀ host, host ∈ l → ∃ k, hosts !! k = Some host ∧ cleanup_queued now info host = true) →
  tick_ok' (removeInactive rt info mp l t).
Proof.
  intros Hok Hl. unfold removeInactive.
  apply (foldl_invariant tick_ok'); [| exact Hok].
  intros t' host Hin Hok'. destruct (Hl host Hin) as (k & Hk & Hq).
  now apply (removeInactiveHost_ok t' host k).
Qed.

Lemma removeOldDrives_ok t : tick_ok' t → tick_ok' (removeOldDrives rt mp driveApiList t).
Proof.
  intros Hok. unfold removeOldDrives.
  apply (foldl_invariant tick_ok'); [| exact Hok].
  intros t' [dk drive] Hin Hok'. cbn [snd].
  destruct ((weka.Drive.HostId drive =? -1) &&
            String.eqb (weka.Drive.Status drive) "INACTIVE") eqn:E; [| exact Hok'].
  apply andb_true_iff in E as [Howner Hstatus].
  apply Z.eqb_eq in Howner. apply String.eqb_eq in Hstatus.
  apply (elem_of_range rt Hrt) in Hin.
  apply removeDrive_ok; [exact Hok' |].
  intros δ err. cbn. exists dk, drive. repeat split; auto. left. now split.
Qed.

Lemma deactivateDrive_ok t kv host k :
  tick_ok' t → hosts !! k = Some host → target' host →
  hostInfo.drives host !! kv.1 = Some kv.2 →
  tick_ok' (deactivateDrive mp t kv).
Proof.
  intros Hok Hk Ht Hd. unfold deactivateDrive.
  destruct (weka.Drive.ShouldBeActive kv.2) eqn:E; [| exact Hok].
  destruct (Hwf k host Hk) as [_ Hdrives]. destruct (Hdrives _ _ Hd) as [HdA Howner].
  apply tick_ok_call; [exact Hok | | discriminate].
  intros err. cbn. exists kv.1, kv.2, host. rewrite Howner. repeat split; auto.
Qed.

Lemma deactivateHost_ok t x host k :
  tick_ok' t → hosts !! k = Some host → target' host → classified_from x host →
  tick_ok' (deactivateHost rt mp t x).
Proof.
  intros Hok Hk Ht [s ->]. rewrite deactivateHost_unfold. cbn zeta.
  assert (Hok1 : tick_ok' (foldl (deactivateDrive mp) t
                             (range rt (hostInfo.drives (hostInfo.with_scaleState host s))))).
  { apply (foldl_invariant tick_ok'); [| exact Hok].
    intros t' kv Hin Hok'. apply (deactivateDrive_ok t' kv host k); auto.
    destruct kv as [dk drive]. now apply (elem_of_range rt Hrt) in Hin. }
  set (t1 := foldl _ _ _) in *. clearbody t1.
  change (allDrivesInactive rt (hostInfo.with_scaleState host s))
    with (allDrivesInactive rt host).
  destruct (allDrivesInactive rt host) eqn:E; [| exact Hok1].
  destruct (Hwf k host Hk) as [Hid _].
  apply tick_ok_call.
  - apply (tick_ok_plain t1 _ (EvDrop (hostInfo.HostIp host))); auto.
    cbn. exists k, host. auto.
  - intros err. cbn. split; [reflexivity |]. exists k, host. rewrite Hid. auto.
  - intros _. exists (hostInfo.HostIp host). split; [cbn; apply last_snoc |].
    cbn. exists k, host. rewrite Hid. auto.
Qed.

Lemma deactivateHosts_ok l t :
  tick_ok' t →
  (∀ x, x ∈ l → ∃ k host, hosts !! k = Some host ∧ target' host ∧ classified_from x host) →
  tick_ok' (foldl (deactivateHost rt mp) t l).
Proof.
  intros Hok Hl. apply (foldl_invariant tick_ok'); [| exact Hok].
  intros t' x Hin Hok'. destruct (Hl x Hin) as (k & host & Hk & Ht & Hc).
  now apply (deactivateHost_ok t' x host k).
Qed.

End OwedInvariant.

Lemma Forall2_elem_of_r {A B : Type} (R : A → B → Prop) l l' y :
  Forall2 R l l' → y ∈ l' → ∃ x, x ∈ l ∧ R x y.
Proof.
  induction 1 as [| x y' l l' HR _ IH]; intros Hin; [inversion Hin |].
  apply elem_of_cons in Hin as [-> | Hin].
  - exists x. split; [left | exact HR].
  - destruct (IH Hin) as (x' & Hx' & HR'). exists x'. split; [now right | exact HR'].
Qed.

Lemma classified_from_self host : classified_from host host.
Proof. exists (hostInfo.scaleState host). now destruct host. Qed.

Lemma reconcile_ok IsManagement rt now info mp hosts driveApiList t tr res :
  runtime_ok rt → snapshot_wf hosts driveApiList →
  Z.of_nat (size hosts) <= GoInt.max_int →
  0 <= protocol.DesiredCapacity info → GoInt.in_range (protocol.DesiredCapacity info) →
  tick_ok IsManagement rt now info hosts driveApiList t →
  reconcile IsManagement rt now info mp driveApiList hosts t = (tr, res) →
  (∀ ev, ev ∈ tr → owed IsManagement rt now info hosts driveApiList tr ev) ∧
  (∀ resp err, res = Returned resp err →
     ∀ instance, instance ∈ protocol.ToTerminate resp → candidate info hosts tr instance) ∧
  dropped_first hosts tr.
Proof.
  intros Hrt Hwf Hsize HT Hrange Hok. unfold reconcile.
  destruct (classify IsManagement rt now info hosts) as [lists | reason] eqn:Ec.
  2:{ intros [= <- <-]. split; [apply Hok | split; [discriminate | apply Hok]]. }
  pose proof Ec as Hlen. apply classify_length in Hlen; [| exact Hrt].
  apply classify_spec in Ec as (raw & Hraw & Hstates & Hi & Hd).
  pose proof Hraw as Hdown. apply assignHosts_down in Hdown.
  apply assignHosts_spec in Hraw as (Hscope & Hqueue & _).
  set (sorted := sort_Slice rt hostInfo.t (hostLess rt) (hostsList lists)).
  assert (Hperm : sorted ≡ₚ hostsList lists) by apply (sort_Slice_perm rt Hrt).
  assert (Hok1 : tick_ok IsManagement rt now info hosts driveApiList
                   (removeInactive rt info mp (inactiveHosts lists) t)).
  { apply removeInactive_ok; auto. intros host Hin.
    rewrite Hi, Hqueue in Hin. apply list_elem_of_filter in Hin as [Hq Hin].
    apply (range_values rt Hrt) in Hin as [k Hk]. eauto. }
  set (t1 := removeInactive rt info mp (inactiveHosts lists) t) in *. clearbody t1.
  assert (Hok2 : tick_ok IsManagement rt now info hosts driveApiList
                   (removeOldDrives rt mp driveApiList t1)).
  { apply removeOldDrives_ok; auto. }
  set (t2 := removeOldDrives rt mp driveApiList t1) in *. clearbody t2.
  rewrite slice_to_selection;
    [| rewrite (Permutation_length Hperm); lia | exact HT | exact Hrange].
  set (selected := firstn _ sorted).
  assert (Hok3 : tick_ok IsManagement rt now info hosts driveApiList
                   (foldl (deactivateHost rt mp) t2 selected)).
  { apply deactivateHosts_ok; auto. intros x Hin.
    apply elem_of_take in Hin as (i & Hin & _). apply list_elem_of_lookup_2 in Hin.
    rewrite Hperm in Hin.
    apply calculateHostsState_spec in Hstates.
    destruct (Forall2_elem_of_r _ _ _ _ Hstates Hin) as (host & Hhost & s & _ & ->).
    rewrite Hscope in Hhost. apply list_elem_of_filter in Hhost as [Hs Hhost].
    apply (range_values rt Hrt) in Hhost as [k Hk].
    exists k, host. split; [exact Hk | split; [now left | now exists s]]. }
  set (t3 := foldl (deactivateHost rt mp) t2 selected) in *. clearbody t3.
  assert (Hok4 : tick_ok IsManagement rt now info hosts driveApiList
                   (foldl (deactivateHost rt mp) t3 (downHosts lists))).
  { apply deactivateHosts_ok; auto. intros x Hin.
    rewrite Hd, Hdown in Hin. apply list_elem_of_filter in Hin as [Hf Hin].
    apply (range_values rt Hrt) in Hin as [k Hk].
    exists k, x. split; [exact Hk | split; [now right | apply classified_from_self]]. }
  set (t4 := foldl (deactivateHost rt mp) t3 (downHosts lists)) in *. clearbody t4.
  cbn. intros [= <- <-]. split; [apply Hok4 | split; [| apply Hok4]].
  intros resp err [= <- <-]. apply Hok4.
Qed.

Lemma snapshot_queries_ok IsManagement rt now info hosts driveApiList :
  tick_ok IsManagement rt now info hosts driveApiList
    (mkTick (snapshot_queries info) protocol.zero).
Proof.
  split; [| split; [intros i Hi; inversion Hi |]].
  - cbn. unfold snapshot_queries. intros ev Hin.
    destruct (String.eqb_spec (protocol.Role info) "backend") as [Hrole | Hrole];
      cbn in Hin; repeat (apply elem_of_cons in Hin as [-> | Hin]; [now cbn |]);
      inversion Hin.
  - intros i method err Hi Hcall. apply list_elem_of_lookup_2 in Hi.
    pose proof (snapshot_queries_only info) as Hq. unfold only_queries in Hq.
    rewrite Forall_forall in Hq. destruct (Hq _ Hi) as (m & e & [= <- <-] & Hm).
    destruct method; discriminate.
Qed.

Lemma buildHosts_wf rt hostsApiList driveApiList nodeApiList :
  runtime_ok rt →
  snapshot_wf (buildHosts rt hostsApiList driveApiList nodeApiList) driveApiList.
Proof.
  intros Hrt k host Hk. rewrite buildHosts_lookup in Hk by exact Hrt.
  destruct (hostsApiList !! k) as [h |]; [| discriminate]. injection Hk as <-.
  split; [reflexivity |]. intros dk drive Hd. cbn in Hd. unfold owned_drives in Hd.
  now apply map_lookup_filter_Some in Hd.
Qed.

Lemma Handler_ok IsManagement rt now info mp hostsApiList driveApiList nodeApiList tr res :
  runtime_ok rt →
  snapshot_of info mp hostsApiList driveApiList nodeApiList →
  Z.of_nat (size hostsApiList) <= GoInt.max_int →
  0 <= protocol.DesiredCapacity info → GoInt.in_range (protocol.DesiredCapacity info) →
  Handler IsManagement rt now info mp = (tr, res) →
  (∀ ev, ev ∈ tr →
     owed IsManagement rt now info
       (buildHosts rt hostsApiList driveApiList nodeApiList) driveApiList tr ev) ∧
  (∀ resp err, res = Returned resp err →
     ∀ instance, instance ∈ protocol.ToTerminate resp →
       candidate info (buildHosts rt hostsApiList driveApiList nodeApiList) tr instance) ∧
  dropped_first (buildHosts rt hostsApiList driveApiList nodeApiList) tr.
Proof.
  intros Hrt Hsnap Hsize HT Hrange Hrun.
  rewrite (Handler_snapshot _ _ _ _ _ _ _ _ Hsnap) in Hrun.
  eapply reconcile_ok; [exact Hrt | | | exact HT | exact Hrange | | exact Hrun].
  - now apply buildHosts_wf.
  - rewrite <- size_dom, buildHosts_dom, size_dom by exact Hrt. exact Hsize.
  - apply snapshot_queries_ok.
Qed.

(** X10.  In a tick that got its snapshot, with a desired capacity that
    is not negative, every event of the tick is owed, whatever the plane
    answers and whether the tick returns or panics: a host is removed
    only if it is INACTIVE and queued for cleanup; a drive is removed only
    if it is an inactive orphan of the drive listing, or belongs to a
    queued host whose removal the plane has acknowledged in this tick; a
    drive is deactivated only if it should still be active and belongs to
    a host in scope or forced down; a host is deactivated, and its
    endpoint dropped, only if it is in scope or forced down and all its
    drives are INACTIVE in the snapshot. *)
Theorem lifecycle_calls_are_owed IsManagement rt now info mp
    hostsApiList driveApiList nodeApiList tr res :
  runtime_ok rt →
  snapshot_of info mp hostsApiList driveApiList nodeApiList →
  Z.of_nat (size hostsApiList) <= GoInt.max_int →
  0 <= protocol.DesiredCapacity info → GoInt.in_range (protocol.DesiredCapacity info) →
  Handler IsManagement rt now info mp = (tr, res) →
  ∀ ev, ev ∈ tr →
    owed IsManagement rt now info
      (buildHosts rt hostsApiList driveApiList nodeApiList) driveApiList tr ev.
Proof.
  intros Hrt Hsnap Hsize HT Hrange Hrun.
  now apply (Handler_ok _ _ _ _ _ _ _ _ _ _ Hrt Hsnap Hsize HT Hrange Hrun).
Qed.

(** X11.  An instance is offered for termination only if it is an
    instance of the group whose address is that of an INACTIVE host of
    the snapshot, and the plane acknowledged the removal of that host in
    this very tick -- whatever else the plane answered. *)
Theorem terminate_candidates_are_removed_hosts IsManagement rt now info mp
    hostsApiList driveApiList nodeApiList tr resp err :
  runtime_ok rt →
  snapshot_of info mp hostsApiList driveApiList nodeApiList →
  Z.of_nat (size hostsApiList) <= GoInt.max_int →
  0 <= protocol.DesiredCapacity info → GoInt.in_range (protocol.DesiredCapacity info) →
  Handler IsManagement rt now info mp = (tr, Returned resp err) →
  ∀ instance, instance ∈ protocol.ToTerminate resp →
    instance ∈ protocol.Instances info ∧
    ∃ k host,
      hostsApiList !! k = Some host ∧ weka.Host.State host = "INACTIVE" ∧
      weka.Host.HostIp host = protocol.PrivateIp instance ∧
      EvCall (weka.JrpcRemoveHost k true) None ∈ tr.
Proof.
  intros Hrt Hsnap Hsize HT Hrange Hrun instance Hin.
  destruct (Handler_ok _ _ _ _ _ _ _ _ _ _ Hrt Hsnap Hsize HT Hrange Hrun) as (_ & Hc & _).
  destruct (Hc resp err eq_refl instance Hin) as (Hi & k & host & Hk & Hs & Hip & Hev).
  split; [exact Hi |].
  rewrite buildHosts_lookup in Hk by exact Hrt.
  apply fmap_Some in Hk as (h & Eh & ->). exists k, h. auto.
Qed.


(** ** Counting and selecting *)

Lemma count_state_cons s host hosts :
  count_state s (host :: hosts) =
  (if has_state s host then 1 else 0) + count_state s hosts.
Proof.
  unfold count_state. cbn [List.filter]. destruct (has_state s host); cbn [length]; lia.
Qed.

Lemma countStates_exact hosts : ∀ h u d,
  0 <= h → 0 <= u → 0 <= d →
  h + u + d + Z.of_nat (length hosts) <= GoInt.max_int →
  countStates hosts (h, u, d) =
  (h + count_state HEALTHY hosts, u + count_state UNHEALTHY hosts,
   d + count_state DEACTIVATING hosts).
Proof.
  induction hosts as [| host hosts IH]; intros h u d Hh Hu Hd Hsum.
  - cbn. now rewrite !Z.add_0_r.
  - assert (Hp : ∀ a b c a' b' c' : Z, a = a' → b = b' → c = c' → (a, b, c) = (a', b', c'))
      by (intros; congruence).
    rewrite countStates_cons, !count_state_cons. cbn [length] in Hsum.
    unfold has_state.
    destruct (hostInfo.scaleState host); cbn -[count_state Z.add GoInt.incr];
      rewrite incr_small by lia; rewrite IH by lia; (apply Hp; lia).
Qed.

Lemma count_state_total hosts :
  count_state HEALTHY hosts + count_state UNHEALTHY hosts + count_state DEACTIVATING hosts =
  Z.of_nat (length hosts).
Proof.
  induction hosts as [| host hosts IH]; [reflexivity |].
  rewrite !count_state_cons. cbn [length]. unfold has_state.
  destruct (hostInfo.scaleState host); cbn -[count_state Z.add]; lia.
Qed.

Lemma count_state_perm s l l' : l ≡ₚ l' → count_state s l = count_state s l'.
Proof.
  intros Hp. unfold count_state. f_equal.
  induction Hp as [| x l l' _ IH | x y l | l l' l'' _ IH _ IH']; cbn; auto.
  - destruct (has_state s x); cbn; lia.
  - destruct (has_state s x), (has_state s y); reflexivity.
  - lia.
Qed.

(** X13.  The counting loop of [getNumToDeactivate] counts each host of
    the list under its scale state, so that, for a list an [int] can
    count, the number it returns is the target for the numbers of
    healthy, unhealthy and deactivating hosts of the list; the order of
    the list does not matter. *)
Theorem getNumToDeactivate_counts_states hosts desired :
  Z.of_nat (length hosts) <= GoInt.max_int →
  getNumToDeactivate hosts desired =
    calculateDeactivateTarget (count_state HEALTHY hosts) (count_state UNHEALTHY hosts)
      (count_state DEACTIVATING hosts) desired ∧
  (∀ hosts', hosts ≡ₚ hosts' →
     getNumToDeactivate hosts' desired = getNumToDeactivate hosts desired).
Proof.
  intros Hlen.
  assert (Hcount : ∀ l, Z.of_nat (length l) <= GoInt.max_int →
            getNumToDeactivate l desired =
            calculateDeactivateTarget (count_state HEALTHY l) (count_state UNHEALTHY l)
              (count_state DEACTIVATING l) desired).
  { intros l Hl. rewrite getNumToDeactivate_counts.
    rewrite countStates_exact by lia. now rewrite !Z.add_0_l. }
  split; [now apply Hcount |].
  intros hosts' Hp. rewrite !Hcount; [| exact Hlen | now rewrite <- (Permutation_length Hp)].
  now rewrite !(count_state_perm _ _ _ Hp).
Qed.

Lemma deactivating_first rt (l : list hostInfo.t) :
  StronglySorted (fun a b => hostLess rt b a = false) l →
  ∀ n h, count_state DEACTIVATING l <= Z.of_nat n →
    h ∈ l → hostInfo.scaleState h = DEACTIVATING → h ∈ firstn n l.
Proof.
  induction 1 as [| x l Hs IH Hx]; intros n h Hn Hin Hstate; [inversion Hin |].
  rewrite count_state_cons in Hn. unfold has_state in Hn.
  destruct (hostInfo.scaleState x) eqn:Ex; cbn -[count_state Z.add] in Hn.
  - destruct n as [| n]; [unfold count_state in Hn; lia |]. cbn [firstn].
    apply elem_of_cons in Hin as [-> | Hin]; [left | right].
    apply IH; auto. lia.
  - exfalso. apply elem_of_cons in Hin as [-> | Hin]; [congruence |].
    rewrite Forall_forall in Hx. specialize (Hx h Hin).
    apply hostLess_false in Hx. apply Hx. left. rewrite Hstate, Ex. cbn. lia.
  - exfalso. apply elem_of_cons in Hin as [-> | Hin]; [congruence |].
    rewrite Forall_forall in Hx. specialize (Hx h Hin).
    apply hostLess_false in Hx. apply Hx. left. rewrite Hstate, Ex. cbn. lia.
Qed.

Lemma prefix_closed {A : Type} (less : A → A → bool) (l : list A) :
  StronglySorted (fun a b => less b a = false) l →
  ∀ n a b, a ∈ firstn n l → b ∈ l → less b a = true → b ∈ firstn n l.
Proof.
  induction 1 as [| x l Hs IH Hx]; intros n a b Ha Hb Hless; [inversion Hb |].
  destruct n as [| n]; [inversion Ha |]. cbn [firstn] in *.
  apply elem_of_cons in Hb as [-> | Hb]; [left |].
  apply elem_of_cons in Ha as [-> | Ha].
  - rewrite Forall_forall in Hx. specialize (Hx b Hb). congruence.
  - right. eapply IH; eauto.
Qed.

(** X14.  Of a list an [int] can count and a desired capacity that is
    not negative, [Handler] selects a prefix of the sorted list that
    holds every host classified DEACTIVATING: the hosts already on
    their way out are always acted upon. *)
Theorem deactivating_hosts_are_selected rt hostsList desired :
  runtime_ok rt →
  Z.of_nat (length hostsList) <= GoInt.max_int →
  0 <= desired → GoInt.in_range desired →
  ∃ selected,
    slice_to rt hostInfo.zero (sort_Slice rt hostInfo.t (hostLess rt) hostsList)
      (getNumToDeactivate (sort_Slice rt hostInfo.t (hostLess rt) hostsList) desired)
      = Done selected ∧
    count_state DEACTIVATING hostsList <= Z.of_nat (length selected) ∧
    (∀ h, h ∈ hostsList → hostInfo.scaleState h = DEACTIVATING → h ∈ selected).
Proof.
  intros Hrt Hlen HT Hrange.
  set (sorted := sort_Slice rt hostInfo.t (hostLess rt) hostsList).
  assert (Hperm : sorted ≡ₚ hostsList) by apply (sort_Slice_perm rt Hrt).
  assert (Hlen' : Z.of_nat (length sorted) <= GoInt.max_int)
    by now rewrite (Permutation_length Hperm).
  pose proof (getNumToDeactivate_in_bounds sorted desired Hlen' HT Hrange) as Hn.
  assert (Hd : count_state DEACTIVATING sorted <= getNumToDeactivate sorted desired).
  { rewrite getNumToDeactivate_counts, countStates_exact by lia.
    rewrite !Z.add_0_l. apply calculateDeactivateTarget_lower. }
  exists (firstn (Z.to_nat (getNumToDeactivate sorted desired)) sorted).
  split; [now apply slice_to_selection |]. split.
  - rewrite length_take, <- (count_state_perm _ _ _ Hperm). lia.
  - intros h Hin Hstate. apply (deactivating_first rt).
    + apply sorted_by_strongly; [apply hostLess_strict_weak_order |].
      apply (sort_Slice_sorted rt Hrt), hostLess_strict_weak_order.
    + lia.
    + now rewrite Hperm.
    + exact Hstate.
Qed.

(** X15.  The selection respects the priority order: of a list an [int]
    can count and a desired capacity that is not negative, no host that
    is left out comes before a selected host in the order of
    [hostLess] -- neither by scale state, nor by the number of unhealthy
    drives, nor by age. *)
Theorem selection_respects_priority rt hostsList desired selected a b :
  runtime_ok rt →
  Z.of_nat (length hostsList) <= GoInt.max_int →
  0 <= desired → GoInt.in_range desired →
  slice_to rt hostInfo.zero (sort_Slice rt hostInfo.t (hostLess rt) hostsList)
    (getNumToDeactivate (sort_Slice rt hostInfo.t (hostLess rt) hostsList) desired)
    = Done selected →
  a ∈ selected → b ∈ hostsList → hostLess rt b a = true → b ∈ selected.
Proof.
  intros Hrt Hlen HT Hrange Hsel Ha Hb Hless.
  set (sorted := sort_Slice rt hostInfo.t (hostLess rt) hostsList) in *.
  assert (Hperm : sorted ≡ₚ hostsList) by apply (sort_Slice_perm rt Hrt).
  rewrite slice_to_selection in Hsel;
    [| now rewrite (Permutation_length Hperm) | exact HT | exact Hrange].
  injection Hsel as <-.
  apply (prefix_closed (hostLess rt) sorted) with (a := a); auto.
  - apply sorted_by_strongly; [apply hostLess_strict_weak_order |].
    apply (sort_Slice_sorted rt Hrt), hostLess_strict_weak_order.
  - now rewrite Hperm.
Qed.

(** X16.  In a tick that got its snapshot, with a desired capacity that
    is not negative, every call that removes or deactivates a host comes
    right after the drop of that host's endpoint from the pool: the call
    itself is never sent to the host it is about. *)
Theorem endpoint_dropped_before_host_call IsManagement rt now info mp
    hostsApiList driveApiList nodeApiList tr res i method err :
  runtime_ok rt →
  snapshot_of info mp hostsApiList driveApiList nodeApiList →
  Z.of_nat (size hostsApiList) <= GoInt.max_int →
  0 <= protocol.DesiredCapacity info → GoInt.in_range (protocol.DesiredCapacity info) →
  Handler IsManagement rt now info mp = (tr, res) →
  tr !! i = Some (EvCall method err) → host_call method = true →
  ∃ j ip, i = S j ∧ tr !! j = Some (EvDrop ip) ∧
    endpoint_of (buildHosts rt hostsApiList driveApiList nodeApiList) method ip.
Proof.
  intros Hrt Hsnap Hsize HT Hrange Hrun Hi Hcall.
  destruct (Handler_ok _ _ _ _ _ _ _ _ _ _ Hrt Hsnap Hsize HT Hrange Hrun)
    as (_ & _ & Hdrop).
  exact (Hdrop i method err Hi Hcall).
Qed.

(** ** The lifecycle phase makes no query *)

Section LifecycleOnly.

Variable rt : GoRuntime.
Variable info : protocol.HostGroupInfoResponse.
Variable mp : ManagementPlane.

Lemma appends_lifecycle_refl tr : appends_lifecycle tr tr.
Proof. exists []. now rewrite app_nil_r. Qed.

Lemma appends_lifecycle_trans tr tr' tr'' :
  appends_lifecycle tr tr' → appends_lifecycle tr' tr'' → appends_lifecycle tr tr''.
Proof.
  intros (δ & -> & Hδ) (δ' & -> & Hδ'). exists (δ ++ δ'). rewrite <- app_assoc.
  split; [reflexivity |]. now rewrite forallb_app, Hδ, Hδ'.
Qed.

Lemma appends_lifecycle_foldl {A : Type} (f : tick → A → tick) (l : list A) :
  (∀ t x, appends_lifecycle (trace t) (trace (f t x))) →
  ∀ t, appends_lifecycle (trace t) (trace (foldl f t l)).
Proof.
  intros Hf. induction l as [| x l IH]; intros t; cbn [foldl].
  - apply appends_lifecycle_refl.
  - eapply appends_lifecycle_trans; [apply Hf | apply IH].
Qed.

Lemma Pool_Drop_lifecycle ip t : appends_lifecycle (trace t) (trace (Pool_Drop ip t)).
Proof. now exists [EvDrop ip]. Qed.

Lemma Pool_Call_lifecycle method caller t :
  is_mutating method = true →
  appends_lifecycle (trace t)
    (trace (let '(t1, err) := Pool_Call mp method t in
            match err with
            | Some err => AddTransientError err caller t1
            | None => t1
            end)).
Proof.
  intros Hm. unfold Pool_Call.
  destruct (mutate_reply mp (trace t) method) as [e |]; cbn;
    eexists [_]; (split; [reflexivity |]); cbn; now rewrite Hm.
Qed.

Lemma removeDrive_lifecycle drive t :
  appends_lifecycle (trace t) (trace (removeDrive mp drive t)).
Proof. now apply Pool_Call_lifecycle. Qed.

Lemma removeInactiveHost_lifecycle t host :
  appends_lifecycle (trace t) (trace (removeInactiveHost rt info mp t host)).
Proof.
  unfold removeInactiveHost.
  eapply appends_lifecycle_trans; [apply (Pool_Drop_lifecycle (hostInfo.HostIp host)) |].
  set (t1 := Pool_Drop (hostInfo.HostIp host) t). clearbody t1.
  unfold Pool_Call.
  destruct (mutate_reply mp (trace t1) (weka.JrpcRemoveHost (hostInfo.id host) true))
    as [e |].
  - now eexists [_].
  - eapply appends_lifecycle_trans;
      [| apply (appends_lifecycle_foldl (fun t kv => removeDrive mp kv.2 t));
         intros; apply removeDrive_lifecycle].
    destruct (selectInstanceByIp _ _); now eexists [_].
Qed.

Lemma removeOldDrives_lifecycle drives t :
  appends_lifecycle (trace t) (trace (removeOldDrives rt mp drives t)).
Proof.
  unfold removeOldDrives. apply appends_lifecycle_foldl. intros t' kv.
  destruct (_ && _); [apply removeDrive_lifecycle | apply appends_lifecycle_refl].
Qed.

Lemma deactivateDrive_lifecycle t kv :
  appends_lifecycle (trace t) (trace (deactivateDrive mp t kv)).
Proof.
  unfold deactivateDrive.
  destruct (weka.Drive.ShouldBeActive kv.2); [| apply appends_lifecycle_refl].
  now apply Pool_Call_lifecycle.
Qed.

Lemma deactivateHost_lifecycle t host :
  appends_lifecycle (trace t) (trace (deactivateHost rt mp t host)).
Proof.
  rewrite deactivateHost_unfold. cbn zeta.
  set (t1 := foldl (deactivateDrive mp) t (range rt (hostInfo.drives host))).
  assert (H1 : appends_lifecycle (trace t) (trace t1))
    by apply appends_lifecycle_foldl, deactivateDrive_lifecycle.
  clearbody t1. destruct (allDrivesInactive rt host); [| exact H1].
  eapply appends_lifecycle_trans; [exact H1 |].
  eapply appends_lifecycle_trans; [apply (Pool_Drop_lifecycle (hostInfo.HostIp host)) |].
  now apply Pool_Call_lifecycle.
Qed.

Lemma reconcile_lifecycle IsManagement now driveApiList hosts t :
  appends_lifecycle (trace t)
    (reconcile IsManagement rt now info mp driveApiList hosts t).1.
Proof.
  unfold reconcile.
  destruct (classify IsManagement rt now info hosts) as [lists | reason];
    [| apply appends_lifecycle_refl].
  assert (H2 : appends_lifecycle (trace t)
                 (trace (removeOldDrives rt mp driveApiList
                           (removeInactive rt info mp (inactiveHosts lists) t)))).
  { eapply appends_lifecycle_trans; [| apply removeOldDrives_lifecycle].
    apply appends_lifecycle_foldl, removeInactiveHost_lifecycle. }
  set (t2 := removeOldDrives _ _ _ _) in *. clearbody t2.
  destruct (slice_to _ _ _ _) as [selected | reason]; [| exact H2].
  cbn. eapply appends_lifecycle_trans; [exact H2 |].
  apply (appends_lifecycle_trans _
           (trace (foldl (deactivateHost rt mp) t2 selected)));
    apply (appends_lifecycle_foldl (deactivateHost rt mp)), deactivateHost_lifecycle.
Qed.

End LifecycleOnly.

(** X17.  Every tick that got its snapshot makes its queries first, each
    once and in the fixed order -- status, host list, drive list for a
    backend group, node list -- and makes no query afterwards: whatever
    follows is a drop or a mutating call, decided on the one snapshot,
    whether the tick returns or panics. *)
Theorem snapshot_is_queried_once IsManagement rt now info mp
    hostsApiList driveApiList nodeApiList :
  snapshot_of info mp hostsApiList driveApiList nodeApiList →
  ∃ δ, (Handler IsManagement rt now info mp).1 = snapshot_queries info ++ δ ∧
    ∀ ev, ev ∈ δ → lifecycle_event ev = true.
Proof.
  intros Hsnap. rewrite (Handler_snapshot _ _ _ _ _ _ _ _ Hsnap).
  destruct (reconcile_lifecycle rt info mp IsManagement now driveApiList
              (buildHosts rt hostsApiList driveApiList nodeApiList)
              (mkTick (snapshot_queries info) protocol.zero)) as (δ & Hq & Hδ).
  exists δ. split; [exact Hq |]. intros ev Hin.
  rewrite forallb_forall in Hδ. apply Hδ. now apply list_elem_of_In.
Qed.

Lemma Forall2_elem_of_l {A B : Type} (R : A → B → Prop) l l' x :
  Forall2 R l l' → x ∈ l → ∃ y, y ∈ l' ∧ R x y.
Proof.
  induction 1 as [| x' y l l' HR _ IH]; intros Hin; [inversion Hin |].
  apply elem_of_cons in Hin as [-> | Hin].
  - exists y. split; [left | exact HR].
  - destruct (IH Hin) as (y' & Hy' & HR'). exists y'. split; [now right | exact HR'].
Qed.

(** X18.  What a tick that returns reports as hosts is the list of the
    in-scope hosts of the snapshot in the order of removal priority,
    each with the state the classifier derived for it -- every host in
    scope, whether the tick acted on it or not, and no other host. *)
Theorem reported_hosts_in_priority_order IsManagement rt now info mp
    hostsApiList driveApiList nodeApiList tr resp err :
  runtime_ok rt →
  snapshot_of info mp hostsApiList driveApiList nodeApiList →
  Handler IsManagement rt now info mp = (tr, Returned resp err) →
  ∃ sorted,
    protocol.Hosts resp = map toResponseHost sorted ∧
    sorted_by (hostLess rt) sorted ∧
    (∀ x, x ∈ sorted →
       ∃ k host s,
         buildHosts rt hostsApiList driveApiList nodeApiList !! k = Some host ∧
         in_scope info host = true ∧
         deriveHostState IsManagement rt now host = Done s ∧
         x = hostInfo.with_scaleState host s) ∧
    (∀ k host,
       buildHosts rt hostsApiList driveApiList nodeApiList !! k = Some host →
       in_scope info host = true →
       ∃ s, deriveHostState IsManagement rt now host = Done s ∧
            hostInfo.with_scaleState host s ∈ sorted).
Proof.
  intros Hrt Hsnap Hrun.
  rewrite (Handler_snapshot _ _ _ _ _ _ _ _ Hsnap) in Hrun.
  set (hosts := buildHosts rt hostsApiList driveApiList nodeApiList) in *.
  destruct (reconcile_inv _ _ _ _ _ _ _ _ _ _ _ Hrun) as (lists & selected & Hc & Hsel).
  destruct (reconcile_returns IsManagement rt now info mp Hrt driveApiList hosts
              (mkTick (snapshot_queries info) protocol.zero) lists selected Hc Hsel)
    as (δ & τ & resp' & Hret & _ & Hhosts & _).
  rewrite Hret in Hrun. injection Hrun as _ <- _.
  set (sorted := sort_Slice rt hostInfo.t (hostLess rt) (hostsList lists)) in *.
  assert (Hperm : sorted ≡ₚ hostsList lists) by apply (sort_Slice_perm rt Hrt).
  apply classify_spec in Hc as (raw & Hraw & Hstates & _ & _).
  apply assignHosts_spec in Hraw as (Hscope & _ & _).
  apply calculateHostsState_spec in Hstates.
  exists sorted. split; [exact Hhosts | split; [| split]].
  - apply (sort_Slice_sorted rt Hrt), hostLess_strict_weak_order.
  - intros x Hx. rewrite Hperm in Hx.
    destruct (Forall2_elem_of_r _ _ _ _ Hstates Hx) as (host & Hhost & s & Hs & ->).
    rewrite Hscope in Hhost. apply list_elem_of_filter in Hhost as [Hin Hhost].
    apply (range_values rt Hrt) in Hhost as [k Hk]. exists k, host, s. auto.
  - intros k host Hk Hin.
    assert (Hhost : host ∈ hostsList raw).
    { rewrite Hscope. apply list_elem_of_filter. split; [exact Hin |].
      apply list_elem_of_fmap. exists (k, host). split; [reflexivity |].
      now apply (elem_of_range rt Hrt). }
    destruct (Forall2_elem_of_l _ _ _ _ Hstates Hhost) as (x & Hx & s & Hs & ->).
    exists s. split; [exact Hs |]. now rewrite Hperm.
Qed.

(** ** The theorems of the second part at the samples *)

Lemma outage_snapshot :
  snapshot_of (Sample.info 3) Outage.plane Outage.hosts Outage.drives Outage.nodes.
Proof. constructor; [exists Sample.started; split |..]; reflexivity. Qed.



Lemma snapshot_is_join_witness :
  buildHosts backward_runtime Outage.hosts Outage.drives Outage.nodes !! 9 =
  (fun host => joined 9 host Outage.drives Outage.nodes) <$> Outage.hosts !! 9.
Proof.
  apply (proj1 (snapshot_is_join backward_runtime Outage.hosts Outage.drives Outage.nodes
                  backward_runtime_ok)).
Defined.

Lemma membership_lists_witness :
  ∃ raw,
    assignHosts Sample.IsManagement forward_runtime Sample.clock (Sample.info 3)
      (buildHosts forward_runtime Outage.hosts Outage.drives Outage.nodes) = Done raw ∧
    downHosts raw =
    filter (fun h => forced_down Sample.IsManagement forward_runtime Sample.clock
                       (Sample.info 3) h = true)
      (range forward_runtime
         (buildHosts forward_runtime Outage.hosts Outage.drives Outage.nodes)).*2.
Proof.
  eexists. split; [vm_compute; reflexivity |].
  apply (membership_lists Sample.IsManagement forward_runtime Sample.clock (Sample.info 3)).
  vm_compute. reflexivity.
Defined.

Lemma lifecycle_calls_are_owed_witness :
  owed Sample.IsManagement forward_runtime Sample.clock (Sample.info 3)
    (buildHosts forward_runtime Outage.hosts Outage.drives Outage.nodes) Outage.drives
    Outage.run.1 (EvCall (weka.JrpcRemoveDrive ["uuid-31"]) None) ∧
  owed Sample.IsManagement forward_runtime Sample.clock (Sample.info 3)
    (buildHosts forward_runtime Outage.hosts Outage.drives Outage.nodes) Outage.drives
    Outage.run.1 (EvCall (weka.JrpcDeactivateDrives ["uuid-92"]) None).
Proof.
  split;
    apply (lifecycle_calls_are_owed Sample.IsManagement forward_runtime Sample.clock
             (Sample.info 3) Outage.plane Outage.hosts Outage.drives Outage.nodes
             Outage.run.1 Outage.run.2 forward_runtime_ok outage_snapshot);
    try (vm_compute; discriminate);
    try (split; vm_compute; discriminate);
    try apply surjective_pairing;
    apply list_elem_of_In; vm_compute; auto 20.
Defined.

Lemma terminate_candidates_are_removed_hosts_witness :
  ∃ tr resp err,
    Outage.run = (tr, Returned resp err) ∧
    ∀ instance, instance ∈ protocol.ToTerminate resp →
      instance ∈ protocol.Instances (Sample.info 3) ∧
      ∃ k host,
        Outage.hosts !! k = Some host ∧ weka.Host.State host = "INACTIVE" ∧
        weka.Host.HostIp host = protocol.PrivateIp instance ∧
        EvCall (weka.JrpcRemoveHost k true) None ∈ tr.
Proof.
  eexists _, _, _. split; [vm_compute; reflexivity |].
  eapply (terminate_candidates_are_removed_hosts Sample.IsManagement forward_runtime
            Sample.clock (Sample.info 3) Outage.plane Outage.hosts Outage.drives Outage.nodes
            _ _ _ forward_runtime_ok outage_snapshot).
  - vm_compute. discriminate.
  - vm_compute. discriminate.
  - split; vm_compute; discriminate.
  - vm_compute. reflexivity.
Defined.


Lemma getNumToDeactivate_counts_states_witness :
  getNumToDeactivate [Outage.healthy; Sample.leaving; Outage.unhealthy] 1 =
  calculateDeactivateTarget
    (count_state HEALTHY [Outage.healthy; Sample.leaving; Outage.unhealthy])
    (count_state UNHEALTHY [Outage.healthy; Sample.leaving; Outage.unhealthy])
    (count_state DEACTIVATING [Outage.healthy; Sample.leaving; Outage.unhealthy]) 1.
Proof.
  assert (Hlen : Z.of_nat (length [Outage.healthy; Sample.leaving; Outage.unhealthy])
                 <= GoInt.max_int) by (vm_compute; discriminate).
  apply (proj1 (getNumToDeactivate_counts_states
                  [Outage.healthy; Sample.leaving; Outage.unhealthy] 1 Hlen)).
Defined.

Lemma deactivating_hosts_are_selected_witness :
  ∃ selected,
    slice_to forward_runtime hostInfo.zero
      (sort_Slice forward_runtime hostInfo.t (hostLess forward_runtime)
         [Outage.healthy; Sample.leaving; Outage.unhealthy])
      (getNumToDeactivate
         (sort_Slice forward_runtime hostInfo.t (hostLess forward_runtime)
            [Outage.healthy; Sample.leaving; Outage.unhealthy]) 3)
      = Done selected ∧
    count_state DEACTIVATING [Outage.healthy; Sample.leaving; Outage.unhealthy]
      <= Z.of_nat (length selected) ∧
    (∀ h, h ∈ [Outage.healthy; Sample.leaving; Outage.unhealthy] →
          hostInfo.scaleState h = DEACTIVATING → h ∈ selected).
Proof.
  apply (deactivating_hosts_are_selected forward_runtime
           [Outage.healthy; Sample.leaving; Outage.unhealthy] 3 forward_runtime_ok).
  - vm_compute. discriminate.
  - vm_compute. discriminate.
  - split; vm_compute; discriminate.
Defined.

Lemma selection_respects_priority_witness :
  Sample.leaving ∈ [Sample.leaving; Outage.unhealthy].
Proof.
  apply (selection_respects_priority forward_runtime
           [Outage.healthy; Sample.leaving; Outage.unhealthy] 1
           [Sample.leaving; Outage.unhealthy] Outage.unhealthy Sample.leaving
           forward_runtime_ok).
  - vm_compute. discriminate.
  - vm_compute. discriminate.
  - split; vm_compute; discriminate.
  - vm_compute. reflexivity.
  - right. left.
  - right. left.
  - vm_compute. reflexivity.
Defined.

Lemma endpoint_dropped_before_host_call_witness :
  ∃ j ip,
    8%nat = S j ∧
    Outage.run.1 !! j = Some (EvDrop ip) ∧
    endpoint_of (buildHosts forward_runtime Outage.hosts Outage.drives Outage.nodes)
      (weka.JrpcRemoveHost 4 true) ip.
Proof.
  apply (endpoint_dropped_before_host_call Sample.IsManagement forward_runtime Sample.clock
           (Sample.info 3) Outage.plane Outage.hosts Outage.drives Outage.nodes
           Outage.run.1 Outage.run.2 8%nat (weka.JrpcRemoveHost 4 true) None
           forward_runtime_ok outage_snapshot).
  - vm_compute. discriminate.
  - vm_compute. discriminate.
  - split; vm_compute; discriminate.
  - apply surjective_pairing.
  - vm_compute. reflexivity.
  - reflexivity.
Defined.

Lemma snapshot_is_queried_once_witness :
  ∃ δ,
    Outage.run.1 = snapshot_queries (Sample.info 3) ++ δ ∧
    ∀ ev, ev ∈ δ → lifecycle_event ev = true.
Proof.
  apply (snapshot_is_queried_once Sample.IsManagement forward_runtime Sample.clock
           (Sample.info 3) Outage.plane Outage.hosts Outage.drives Outage.nodes
           outage_snapshot).
Defined.

Lemma reported_hosts_in_priority_order_witness :
  ∃ tr resp err sorted,
    Outage.run = (tr, Returned resp err) ∧
    protocol.Hosts resp = map toResponseHost sorted ∧
    sorted_by (hostLess forward_runtime) sorted.
Proof.
  eexists _, _, _.
  destruct (reported_hosts_in_priority_order Sample.IsManagement forward_runtime
              Sample.clock (Sample.info 3) Outage.plane Outage.hosts Outage.drives
              Outage.nodes Outage.run.1
              (match Outage.run.2 with Returned resp _ => resp | Panicked _ => protocol.zero end)
              None forward_runtime_ok outage_snapshot)
    as (sorted & Hhosts & Hsorted & _).
  - vm_compute. reflexivity.
  - exists sorted. split; [vm_compute; reflexivity |]. split; [exact Hhosts | exact Hsorted].
Defined.
